(** * Bitcask: a shallow embedding of the storage engine

    The development follows the packages of the repository:
    - [recfmt]    the record codec (data, hint and keydir records);
    - [sio]       the retry wrappers around positional reads and writes;
    - [datastore] the segment writer and the positional value reader;
    - [keydir]    the choice between the persisted index and the segments;
    - [bitcask]   the engine operations Get, Put, Delete, ListKeys, Fold,
                  Merge and Sync.

    Go's fixed-width integers are integers of [Z] with the wrap-around
    written out, byte slices are lists of [byte], Go strings are [string]s
    (sequences of octets), and Go maps are [gmap]s. *)

From Stdlib Require Import ZArith Lia Strings.Byte String Ascii List.
From stdpp Require Import base option list gmap strings pretty.

Open Scope Z_scope.

(** ** Go's integer conversions *)

Definition uint16 (z : Z) : Z := z mod 2 ^ 16.
Definition uint32 (z : Z) : Z := z mod 2 ^ 32.
Definition uint64 (z : Z) : Z := z mod 2 ^ 64.

(** [int64(u)] of an unsigned 64-bit value: the two's complement reading. *)
Definition int64 (z : Z) : Z :=
  let u := z mod 2 ^ 64 in if u <? 2 ^ 63 then u else u - 2 ^ 64.

(** Go errors are compared and matched through their message. *)
Definition error : Type := string.

(** [len(s)] of a Go string, as an [int]. *)
Definition len (s : string) : Z := Z.of_nat (String.length s).

(** ** Bytes and byte slices *)

Definition Z_of_byte (b : byte) : Z := Z.of_N (Byte.to_N b).

Definition byte_of_Z (z : Z) : byte :=
  default x00 (Byte.of_N (Z.to_N (z mod 256))).

(** [[]byte(s)] and [string(b)]. *)
Definition bytes_of (s : string) : list byte := list_byte_of_string s.
Definition string_of (b : list byte) : string := string_of_list_byte b.

(** [make([]byte, n)]. *)
Definition make (n : Z) : list byte := replicate (Z.to_nat n) x00.

(** [copy(buf[off:], src)]: overwrites [buf] from [off] on with as much of
    [src] as fits.  The buffer keeps its length. *)
Definition store (buf : list byte) (off : Z) (src : list byte) : list byte :=
  let o := Z.to_nat off in
  take o buf ++ take (length buf - o) src ++ drop (o + length src) buf.

(** [buf[lo:hi]] of a slice whose capacity is its length, as [make] gives
    it: a run-time panic ([None]) unless [lo <= hi <= len(buf)]. *)
Definition slice (buf : list byte) (lo hi : Z) : option (list byte) :=
  if decide (0 <= lo <= hi /\ hi <= Z.of_nat (length buf))
  then Some (take (Z.to_nat (hi - lo)) (drop (Z.to_nat lo) buf))
  else None.

(** ** encoding/binary, little endian *)

Fixpoint le_bytes (n : nat) (z : Z) : list byte :=
  match n with
  | O => []
  | S n' => byte_of_Z z :: le_bytes n' (z / 256)
  end.

Fixpoint le_value (bs : list byte) : Z :=
  match bs with
  | [] => 0
  | b :: bs' => Z_of_byte b + 256 * le_value bs'
  end.

(** [binary.LittleEndian.PutUintN(buf[off:], v)] for [N = 8 * n].  The
    encoders below write the header into a buffer they have allocated with
    room for it, where the bounds check of [PutUintN] passes. *)
Definition PutUint (n : nat) (buf : list byte) (off : Z) (v : Z) : list byte :=
  store buf off (le_bytes n v).

(** [binary.LittleEndian.UintN(buf[off:])] for [N = 8 * n]: panics ([None])
    when fewer than [n] bytes are left. *)
Definition Uint (n : nat) (buf : list byte) (off : Z) : option Z :=
  le_value <$> slice buf off (off + Z.of_nat n).

(** ** hash/crc32, IEEE polynomial (reflected, bit by bit) *)

Definition crc_poly : Z := 0xEDB88320.

Definition crc_bit (c : Z) : Z :=
  if Z.testbit c 0 then Z.lxor (Z.shiftr c 1) crc_poly else Z.shiftr c 1.

Definition crc_byte (c : Z) (b : byte) : Z :=
  Nat.iter 8 crc_bit (Z.lxor c (Z_of_byte b)).

(** [crc32.ChecksumIEEE(data)], a [uint32]. *)
Definition ChecksumIEEE (data : list byte) : Z :=
  uint32 (Z.lxor (fold_left crc_byte data 0xFFFFFFFF) 0xFFFFFFFF).

(** ** strconv and fmt *)

Definition maxUint64 : Z := 2 ^ 64 - 1.

Definition digit_of (c : ascii) : option Z :=
  let n := Z.of_N (N_of_ascii c) in
  if decide (48 <= n <= 57) then Some (n - 48) else None.

(** The digit loop of [strconv.ParseUint(s, 10, 64)]: it stops at the first
    byte that is not a decimal digit with value 0 and a syntax error, and
    at the first overflow with the maximal value and a range error. *)
Fixpoint ParseUint_loop (s : string) (n : Z) : Z * option error :=
  match s with
  | EmptyString => (n, None)
  | String c s' =>
      match digit_of c with
      | None => (0, Some "invalid syntax"%string)
      | Some d =>
          if decide (maxUint64 / 10 + 1 <= n)
          then (maxUint64, Some "value out of range"%string)
          else
            let n1 := n * 10 + d in
            if decide (maxUint64 < n1)
            then (maxUint64, Some "value out of range"%string)
            else ParseUint_loop s' n1
      end
  end.

Definition ParseUint (s : string) : Z * option error :=
  match s with
  | EmptyString => (0, Some "invalid syntax"%string)
  | _ => ParseUint_loop s 0
  end.

(** [strconv.FormatUint(n, 10)] and the verb [%d]. *)
Definition FormatUint (n : Z) : string := pretty n.

(** ** Package recfmt: the record codec *)

Module recfmt.

Definition DataFileRecHdr : Z := 18.
Definition HintFileRecHdr : Z := 18.
Definition keyDirFileHdr : Z := 26.

Definition errDataCorruption : error :=
  "corrution detected: datastore files are corrupted"%string.

Record DataRec := {
  Key : string;
  Value : string;
  Tstamp : Z;
  KeySize : Z;
  ValueSize : Z
}.

Record KeyDirRec := {
  FileId : string;
  ValuePos : Z;
  RecValueSize : Z;
  RecTstamp : Z
}.

Definition CompressDataFileRec (key value : string) (tstamp : Z) : list byte :=
  let buf := make (DataFileRecHdr + len key + len value) in
  let buf := PutUint 8 buf 4 (uint64 tstamp) in
  let buf := PutUint 2 buf 12 (uint16 (len key)) in
  let buf := PutUint 4 buf 14 (uint32 (len value)) in
  let buf := store buf DataFileRecHdr (bytes_of key) in
  let buf := store buf (DataFileRecHdr + len key) (bytes_of value) in
  let checkSum := ChecksumIEEE (drop 4 buf) in
  PutUint 4 buf 0 checkSum.

Definition validateCheckSum (parsedSum : Z) (rec : list byte) : option error :=
  let wantedSum := ChecksumIEEE rec in
  if decide (parsedSum <> wantedSum) then Some errDataCorruption else None.

(** The result is [None] when the Go function panics on a slice bound,
    [Some (inr err)] when it returns an error, and [Some (inl (rec, n))]
    when it returns the record and its length.  [DataFileRecHdr + keySize]
    is computed on [uint16] in the two slice expressions for the key and
    for [valueOffset], and on [uint32] in the checksummed region and in
    the returned length. *)
Definition ExtractDataFileRec (buf : list byte) : option (DataRec * Z + error) :=
  parsedSum ← Uint 4 buf 0;
  tstamp ← Uint 8 buf 4;
  keySize ← Uint 2 buf 12;
  valueSize ← Uint 4 buf 14;
  key ← slice buf DataFileRecHdr (uint16 (DataFileRecHdr + keySize));
  let valueOffset := uint32 (uint16 (DataFileRecHdr + keySize)) in
  value ← slice buf valueOffset (uint32 (valueOffset + valueSize));
  region ← slice buf 4 (uint32 (DataFileRecHdr + uint32 keySize + valueSize));
  match validateCheckSum parsedSum region with
  | Some err => Some (inr err)
  | None =>
      Some (inl ({| Key := string_of key;
                    Value := string_of value;
                    Tstamp := int64 tstamp;
                    KeySize := keySize;
                    ValueSize := valueSize |},
                 uint32 (DataFileRecHdr + valueSize + uint32 keySize)))
  end.

Definition CompressHintFileRec (key : string) (rec : KeyDirRec) : list byte :=
  let buf := make (HintFileRecHdr + len key) in
  let buf := PutUint 8 buf 0 (uint64 (RecTstamp rec)) in
  let buf := PutUint 2 buf 8 (uint16 (len key)) in
  let buf := PutUint 4 buf 10 (RecValueSize rec) in
  let buf := PutUint 4 buf 14 (ValuePos rec) in
  store buf 18 (bytes_of key).

Definition CompressKeyDirRec (key : string) (rec : KeyDirRec) : list byte :=
  let keySize := len key in
  let buf := make (keyDirFileHdr + keySize) in
  let fid := fst (ParseUint (FileId rec)) in
  let buf := PutUint 8 buf 0 fid in
  let buf := PutUint 2 buf 8 (uint16 keySize) in
  let buf := PutUint 4 buf 10 (RecValueSize rec) in
  let buf := PutUint 4 buf 14 (ValuePos rec) in
  let buf := PutUint 8 buf 18 (uint64 (RecTstamp rec)) in
  store buf 26 (bytes_of key).

(** [keySize + 26] is a [uint16] sum; the returned length is an [int]. *)
Definition ExtractKeyDirRec (buf : list byte) : option (string * KeyDirRec * Z) :=
  fid ← Uint 8 buf 0;
  let fileId := FormatUint fid in
  keySize ← Uint 2 buf 8;
  valueSize ← Uint 4 buf 10;
  valuePos ← Uint 4 buf 14;
  tstamp ← Uint 8 buf 18;
  key ← slice buf 26 (uint16 (keySize + 26));
  Some (string_of key,
        {| FileId := fileId;
           ValuePos := valuePos;
           RecValueSize := valueSize;
           RecTstamp := int64 tstamp |},
        keyDirFileHdr + keySize).

(** [HintFileRecHdr + keySize] is a [uint16] sum in the slice expression;
    the returned length is an [int].  The file identifier is left empty:
    the caller fills it from the name of the hint file. *)
Definition ExtractHintFileRec (buf : list byte) : option (string * KeyDirRec * Z) :=
  tstamp ← Uint 8 buf 0;
  keySize ← Uint 2 buf 8;
  valueSize ← Uint 4 buf 10;
  valuePos ← Uint 4 buf 14;
  key ← slice buf HintFileRecHdr (uint16 (HintFileRecHdr + keySize));
  Some (string_of key,
        {| FileId := "";
           ValuePos := valuePos;
           RecValueSize := valueSize;
           RecTstamp := int64 tstamp |},
        HintFileRecHdr + keySize).

End recfmt.

(** ** Outcomes of a call

    A Go call returns, panics, or does not return.  Loops whose exit is not
    structural run on a fuel; [Hangs] is the result when it runs out. *)

Inductive outcome (A : Type) : Type :=
| Done (a : A)
| Panics
| Hangs.

Arguments Done {A} a.
Arguments Panics {A}.
Arguments Hangs {A}.

#[global] Instance outcome_ret : MRet outcome := fun A a => Done a.

#[global] Instance outcome_bind : MBind outcome := fun A B f m =>
  match m with
  | Done a => f a
  | Panics => Panics
  | Hangs => Hangs
  end.

(** ** Package os: one directory of regular files, a clock, and faults *)

Module os.

(** The outcome the operating system has in store for one read or write:
    it transfers at most [fault_count] bytes and reports [fault_err]. *)
Record fault := { fault_count : nat; fault_err : error }.

(** The datastore directory.  [clock] gives the successive readings of
    [time.Now().UnixMicro()], [ticks] counts the readings taken so far;
    [rfaults] and [wfaults] are the faults awaiting the next positional
    reads and the next writes, in order; calls beyond them meet none.
    Opening, creating, closing, syncing and removing files do not fail. *)
Record World := {
  files : gmap string (list byte);
  clock : nat -> Z;
  ticks : nat;
  rfaults : list fault;
  wfaults : list fault
}.

Definition set_files (fs : gmap string (list byte)) (w : World) : World :=
  {| files := fs; clock := clock w; ticks := ticks w;
     rfaults := rfaults w; wfaults := wfaults w |}.

Definition set_rfaults (l : list fault) (w : World) : World :=
  {| files := files w; clock := clock w; ticks := ticks w;
     rfaults := l; wfaults := wfaults w |}.

Definition set_wfaults (l : list fault) (w : World) : World :=
  {| files := files w; clock := clock w; ticks := ticks w;
     rfaults := rfaults w; wfaults := l |}.

(** [time.Now().UnixMicro()] *)
Definition UnixMicro (w : World) : Z * World :=
  (clock w (ticks w),
   {| files := files w; clock := clock w; ticks := S (ticks w);
      rfaults := rfaults w; wfaults := wfaults w |}).

(** An open file: its name in the directory and the offset of the
    descriptor. *)
Record File := { name : string; offset : nat }.

Definition EOF : error := "EOF"%string.

Definition contents (w : World) (nm : string) : list byte :=
  default [] (files w !! nm).

(** [os.OpenFile(name, O_CREATE|O_RDWR, 0666)]: opens the file at offset 0
    and creates it empty when it is missing; an existing file keeps its
    bytes (there is neither [O_TRUNC] nor [O_APPEND]). *)
Definition OpenFile (w : World) (nm : string) : File * World :=
  ({| name := nm; offset := 0 |},
   match files w !! nm with
   | Some _ => w
   | None => set_files (<[nm := []]> (files w)) w
   end).

(** [os.Open(name)] *)
Definition Open (w : World) (nm : string) : File + error :=
  match files w !! nm with
  | Some _ => inl {| name := nm; offset := 0 |}
  | None => inr ("open " +:+ nm +:+ ": no such file or directory")
  end.

(** [File.ReadAt(b, off)] of package os with [len(b) = n]: the bytes read and the
    error, which is not nil whenever fewer than [n] bytes were read. *)
Definition ReadAt (w : World) (f : File) (n : nat) (off : Z)
  : (list byte * option error) * World :=
  if decide (off < 0) then (([], Some "negative offset"%string), w)
  else
    let avail := take n (drop (Z.to_nat off) (contents w (name f))) in
    match rfaults w with
    | ft :: rest =>
        ((take (fault_count ft) avail, Some (fault_err ft)), set_rfaults rest w)
    | [] =>
        ((avail, if decide (length avail < n)%nat then Some EOF else None), w)
    end.

(** The bytes of a file after [data] is written at offset [pos]. *)
Definition pwrite (content : list byte) (pos : nat) (data : list byte) : list byte :=
  resize pos x00 content ++ data ++ drop (pos + length data) content.

Definition write_bytes (w : World) (f : File) (data : list byte) : File * World :=
  ({| name := name f; offset := offset f + length data |},
   set_files (<[name f := pwrite (contents w (name f)) (offset f) data]> (files w)) w).

(** [File.Write(b)] of package os: writes at the offset of the descriptor and
    advances it by the bytes written. *)
Definition Write (w : World) (f : File) (b : list byte)
  : (nat * option error) * File * World :=
  match wfaults w with
  | ft :: rest =>
      let data := take (fault_count ft) b in
      let '(f', w') := write_bytes (set_wfaults rest w) f data in
      ((length data, Some (fault_err ft)), f', w')
  | [] =>
      let '(f', w') := write_bytes w f b in
      ((length b, None), f', w')
  end.

(** [os.Remove(name)] *)
Definition Remove (w : World) (nm : string) : option error * World :=
  match files w !! nm with
  | Some _ => (None, set_files (delete nm (files w)) w)
  | None => (Some ("remove " +:+ nm +:+ ": no such file or directory"), w)
  end.

(** The names [Readdir(0)] lists. *)
Definition Readdir (w : World) : list string := (map_to_list (files w)).*1.

(** [os.ReadFile(name)].  The buffer stands for a slice whose capacity is
    its length.  The library returns it with spare capacity, within which
    a slice expression may run past the length without a panic; that only
    matters for a file that ends inside a record, where [None] of [slice]
    need not be a panic of the code. *)
Definition ReadFile (w : World) (nm : string) : list byte + error :=
  match files w !! nm with
  | Some data => inl data
  | None => inr ("open " +:+ nm +:+ ": no such file or directory")
  end.

End os.

(** ** Package sio: reads and writes robust against short counts *)

Module sio.

Definition maxAttempts : nat := 5.

Section loops.
Variable fuel : nat.

(** The loop of [ReadAt], entered with [i = n] after the first read:
[[
for i := n; err != nil; i += n {
    if attempts == maxAttempts { return 0, err }
    off += int64(i)
    n, err = f.File.ReadAt(b[i:], int64(off))
}
return len(b), nil
]]
    The result carries the buffer as the reads have left it. *)
Fixpoint ReadAt_loop (fl : nat) (w : os.World) (f : os.File) (b : list byte)
    (off : Z) (attempts i : nat) (err : option error)
  : outcome ((list byte * (Z * option error)) * os.World) :=
  match err with
  | None => Done ((b, (Z.of_nat (length b), None)), w)
  | Some e =>
      match fl with
      | O => Hangs
      | S fl' =>
          if decide (attempts = maxAttempts) then Done ((b, (0, Some e)), w)
          else
            let off := off + Z.of_nat i in
            let '((data, err'), w') := os.ReadAt w f (length b - i) off in
            let b := store b (Z.of_nat i) data in
            let n := length data in
            ReadAt_loop fl' w' f b off attempts (i + n) err'
      end
  end.

Definition ReadAt (w : os.World) (f : os.File) (b : list byte) (off : Z)
  : outcome ((list byte * (Z * option error)) * os.World) :=
  let attempts := 0%nat in
  let '((data, err), w) := os.ReadAt w f (length b) off in
  let b := store b 0 data in
  let n := length data in
  ReadAt_loop fuel w f b off attempts n err.

(** The loop of [Write]:
[[
for i := n; err != nil; i += n {
    if attempts == maxAttempts { return 0, err }
    n, err = f.File.Write(b[i:])
    attempts++
}
return len(b), nil
]] *)
Fixpoint Write_loop (fl : nat) (w : os.World) (f : os.File) (b : list byte)
    (attempts i : nat) (err : option error)
  : outcome ((Z * option error) * os.File * os.World) :=
  match err with
  | None => Done ((Z.of_nat (length b), None), f, w)
  | Some e =>
      match fl with
      | O => Hangs
      | S fl' =>
          if decide (attempts = maxAttempts) then Done ((0, Some e), f, w)
          else
            let '((n, err'), f', w') := os.Write w f (drop i b) in
            Write_loop fl' w' f' b (S attempts) (i + n) err'
      end
  end.

Definition Write (w : os.World) (f : os.File) (b : list byte)
  : outcome ((Z * option error) * os.File * os.World) :=
  let '((n, err), f, w) := os.Write w f b in
  let attempts := 0%nat in
  Write_loop fuel w f b attempts n err.

End loops.

End sio.

(** ** The datastore directory and its lock

    The directory at the datastore path may be missing.  Its lock is the
    advisory lock of the file [.lck], as [flock(2)] keeps it for the open
    descriptions of that file: free, held shared by one or more of them,
    or held exclusively by one. *)

Inductive Holders := Free | Readers (others : nat) | Writer.

Record Disk := {
  present : bool;
  holders : Holders;
  dir : os.World
}.

Definition set_dir (w : os.World) (s : Disk) : Disk :=
  {| present := present s; holders := holders s; dir := w |}.

Definition set_holders (h : Holders) (s : Disk) : Disk :=
  {| present := present s; holders := h; dir := dir s |}.

(** [os.MkdirAll(path, 0777)] *)
Definition MkdirAll (s : Disk) : option error * Disk :=
  (None, {| present := true; holders := holders s; dir := dir s |}).

(** Package github.com/gofrs/flock, for a [Flock] that holds no lock yet:
    [TryLock] and [TryRLock] open the lock file, creating it when it is
    missing, and ask for the lock without blocking; [Unlock] gives back
    what the [Flock] holds. *)
Module flock.

Definition open_lock_file (s : Disk) (path lockFile : string) : option error * Disk :=
  if present s then (None, set_dir (os.OpenFile (dir s) lockFile).2 s)
  else (Some ("open " +:+ path +:+ "/" +:+ lockFile +:+ ": no such file or directory"), s).

Definition TryLock (s : Disk) (path lockFile : string) : (bool * option error) * Disk :=
  match open_lock_file s path lockFile with
  | (Some err, s) => ((false, Some err), s)
  | (None, s) =>
      match holders s with
      | Free => ((true, None), set_holders Writer s)
      | _ => ((false, None), s)
      end
  end.

Definition TryRLock (s : Disk) (path lockFile : string) : (bool * option error) * Disk :=
  match open_lock_file s path lockFile with
  | (Some err, s) => ((false, Some err), s)
  | (None, s) =>
      match holders s with
      | Free => ((true, None), set_holders (Readers 0) s)
      | Readers n => ((true, None), set_holders (Readers (S n)) s)
      | Writer => ((false, None), s)
      end
  end.

(** [Unlock] of a [Flock] that holds the lock. *)
Definition Unlock (s : Disk) : Disk :=
  match holders s with
  | Readers (S n) => set_holders (Readers n) s
  | _ => set_holders Free s
  end.

End flock.

(** ** Package datastore: the segment writer and the value reader

    The model has one datastore directory, so [path.Join(path, name)] is
    [name]; the open flags only select synchronous writes and are left out. *)

Module datastore.

Inductive AppendType := Merge | Active.

Definition maxFileSize : Z := 10 * 1024.

Definition TompStone : string :=
  "8890fc70294d02dbde257989e802451c2276be7fb177c3ca4399dc4728e4e1e0".

Definition errAccessDenied : error := "access denied: datastore is locked"%string.
Definition ErrKeyNotExist : error := "key does not exist"%string.

(** [fmt.Sprintf("%s: %s", key, ErrKeyNotExist)] *)
Definition keyNotExist (key : string) : error := key +:+ ": " +:+ ErrKeyNotExist.

Record AppendFile := {
  fileWrapper : option os.File;
  hintWrapper : option os.File;
  fileName : string;
  appendType : AppendType;
  currentPos : Z;
  currentSize : Z
}.

Definition NewAppendFile (appendType : AppendType) : AppendFile :=
  {| fileWrapper := None; hintWrapper := None; fileName := "";
     appendType := appendType; currentPos := 0; currentSize := 0 |}.

(** [fmt.Sprintf("%d.data", tstamp)] and [fmt.Sprintf("%d.hint", tstamp)] *)
Definition dataName (tstamp : Z) : string := pretty tstamp +:+ ".data".
Definition hintName (tstamp : Z) : string := pretty tstamp +:+ ".hint".

(** Closing the previous files and opening the new ones cannot fail in
    the model, so the error of [newAppendFile] is always nil. *)
Definition newAppendFile (a : AppendFile) (w : os.World)
  : option error * AppendFile * os.World :=
  let '(tstamp, w) := os.UnixMicro w in
  let fileName := dataName tstamp in
  let '(file, w) := os.OpenFile w fileName in
  let '(hintW, w) :=
    match appendType a with
    | Merge =>
        let '(hint, w) := os.OpenFile w (hintName tstamp) in (Some hint, w)
    | Active => (hintWrapper a, w)
    end in
  (None,
   {| fileWrapper := Some file; hintWrapper := hintW; fileName := fileName;
      appendType := appendType a; currentPos := 0; currentSize := 0 |},
   w).

Definition Name (a : AppendFile) : string := fileName a.

Section with_fuel.
Variable fuel : nat.

Definition WriteData (a : AppendFile) (w : os.World) (key value : string) (tstamp : Z)
  : outcome ((Z * option error) * AppendFile * os.World) :=
  let rec := recfmt.CompressDataFileRec key value tstamp in
  let '(err, a, w) :=
    if decide (fileWrapper a = None \/
               Z.of_nat (length rec) + currentSize a > maxFileSize)
    then newAppendFile a w
    else (None, a, w) in
  match err with
  | Some e => Done ((0, Some e), a, w)
  | None =>
      match fileWrapper a with
      | None => Panics
      | Some file =>
          '((n, err), file, w) ← sio.Write fuel w file rec;
          let a := {| fileWrapper := Some file; hintWrapper := hintWrapper a;
                      fileName := fileName a; appendType := appendType a;
                      currentPos := currentPos a; currentSize := currentSize a |} in
          match err with
          | Some e => Done ((0, Some e), a, w)
          | None =>
              let writePos := currentPos a in
              Done ((writePos, None),
                    {| fileWrapper := fileWrapper a; hintWrapper := hintWrapper a;
                       fileName := fileName a; appendType := appendType a;
                       currentPos := currentPos a + n;
                       currentSize := currentSize a + n |},
                    w)
          end
      end
  end.

(** A writer without an open hint file has a nil [hintWrapper]; writing
    through it panics. *)
Definition WriteHint (a : AppendFile) (w : os.World) (key : string)
    (rec : recfmt.KeyDirRec)
  : outcome (option error * AppendFile * os.World) :=
  let buf := recfmt.CompressHintFileRec key rec in
  match hintWrapper a with
  | None => Panics
  | Some hint =>
      '((_, err), hint, w) ← sio.Write fuel w hint buf;
      Done (err,
            {| fileWrapper := fileWrapper a; hintWrapper := Some hint;
               fileName := fileName a; appendType := appendType a;
               currentPos := currentPos a; currentSize := currentSize a |},
            w)
  end.

(** The result of [f.ReadAt] is dropped: the record is decoded from the
    buffer as the reads have left it. *)
Definition ReadValueFromFile (w : os.World) (fileId key : string)
    (valuePos valueSize : Z)
  : outcome ((string * option error) * os.World) :=
  let bufsz := uint32 (recfmt.DataFileRecHdr + uint32 (len key) + valueSize) in
  let buf := make bufsz in
  match os.Open w fileId with
  | inr err => Done ((""%string, Some err), w)
  | inl f =>
      '((buf, _), w) ← sio.ReadAt fuel w f buf valuePos;
      match recfmt.ExtractDataFileRec buf with
      | None => Panics
      | Some (inr err) => Done ((""%string, Some err), w)
      | Some (inl (data, _)) =>
          if decide (recfmt.Value data = TompStone)
          then Done ((""%string, Some (keyNotExist (recfmt.Key data))), w)
          else Done ((recfmt.Value data, None), w)
      end
  end.

End with_fuel.

Inductive LockMode := ExclusiveLock | SharedLock.

#[global] Instance LockMode_eq_dec : EqDecision LockMode.
Proof. solve_decision. Defined.

Definition lockFile : string := ".lck".

(** [flck] records whether the [Flock] of the store holds the lock. *)
Record DataStore := { path : string; lock : LockMode; flck : bool }.

Definition acquireFileLock (d : DataStore) (s : Disk)
  : (bool * option error) * DataStore * Disk :=
  let '((ok, err), s) :=
    match lock d with
    | ExclusiveLock => flock.TryLock s (path d) lockFile
    | SharedLock => flock.TryRLock s (path d) lockFile
    end in
  let d := {| path := path d; lock := lock d; flck := ok |} in
  match err with
  | Some e => ((false, Some e), d, s)
  | None => ((ok, None), d, s)
  end.

Definition createDataStoreDir (d : DataStore) (s : Disk)
  : option error * DataStore * Disk :=
  match MkdirAll s with
  | (Some err, s) => (Some err, d, s)
  | (None, s) =>
      let '((_, err), d, s) := acquireFileLock d s in
      match err with
      | Some e => (Some e, d, s)
      | None => (None, d, s)
      end
  end.

Definition openDataStoreDir (d : DataStore) (s : Disk)
  : (bool * option error) * DataStore * Disk :=
  let '((acquired, err), d, s) := acquireFileLock d s in
  match err with
  | Some e => ((false, Some e), d, s)
  | None => ((acquired, None), d, s)
  end.

(** [os.Open(dataStorePath)] fails in the model only when the directory is
    missing, with an error for which [os.IsNotExist] holds. *)
Definition NewDataStore (s : Disk) (dataStorePath : string) (lock : LockMode)
  : (DataStore + error) * Disk :=
  let d := {| path := dataStorePath; lock := lock; flck := false |} in
  if present s then
    let '((acquired, err), d, s) := openDataStoreDir d s in
    match err with
    | Some e => (inr e, s)
    | None => if acquired then (inl d, s) else (inr errAccessDenied, s)
    end
  else if decide (lock = ExclusiveLock) then
    let '(err, d, s) := createDataStoreDir d s in
    match err with
    | Some e => (inr e, s)
    | None => (inl d, s)
    end
  else (inr ("open " +:+ dataStorePath +:+ ": no such file or directory"), s).

Definition Path (d : DataStore) : string := path d.

(** [DataStore.Close]: [d.flck.Unlock()] *)
Definition Close (d : DataStore) (s : Disk) : Disk :=
  if flck d then flock.Unlock s else s.

End datastore.

(** ** Package strings *)

(** [strings.HasSuffix(s, suffix)] *)
Definition HasSuffix (s suffix : string) : bool :=
  let n := String.length s in
  let m := String.length suffix in
  bool_decide (m <= n)%nat && String.eqb (substring (n - m) m s) suffix.

Definition in_cutset (c : ascii) (cutset : string) : bool :=
  bool_decide (c ∈ list_ascii_of_string cutset).

Fixpoint TrimLeft (s cutset : string) : string :=
  match s with
  | EmptyString => EmptyString
  | String c s' => if in_cutset c cutset then TrimLeft s' cutset else s
  end.

Fixpoint TrimRight (s cutset : string) : string :=
  match s with
  | EmptyString => EmptyString
  | String c s' =>
      match TrimRight s' cutset with
      | EmptyString => if in_cutset c cutset then EmptyString else String c EmptyString
      | t => String c t
      end
  end.

(** [strings.Trim(s, cutset)] with a cutset of ASCII characters: [s]
    without the leading and trailing bytes that occur in [cutset]. *)
Definition Trim (s cutset : string) : string := TrimRight (TrimLeft s cutset) cutset.

(** ** Package keydir: building the index from the persisted keydir file
    or from the segments *)

Module keydir.

Definition keyDirFile : string := "keydir".

Section with_stat.
(** [os.Stat(path).ModTime()] for the datastore directory and for the
    keydir file, with the error of [os.Stat] when it fails. *)
Variable dirStat : Z + error.
Variable keydirStat : Z + error.

(** Returns [keydirStat.ModTime().Before(dataStoreStat.ModTime())]. *)
Definition isOld : bool * option error :=
  match dirStat with
  | inr err => (false, Some err)
  | inl dataStoreModTime =>
      match keydirStat with
      | inr err => (false, Some err)
      | inl keydirModTime => (bool_decide (keydirModTime < dataStoreModTime), None)
      end
  end.

(** The decoding loop of [keyDirFileBuild]:
[[
for i < n {
    key, rec, recLen := recfmt.ExtractKeyDirRec(data[i:])
    k[key] = rec
    i += recLen
}
]]
    Every round consumes at least the 26 bytes of a header, so a fuel
    of [len(data)] rounds is never used up. *)
Fixpoint decode_loop (fl : nat) (data : list byte) (i : Z)
    (k : gmap string recfmt.KeyDirRec)
  : outcome (gmap string recfmt.KeyDirRec) :=
  if decide (i < Z.of_nat (length data)) then
    match fl with
    | O => Hangs
    | S fl' =>
        match recfmt.ExtractKeyDirRec (drop (Z.to_nat i) data) with
        | None => Panics
        | Some (key, rec, recLen) =>
            decode_loop fl' data (i + recLen) (<[key := rec]> k)
        end
    end
  else Done k.

(** The map is filled in place; the result pairs it with the returned
    [(bool, error)]. *)
Definition keyDirFileBuild (k : gmap string recfmt.KeyDirRec) (w : os.World)
  : outcome (gmap string recfmt.KeyDirRec * (bool * option error)) :=
  match os.files w !! keyDirFile with
  | None => Done (k, (false, None))
  | Some data =>
      let '(okay, err) := isOld in
      if decide (err <> None \/ okay = false) then Done (k, (false, None))
      else
        k ← decode_loop (length data) data 0 k;
        Done (k, (true, None))
  end.

End with_stat.

Inductive fileType := data | hint.

Inductive KeyDirPrivacy := PrivateKeyDir | SharedKeyDir.

#[global] Instance KeyDirPrivacy_eq_dec : EqDecision KeyDirPrivacy.
Proof. solve_decision. Defined.

(** The first loop of [categorizeFiles]: every name with the suffix
    [.hint] is a hint file, and its name trimmed of the characters of
    [.hint] is noted in [hintFiles]. *)
Fixpoint categorize_hints (allFiles : list string)
    (hintFiles : gmap string Z) (res : gmap string fileType)
  : gmap string Z * gmap string fileType :=
  match allFiles with
  | [] => (hintFiles, res)
  | file :: allFiles' =>
      if HasSuffix file ".hint"
      then
        let fileWithoutExt := Trim file ".hint" in
        categorize_hints allFiles' (<[fileWithoutExt := 1]> hintFiles)
          (<[file := hint]> res)
      else categorize_hints allFiles' hintFiles res
  end.

(** The second loop: a name with the suffix [.data] is a data file unless
    its name trimmed of the characters of [.data] is noted in
    [hintFiles]. *)
Fixpoint categorize_data (allFiles : list string)
    (hintFiles : gmap string Z) (res : gmap string fileType)
  : gmap string fileType :=
  match allFiles with
  | [] => res
  | file :: allFiles' =>
      if HasSuffix file ".data"
      then
        match hintFiles !! Trim file ".data" with
        | None => categorize_data allFiles' hintFiles (<[file := data]> res)
        | Some _ => categorize_data allFiles' hintFiles res
        end
      else categorize_data allFiles' hintFiles res
  end.

Definition categorizeFiles (allFiles : list string) : gmap string fileType :=
  let '(hintFiles, res) := categorize_hints allFiles ∅ ∅ in
  categorize_data allFiles hintFiles res.

(** The loop of [parseDataFile]:
[[
for i < n {
    rec, recLen, err := recfmt.ExtractDataFileRec(data[i:])
    if err != nil { return err }
    old, isExist := k[rec.Key]
    if !isExist || old.Tstamp < rec.Tstamp {
        k[rec.Key] = recfmt.KeyDirRec{FileId: name, ValuePos: uint32(i), ...}
    }
    i += int(recLen)
}
]]
    The map is filled in place; the result pairs it with the error.  A
    slice bound the decoder exceeds is a panic. *)
Fixpoint parseDataFile_loop (fl : nat) (name : string) (data : list byte) (i : Z)
    (k : gmap string recfmt.KeyDirRec)
  : outcome (gmap string recfmt.KeyDirRec * option error) :=
  if decide (i < Z.of_nat (length data)) then
    match fl with
    | O => Hangs
    | S fl' =>
        match recfmt.ExtractDataFileRec (drop (Z.to_nat i) data) with
        | None => Panics
        | Some (inr err) => Done (k, Some err)
        | Some (inl (rec, recLen)) =>
            let entry := {| recfmt.FileId := name;
                            recfmt.ValuePos := uint32 i;
                            recfmt.RecValueSize := recfmt.ValueSize rec;
                            recfmt.RecTstamp := recfmt.Tstamp rec |} in
            let k :=
              match k !! recfmt.Key rec with
              | None => <[recfmt.Key rec := entry]> k
              | Some old =>
                  if decide (recfmt.RecTstamp old < recfmt.Tstamp rec)
                  then <[recfmt.Key rec := entry]> k
                  else k
              end in
            parseDataFile_loop fl' name data (i + recLen) k
        end
    end
  else Done (k, None).

(** A round that returns moves [i] forward, so [len(data)] rounds of fuel
    are never used up by a loop that ends. *)
Definition parseDataFile (k : gmap string recfmt.KeyDirRec) (w : os.World)
    (name : string)
  : outcome (gmap string recfmt.KeyDirRec * option error) :=
  match os.ReadFile w name with
  | inr err => Done (k, Some err)
  | inl content => parseDataFile_loop (length content) name content 0 k
  end.

(** The loop of [parseHintFile]:
[[
for i < n {
    key, rec, recLen := recfmt.ExtractHintFileRec(data[i:])
    rec.FileId = fmt.Sprintf("%s.data", strings.Trim(name, ".hint"))
    k[key] = rec
    i += recLen
}
]] *)
Fixpoint parseHintFile_loop (fl : nat) (name : string) (data : list byte) (i : Z)
    (k : gmap string recfmt.KeyDirRec)
  : outcome (gmap string recfmt.KeyDirRec * option error) :=
  if decide (i < Z.of_nat (length data)) then
    match fl with
    | O => Hangs
    | S fl' =>
        match recfmt.ExtractHintFileRec (drop (Z.to_nat i) data) with
        | None => Panics
        | Some (key, rec, recLen) =>
            let rec := {| recfmt.FileId := Trim name ".hint" +:+ ".data";
                          recfmt.ValuePos := recfmt.ValuePos rec;
                          recfmt.RecValueSize := recfmt.RecValueSize rec;
                          recfmt.RecTstamp := recfmt.RecTstamp rec |} in
            parseHintFile_loop fl' name data (i + recLen) (<[key := rec]> k)
        end
    end
  else Done (k, None).

Definition parseHintFile (k : gmap string recfmt.KeyDirRec) (w : os.World)
    (name : string)
  : outcome (gmap string recfmt.KeyDirRec * option error) :=
  match os.ReadFile w name with
  | inr err => Done (k, Some err)
  | inl content => parseHintFile_loop (length content) name content 0 k
  end.

(** The loop of [parseFiles] over the categorized names, in the order
    [range] visits them. *)
Fixpoint parseFiles_loop (k : gmap string recfmt.KeyDirRec) (w : os.World)
    (files : list (string * fileType))
  : outcome (gmap string recfmt.KeyDirRec * option error) :=
  match files with
  | [] => Done (k, None)
  | (name, ftype) :: files' =>
      '(k, err) ←
        match ftype with
        | data => parseDataFile k w name
        | hint => parseHintFile k w name
        end;
      match err with
      | Some e => Done (k, Some e)
      | None => parseFiles_loop k w files'
      end
  end.

(** The loop of [dataStoreFilesBuild] that keeps the names not starting
    with a dot; [file.Name()[0]] panics on an empty name. *)
Fixpoint visible_loop (names : list string) (fileNames : list string)
  : outcome (list string) :=
  match names with
  | [] => Done fileNames
  | name :: names' =>
      match name with
      | EmptyString => Panics
      | String c _ =>
          if decide (c <> "."%char)
          then visible_loop names' (fileNames ++ [name])
          else visible_loop names' fileNames
      end
  end.

Section build.
Variable fuel : nat.

(** The orders in which [range] visits the index and the categorized
    file names. *)
Variable range : gmap string recfmt.KeyDirRec -> list (string * recfmt.KeyDirRec).
Variable rangeFiles : gmap string fileType -> list (string * fileType).

Variable dirStat : Z + error.
Variable keydirStat : Z + error.

Definition parseFiles (k : gmap string recfmt.KeyDirRec) (w : os.World)
    (files : gmap string fileType)
  : outcome (gmap string recfmt.KeyDirRec * option error) :=
  parseFiles_loop k w (rangeFiles files).

Definition dataStoreFilesBuild (k : gmap string recfmt.KeyDirRec) (w : os.World)
  : outcome (gmap string recfmt.KeyDirRec * option error) :=
  fileNames ← visible_loop (os.Readdir w) [];
  parseFiles k w (categorizeFiles fileNames).

(** The loop of [share] over the entries of the index. *)
Fixpoint share_loop (entries : list (string * recfmt.KeyDirRec)) (file : os.File)
    (w : os.World) : outcome (option error * os.World) :=
  match entries with
  | [] => Done (None, w)
  | (key, rec) :: entries' =>
      let buf := recfmt.CompressKeyDirRec key rec in
      '((_, err), file, w) ← sio.Write fuel w file buf;
      match err with
      | Some e => Done (Some e, w)
      | None => share_loop entries' file w
      end
  end.

Definition share (k : gmap string recfmt.KeyDirRec) (w : os.World)
  : outcome (option error * os.World) :=
  let '(file, w) := os.OpenFile w "keydir" in
  share_loop (range k) file w.

(** [New] returns the map it has built, or the error; the error of
    [share] is dropped. *)
Definition New (w : os.World) (privacy : KeyDirPrivacy)
  : outcome ((gmap string recfmt.KeyDirRec + error) * os.World) :=
  let k : gmap string recfmt.KeyDirRec := ∅ in
  '(k, (okay, err)) ← keyDirFileBuild dirStat keydirStat k w;
  match err with
  | Some e => Done (inr e, w)
  | None =>
      if okay : bool then Done (inl k, w)
      else
        '(k, err) ← dataStoreFilesBuild k w;
        match err with
        | Some e => Done (inr e, w)
        | None =>
            if decide (privacy = SharedKeyDir)
            then '(_, w) ← share k w; Done (inl k, w)
            else Done (inl k, w)
        end
  end.

End build.

End keydir.

(** ** Package bitcask: the engine *)

Module bitcask.

Inductive ConfigOpt := ReadOnly | ReadWrite | SyncOnPut | SyncOnDemand.

#[global] Instance ConfigOpt_eq_dec : EqDecision ConfigOpt.
Proof. solve_decision. Defined.

Definition errRequireWrite : error := "require write permission"%string.

Record options := { syncOption : ConfigOpt; accessPermission : ConfigOpt }.

Fixpoint parseUsrOpts_loop (opts : list ConfigOpt) (usrOpts : options) : options :=
  match opts with
  | [] => usrOpts
  | opt :: opts' =>
      parseUsrOpts_loop opts'
        match opt with
        | SyncOnPut =>
            {| syncOption := SyncOnPut; accessPermission := accessPermission usrOpts |}
        | ReadWrite =>
            {| syncOption := syncOption usrOpts; accessPermission := ReadWrite |}
        | _ => usrOpts
        end
  end.

Definition parseUsrOpts (opts : list ConfigOpt) : options :=
  parseUsrOpts_loop opts {| syncOption := SyncOnDemand; accessPermission := ReadOnly |}.

(** The engine handle.  The directory and its lock live in the world; a
    handle opened read-only never reaches its [activeFile]. *)
Record Bitcask := {
  keyDir : gmap string recfmt.KeyDirRec;
  usrOpts : options;
  activeFile : datastore.AppendFile
}.

Definition set_keyDir (k : gmap string recfmt.KeyDirRec) (b : Bitcask) : Bitcask :=
  {| keyDir := k; usrOpts := usrOpts b; activeFile := activeFile b |}.

Definition set_activeFile (a : datastore.AppendFile) (b : Bitcask) : Bitcask :=
  {| keyDir := keyDir b; usrOpts := usrOpts b; activeFile := a |}.

Section engine.
Variable fuel : nat.

(** The order in which one [range] loop visits a map: some enumeration of
    its entries.  Go chooses the order anew for every loop, so each
    function below takes the order of its loop as this argument, and a
    statement about two loops gives each of them an order of its own. *)
Variable range : gmap string recfmt.KeyDirRec -> list (string * recfmt.KeyDirRec).

Definition Get (b : Bitcask) (w : os.World) (key : string)
  : outcome ((string * option error) * os.World) :=
  match keyDir b !! key with
  | None => Done ((""%string, Some (datastore.keyNotExist key)), w)
  | Some rec =>
      datastore.ReadValueFromFile fuel w (recfmt.FileId rec) key
        (recfmt.ValuePos rec) (recfmt.RecValueSize rec)
  end.

Definition Put (b : Bitcask) (w : os.World) (key value : string)
  : outcome (option error * Bitcask * os.World) :=
  if decide (accessPermission (usrOpts b) = ReadOnly)
  then Done (Some ("Put: " +:+ errRequireWrite), b, w)
  else
    let '(tstamp, w) := os.UnixMicro w in
    '((n, err), a, w) ← datastore.WriteData fuel (activeFile b) w key value tstamp;
    let b := set_activeFile a b in
    match err with
    | Some e => Done (Some e, b, w)
    | None =>
        Done (None,
              set_keyDir
                (<[key := {| recfmt.FileId := datastore.Name a;
                             recfmt.ValuePos := uint32 n;
                             recfmt.RecValueSize := uint32 (len value);
                             recfmt.RecTstamp := tstamp |}]> (keyDir b)) b,
              w)
    end.

Definition Delete (b : Bitcask) (w : os.World) (key : string)
  : outcome (option error * Bitcask * os.World) :=
  if decide (accessPermission (usrOpts b) = ReadOnly)
  then Done (Some ("Delete: " +:+ errRequireWrite), b, w)
  else
    '((_, err), w) ← Get b w key;
    match err with
    | Some e => Done (Some e, b, w)
    | None =>
        '(_, b, w) ← Put b w key datastore.TompStone;
        Done (None, b, w)
    end.

Definition ListKeys (b : Bitcask) : list string := (range (keyDir b)).*1.

(** The loop of [Fold] over the keys of the index; the error of [Get] is
    dropped and [fn] gets the empty string for a key that is not found. *)
Fixpoint Fold_loop {A : Type} (fn : string -> string -> A -> A) (b : Bitcask)
    (keys : list string) (acc : A) (w : os.World) : outcome (A * os.World) :=
  match keys with
  | [] => Done (acc, w)
  | key :: keys' =>
      '((value, _), w) ← Get b w key;
      Fold_loop fn b keys' (fn key value acc) w
  end.

Definition Fold {A : Type} (fn : string -> string -> A -> A) (b : Bitcask)
    (w : os.World) (acc : A) : outcome (A * os.World) :=
  Fold_loop fn b (range (keyDir b)).*1 acc w.

(** [fileName[0]] panics on an empty name. *)
Fixpoint listOldFiles_loop (b : Bitcask) (names : list string) (res : list string)
  : outcome (list string) :=
  match names with
  | [] => Done res
  | fileName :: names' =>
      match fileName with
      | EmptyString => Panics
      | String c _ =>
          if decide (c <> "."%char /\ fileName <> datastore.Name (activeFile b)
                     /\ fileName <> "keydir"%string)
          then listOldFiles_loop b names' (res ++ [fileName])
          else listOldFiles_loop b names' res
      end
  end.

Definition listOldFiles (b : Bitcask) (w : os.World) : outcome (list string) :=
  listOldFiles_loop b (os.Readdir w) [].

Fixpoint deleteOldFiles (fs : list string) (w : os.World) : option error * os.World :=
  match fs with
  | [] => (None, w)
  | file :: fs' =>
      match os.Remove w file with
      | (Some err, w) => (Some err, w)
      | (None, w) => deleteOldFiles fs' w
      end
  end.

Definition mergeWrite (b : Bitcask) (mergeFile : datastore.AppendFile)
    (w : os.World) (key : string)
  : outcome ((recfmt.KeyDirRec * option error) * datastore.AppendFile * os.World) :=
  let zero := {| recfmt.FileId := ""; recfmt.ValuePos := 0;
                 recfmt.RecValueSize := 0; recfmt.RecTstamp := 0 |} in
  let rec := default zero (keyDir b !! key) in
  '((value, err), w) ←
    datastore.ReadValueFromFile fuel w (recfmt.FileId rec) key
      (recfmt.ValuePos rec) (recfmt.RecValueSize rec);
  match err with
  | Some e => Done ((zero, Some e), mergeFile, w)
  | None =>
      let '(tstamp, w) := os.UnixMicro w in
      '((n, err), mergeFile, w) ← datastore.WriteData fuel mergeFile w key value tstamp;
      match err with
      | Some e => Done ((zero, Some e), mergeFile, w)
      | None =>
          let newRec := {| recfmt.FileId := datastore.Name mergeFile;
                           recfmt.ValuePos := uint32 n;
                           recfmt.RecValueSize := uint32 (len value);
                           recfmt.RecTstamp := tstamp |} in
          '(err, mergeFile, w) ← datastore.WriteHint fuel mergeFile w key newRec;
          match err with
          | Some e => Done ((zero, Some e), mergeFile, w)
          | None => Done ((newRec, None), mergeFile, w)
          end
      end
  end.

(** The loop of [Merge] over the entries of the index, in the order
    [range] gives.  The error is the one [Merge] returns from inside
    the loop. *)
Fixpoint Merge_loop (b : Bitcask) (entries : list (string * recfmt.KeyDirRec))
    (newKeyDir : gmap string recfmt.KeyDirRec) (mergeFile : datastore.AppendFile)
    (w : os.World)
  : outcome (option error * gmap string recfmt.KeyDirRec * datastore.AppendFile * os.World) :=
  match entries with
  | [] => Done (None, newKeyDir, mergeFile, w)
  | (key, rec) :: entries' =>
      if decide (recfmt.FileId rec <> datastore.Name (activeFile b)) then
        '((newRec, err), mergeFile, w) ← mergeWrite b mergeFile w key;
        match err with
        | Some e =>
            if negb (HasSuffix e datastore.ErrKeyNotExist)
            then Done (Some e, newKeyDir, mergeFile, w)
            else Merge_loop b entries' newKeyDir mergeFile w
        | None => Merge_loop b entries' (<[key := newRec]> newKeyDir) mergeFile w
        end
      else Merge_loop b entries' (<[key := rec]> newKeyDir) mergeFile w
  end.

Definition Merge (b : Bitcask) (w : os.World)
  : outcome (option error * Bitcask * os.World) :=
  if decide (accessPermission (usrOpts b) = ReadOnly)
  then Done (Some ("Merge: " +:+ errRequireWrite), b, w)
  else
    oldFiles ← listOldFiles b w;
    let mergeFile := datastore.NewAppendFile datastore.Merge in
    '(err, newKeyDir, _, w) ← Merge_loop b (range (keyDir b)) ∅ mergeFile w;
    match err with
    | Some e => Done (Some e, b, w)
    | None =>
        let b := set_keyDir newKeyDir b in
        let '(_, w) := deleteOldFiles oldFiles w in
        Done (None, b, w)
    end.

(** [File.Sync] does not fail in the model. *)
Definition Sync (b : Bitcask) (w : os.World)
  : outcome (option error * Bitcask * os.World) :=
  if decide (accessPermission (usrOpts b) = ReadOnly)
  then Done (Some ("Sync: " +:+ errRequireWrite), b, w)
  else Done (None, b, w).

End engine.

Section opening.
Variable fuel : nat.
Variable range : gmap string recfmt.KeyDirRec -> list (string * recfmt.KeyDirRec).
Variable rangeFiles : gmap string keydir.fileType -> list (string * keydir.fileType).
Variable dirStat : Z + error.
Variable keydirStat : Z + error.

(** [Open] returns the handle, here with the [dataStore] it refers to, or
    the error.  The writer of a read-write handle has no segment open. *)
Definition Open (s : Disk) (dataStorePath : string) (opts : list ConfigOpt)
  : outcome ((Bitcask * datastore.DataStore + error) * Disk) :=
  let usrOpts := parseUsrOpts opts in
  let '(privacy, lockMode) :=
    if decide (accessPermission usrOpts = ReadWrite)
    then (keydir.PrivateKeyDir, datastore.ExclusiveLock)
    else (keydir.SharedKeyDir, datastore.SharedLock) in
  let activeFile := datastore.NewAppendFile datastore.Active in
  match datastore.NewDataStore s dataStorePath lockMode with
  | (inr err, s) => Done (inr err, s)
  | (inl dataStore, s) =>
      '(keyDir, w) ← keydir.New fuel range rangeFiles dirStat keydirStat (dir s) privacy;
      let s := set_dir w s in
      match keyDir with
      | inr err => Done (inr err, s)
      | inl keyDir =>
          Done (inl ({| keyDir := keyDir; usrOpts := usrOpts;
                        activeFile := activeFile |}, dataStore), s)
      end
  end.

(** [Close]: syncing and closing the files leave the directory as it is;
    the lock of the store is given back. *)
Definition Close (b : Bitcask) (d : datastore.DataStore) (s : Disk) : outcome Disk :=
  s ← (if decide (accessPermission (usrOpts b) = ReadWrite)
       then '(_, _, w) ← Sync b (dir s); Done (set_dir w s)
       else Done s);
  Done (datastore.Close d s).

End opening.

End bitcask.

(** ** Package respserver: the command handlers

    The handlers of [StartServer] on the handle it has opened read-write.
    A handler gets the words of the command, the name of the command
    first, and writes its replies to the connection. *)

Module respserver.

Inductive reply :=
| WriteError (msg : string)
| WriteSimpleString (s : string)
| WriteString (s : string)
| WriteNull.

Section handlers.
Variable fuel : nat.

Definition set (b : bitcask.Bitcask) (w : os.World) (args : list string)
  : outcome (list reply * bitcask.Bitcask * os.World) :=
  match args with
  | [_; key; value] =>
      '(err, b, w) ← bitcask.Put fuel b w key value;
      let errs :=
        match err with
        | Some _ => [WriteError "ERR cannot set key to value in this store"]
        | None => []
        end in
      Done (errs ++ [WriteSimpleString "OK"], b, w)
  | _ => Done ([WriteError "ERR wrong number of arguments for 'set' command"], b, w)
  end.

Definition get (b : bitcask.Bitcask) (w : os.World) (args : list string)
  : outcome (list reply * bitcask.Bitcask * os.World) :=
  match args with
  | [_; key] =>
      '((s, err), w) ← bitcask.Get fuel b w key;
      match err with
      | Some _ => Done ([WriteNull], b, w)
      | None => Done ([WriteString s], b, w)
      end
  | _ => Done ([WriteError "ERR wrong number of arguments for 'get' command"], b, w)
  end.

Definition delete (b : bitcask.Bitcask) (w : os.World) (args : list string)
  : outcome (list reply * bitcask.Bitcask * os.World) :=
  match args with
  | [_; key] =>
      '(err, b, w) ← bitcask.Delete fuel b w key;
      match err with
      | Some _ => Done ([WriteError "ERR cannot delete this item"], b, w)
      | None => Done ([WriteSimpleString "OK"], b, w)
      end
  | _ => Done ([WriteError "ERR wrong number of arguments for 'get' command"], b, w)
  end.

End handlers.

End respserver.

(** ** Runs of operations and the conditions the properties are stated under *)

(** The operating system meets no fault. *)
Definition no_faults (w : os.World) : Prop :=
  os.rfaults w = [] /\ os.wfaults w = [].

(** Successive clock readings differ: the clock moves on between them. *)
Definition clock_increasing (w : os.World) : Prop :=
  forall i j : nat, (i < j)%nat -> os.clock w i < os.clock w j.

(** No file of the directory carries an identifier the clock has yet to
    give out. *)
Definition fresh (w : os.World) : Prop :=
  forall j : nat, (os.ticks w <= j)%nat ->
    os.files w !! datastore.dataName (os.clock w j) = None /\
    os.files w !! datastore.hintName (os.clock w j) = None.

(** A sequence of [WriteData] calls on one segment writer. *)
Fixpoint WriteData_all (fuel : nat) (a : datastore.AppendFile) (w : os.World)
    (recs : list (string * string * Z))
  : outcome (datastore.AppendFile * os.World) :=
  match recs with
  | [] => Done (a, w)
  | (key, value, tstamp) :: recs' =>
      '(_, a, w) ← datastore.WriteData fuel a w key value tstamp;
      WriteData_all fuel a w recs'
  end.

(** The writer's accounting agrees with its open segment: the descriptor
    stands at the end of the file, and position and size are its length.
    A merge writer with an open segment has its hint file open. *)
Definition writer_ok (a : datastore.AppendFile) (w : os.World) : Prop :=
  datastore.currentPos a = datastore.currentSize a /\
  match datastore.fileWrapper a with
  | None => datastore.fileName a = ""%string /\ datastore.currentSize a = 0
  | Some f =>
      os.name f = datastore.fileName a /\
      (exists t, datastore.fileName a = datastore.dataName t) /\
      (exists content,
          os.files w !! datastore.fileName a = Some content /\
          os.offset f = length content /\
          datastore.currentSize a = Z.of_nat (length content)) /\
      (datastore.appendType a = datastore.Merge ->
       exists h t, datastore.hintWrapper a = Some h /\ os.name h = datastore.hintName t /\
                  is_Some (os.files w !! os.name h))
  end.

(** Key and value fit the header fields of a data record with room for the
    header: the sizes for which the decoder's sums do not wrap. *)
Definition sized (key value : string) : Prop :=
  18 + len key < 2 ^ 16 /\ 18 + len key + len value < 2 ^ 32.

(** The index entry [rec] of [key] points at a record of [key] holding
    [value] in a segment of the directory. *)
Definition located (w : os.World) (key : string) (rec : recfmt.KeyDirRec)
    (value : string) : Prop :=
  sized key value /\
  (exists t, recfmt.FileId rec = datastore.dataName t) /\
  0 <= recfmt.ValuePos rec /\
  recfmt.RecValueSize rec = len value /\
  exists content tstamp,
    os.files w !! recfmt.FileId rec = Some content /\
    take (Z.to_nat (18 + len key + len value))
         (drop (Z.to_nat (recfmt.ValuePos rec)) content)
    = recfmt.CompressDataFileRec key value tstamp.

(** A consistent read-write engine: every index entry points at a record
    of its key, the active writer agrees with its segment, and the
    directory holds no nameless file and no file of a future identifier. *)
Record consistent (b : bitcask.Bitcask) (w : os.World) : Prop := {
  cons_rw : bitcask.accessPermission (bitcask.usrOpts b) = bitcask.ReadWrite;
  cons_active : datastore.appendType (bitcask.activeFile b) = datastore.Active;
  cons_writer : writer_ok (bitcask.activeFile b) w;
  cons_index : forall key rec, bitcask.keyDir b !! key = Some rec ->
                 exists value, located w key rec value;
  cons_names : os.files w !! ""%string = None;
  cons_fresh : fresh w;
  cons_clock : clock_increasing w;
  cons_faults : no_faults w
}.

(** The operations of a run.  A run keeps the handle and the directory
    and drops what the operations return; [OpFold] stands for a [Fold]
    with any function that leaves the engine alone. *)
Inductive op :=
| OpPut (key value : string)
| OpDelete (key : string)
| OpGet (key : string)
| OpMerge
| OpSync
| OpListKeys
| OpFold.

Section runs.
Variable fuel : nat.
Variable range : gmap string recfmt.KeyDirRec -> list (string * recfmt.KeyDirRec).

Definition exec (o : op) (b : bitcask.Bitcask) (w : os.World)
  : outcome (bitcask.Bitcask * os.World) :=
  match o with
  | OpPut key value => '(_, b, w) ← bitcask.Put fuel b w key value; Done (b, w)
  | OpDelete key => '(_, b, w) ← bitcask.Delete fuel b w key; Done (b, w)
  | OpGet key => '(_, w) ← bitcask.Get fuel b w key; Done (b, w)
  | OpMerge => '(_, b, w) ← bitcask.Merge fuel range b w; Done (b, w)
  | OpSync => '(_, b, w) ← bitcask.Sync b w; Done (b, w)
  | OpListKeys => let _ := bitcask.ListKeys range b in Done (b, w)
  | OpFold =>
      '(_, w) ← bitcask.Fold fuel range (fun _ _ (acc : unit) => acc) b w tt;
      Done (b, w)
  end.

Fixpoint run (ops : list op) (b : bitcask.Bitcask) (w : os.World)
  : outcome (bitcask.Bitcask * os.World) :=
  match ops with
  | [] => Done (b, w)
  | o :: ops' => '(b, w) ← exec o b w; run ops' b w
  end.
End runs.

(** The operations that write [key]. *)
Definition writes (key : string) (o : op) : Prop :=
  match o with
  | OpPut k _ => k = key
  | OpDelete k => k = key
  | _ => False
  end.

Definition puts (key : string) (o : op) : Prop :=
  match o with
  | OpPut k _ => k = key
  | _ => False
  end.

(** What the operation puts fits the record format. *)
Definition op_sized (o : op) : Prop :=
  match o with
  | OpPut k v => sized k v
  | _ => True
  end.

(** [range] visits every entry of the map once. *)
Definition range_ok
    (range : gmap string recfmt.KeyDirRec -> list (string * recfmt.KeyDirRec)) : Prop :=
  forall m, range m ≡ₚ map_to_list m.

(** ** Notions the properties and their proofs are stated with *)

Definition data_body (key value : string) (tstamp : Z) : list byte :=
  le_bytes 8 (uint64 tstamp) ++ le_bytes 2 (uint16 (len key)) ++
  le_bytes 4 (uint32 (len value)) ++ bytes_of key ++ bytes_of value.

Definition long_key : string := string_of (replicate (Z.to_nat 65518) "a"%byte).

Definition entry_in_segment : recfmt.KeyDirRec :=
  {| recfmt.FileId := "1700000000000000.data"; recfmt.ValuePos := 7;
     recfmt.RecValueSize := 3; recfmt.RecTstamp := 1700000000000001 |}.

Definition short_file : os.World :=
  {| os.files := {[ "1.data"%string := [x01; x02; x03] ]};
     os.clock := fun n => Z.of_nat n; os.ticks := 0;
     os.rfaults := []; os.wfaults := [] |}.

(** What a successful [WriteData] does to the writer and to the directory:
    it appends the record to the open segment, or mints a segment (and, for
    a merge writer, its hint file) that starts with the record. *)
Inductive write_effect (a : datastore.AppendFile) (w : os.World) (rec : list byte)
  : Z -> datastore.AppendFile -> os.World -> Prop :=
| appended f content :
    datastore.fileWrapper a = Some f ->
    os.files w !! datastore.fileName a = Some content ->
    Z.of_nat (length rec) + datastore.currentSize a <= datastore.maxFileSize ->
    write_effect a w rec (datastore.currentPos a)
      {| datastore.fileWrapper :=
           Some {| os.name := os.name f; os.offset := os.offset f + length rec |};
         datastore.hintWrapper := datastore.hintWrapper a;
         datastore.fileName := datastore.fileName a;
         datastore.appendType := datastore.appendType a;
         datastore.currentPos := datastore.currentPos a + Z.of_nat (length rec);
         datastore.currentSize := datastore.currentSize a + Z.of_nat (length rec) |}
      (os.set_files (<[datastore.fileName a := content ++ rec]> (os.files w)) w)
| minted :
    datastore.fileWrapper a = None \/
    Z.of_nat (length rec) + datastore.currentSize a > datastore.maxFileSize ->
    let t0 := os.clock w (os.ticks w) in
    write_effect a w rec 0
      {| datastore.fileWrapper :=
           Some {| os.name := datastore.dataName t0; os.offset := length rec |};
         datastore.hintWrapper :=
           match datastore.appendType a with
           | datastore.Merge => Some {| os.name := datastore.hintName t0; os.offset := 0 |}
           | datastore.Active => datastore.hintWrapper a
           end;
         datastore.fileName := datastore.dataName t0;
         datastore.appendType := datastore.appendType a;
         datastore.currentPos := Z.of_nat (length rec);
         datastore.currentSize := Z.of_nat (length rec) |}
      {| os.files :=
           <[datastore.dataName t0 := rec]>
             match datastore.appendType a with
             | datastore.Merge => <[datastore.hintName t0 := []]> (os.files w)
             | datastore.Active => os.files w
             end;
         os.clock := os.clock w; os.ticks := S (os.ticks w);
         os.rfaults := os.rfaults w; os.wfaults := os.wfaults w |}.

(** Files only grow at their end, and no file goes away. *)
Definition extends (w w' : os.World) : Prop :=
  forall nm c, os.files w !! nm = Some c -> exists extra, os.files w' !! nm = Some (c ++ extra).

(** A segment within the bound, or a single record beyond it. *)
Definition bounded (c : list byte) : Prop :=
  Z.of_nat (length c) <= datastore.maxFileSize \/
  exists key value tstamp,
    c = recfmt.CompressDataFileRec key value tstamp /\
    datastore.maxFileSize < Z.of_nat (length c).

(** A directory that holds only its lock file, with a clock that starts
    at some instant and advances by a microsecond at each reading. *)
Definition new_dir : os.World :=
  {| os.files := {[ ".lck"%string := [] ]};
     os.clock := fun n => Z.of_nat n + 1700000000000000;
     os.ticks := 0; os.rfaults := []; os.wfaults := [] |}.

(** A directory with one segment and the keydir file a reader has shared:
    one entry, for the key ["k"]. *)
Definition shared_dir : os.World :=
  {| os.files := {[ "keydir"%string := recfmt.CompressKeyDirRec "k" entry_in_segment;
                    "1700000000000000.data"%string := [] ]};
     os.clock := fun n => Z.of_nat n + 1700000000000001;
     os.ticks := 0; os.rfaults := []; os.wfaults := [] |}.

(** The handle [Open] returns for the given options on a directory without
    segments: an empty index and a writer with no segment open. *)
Definition opened (opts : list bitcask.ConfigOpt) : bitcask.Bitcask :=
  {| bitcask.keyDir := ∅;
     bitcask.usrOpts := bitcask.parseUsrOpts opts;
     bitcask.activeFile := datastore.NewAppendFile datastore.Active |}.

(** The engine after [Put("k", "v")] on a new directory. *)
Definition live_state : bitcask.Bitcask * os.World :=
  match bitcask.Put 6 (opened [bitcask.ReadWrite]) new_dir "k" "v" with
  | Done (_, b, w) => (b, w)
  | _ => (opened [bitcask.ReadWrite], new_dir)
  end.

(** The same directory on a disk whose next six writes fail. *)
Definition failing_disk : os.World :=
  os.set_wfaults
    (replicate 6 {| os.fault_count := 0; os.fault_err := "no space left on device" |})
    live_state.2.

(** What [ReadValueFromFile] returns for a record holding [value]. *)
Definition read_result (key value : string) : string * option error :=
  if decide (value = datastore.TompStone)
  then (""%string, Some (datastore.keyNotExist key))
  else (value, None).

(** The data segments of [w] are in [w'], possibly grown. *)
Definition grows (w w' : os.World) : Prop :=
  forall t c, os.files w !! datastore.dataName t = Some c ->
    exists extra, os.files w' !! datastore.dataName t = Some (c ++ extra).

(** The files of [w] are in [w'] as they are. *)
Definition preserves (w w' : os.World) : Prop :=
  forall nm c, os.files w !! nm = Some c -> os.files w' !! nm = Some c.

(** The state of the merge loop: the merge writer [m] and the directory
    [w'] it has reached from the directory [w] the merge started on. *)
Record merging (w : os.World) (m : datastore.AppendFile) (w' : os.World) : Prop := {
  mg_writer : writer_ok m w';
  mg_type : datastore.appendType m = datastore.Merge;
  mg_fresh : fresh w';
  mg_clock : clock_increasing w';
  mg_faults : no_faults w';
  mg_names : os.files w' !! ""%string = None;
  mg_preserves : preserves w w';
  mg_file_new : datastore.fileWrapper m <> None ->
                os.files w !! datastore.fileName m = None;
  mg_hint_new : forall h, datastore.hintWrapper m = Some h ->
                os.files w !! os.name h = None
}.

(** What the merge has made of the entry [rec0] of [key]: [nk] is the new
    index, [w] the directory at the start and [w'] the directory now. *)
Definition merged (b : bitcask.Bitcask) (w : os.World)
    (nk : gmap string recfmt.KeyDirRec) (w' : os.World)
    (key : string) (rec0 : recfmt.KeyDirRec) : Prop :=
  if decide (recfmt.FileId rec0 = datastore.Name (bitcask.activeFile b))
  then nk !! key = Some rec0
  else exists v, located w key rec0 v /\
    if decide (v = datastore.TompStone) then nk !! key = None
    else exists rec', nk !! key = Some rec' /\ located w' key rec' v /\
                      os.files w !! recfmt.FileId rec' = None.

(** The engine after [Put("old", "1")] on a new directory, reopened: the
    index has the entry, and the writer has no segment open yet. *)
Definition reopened_state : bitcask.Bitcask * os.World :=
  match bitcask.Put 6 (opened [bitcask.ReadWrite]) new_dir "old" "1" with
  | Done (_, b, w) =>
      (bitcask.set_activeFile (datastore.NewAppendFile datastore.Active) b, w)
  | _ => (opened [bitcask.ReadWrite], new_dir)
  end.

(** The engine after [Put("k", "v")] and [Delete("k")] on a new directory:
    the tombstone of ["k"] is in the active segment. *)
Definition deleted_state : bitcask.Bitcask * os.World :=
  match run 6 map_to_list [OpPut "k" "v"; OpDelete "k"]
          (opened [bitcask.ReadWrite]) new_dir with
  | Done s => s
  | _ => (opened [bitcask.ReadWrite], new_dir)
  end.

Definition deleted_entry : recfmt.KeyDirRec :=
  {| recfmt.FileId := "1700000000000001.data"; recfmt.ValuePos := 20;
     recfmt.RecValueSize := 64; recfmt.RecTstamp := 1700000000000002 |}.

(** The answer of [Get] for a key that is not there. *)
Definition not_found (key : string) : string * option error :=
  (""%string, Some (datastore.keyNotExist key)).

(** What a call returns, without the directory. *)
Definition answer {A : Type} (o : outcome (A * os.World)) : option A :=
  match o with
  | Done (a, _) => Some a
  | _ => None
  end.

(** A value of [n] bytes. *)
Definition filler (n : Z) : string := string_of (replicate (Z.to_nat n) "x"%byte).

(** Three values of 5000 bytes: the first two fill a segment, the third
    opens the next one; then the first key is deleted. *)
Definition two_segments : bitcask.Bitcask * os.World :=
  match run 6 map_to_list
          [OpPut "a" (filler 5000); OpPut "b" (filler 5000); OpPut "c" (filler 5000);
           OpDelete "a"]
          (opened [bitcask.ReadWrite]) new_dir with
  | Done s => s
  | _ => (opened [bitcask.ReadWrite], new_dir)
  end.

Definition two_segments_merged : bitcask.Bitcask * os.World :=
  match bitcask.Merge 6 map_to_list two_segments.1 two_segments.2 with
  | Done (_, b, w) => (b, w)
  | _ => two_segments
  end.

(** The descriptor [f] and the directory [w] once [data] has gone to the
    file at the offset of the descriptor, with the faults [fs] still to
    come. *)
Definition transferred (w : os.World) (f : os.File) (data : list byte)
    (fs : list os.fault) : os.File * os.World :=
  ({| os.name := os.name f; os.offset := os.offset f + length data |},
   {| os.files :=
        <[os.name f := os.pwrite (os.contents w (os.name f)) (os.offset f) data]>
          (os.files w);
      os.clock := os.clock w; os.ticks := os.ticks w;
      os.rfaults := os.rfaults w; os.wfaults := fs |}).

(** A disk that lets three writes in a row fall short, by two bytes, by
    none and by one. *)
Definition flaky_disk : os.World :=
  {| os.files := {[ "1.data"%string := [x0a; x0b] ]};
     os.clock := fun n => Z.of_nat n; os.ticks := 0; os.rfaults := [];
     os.wfaults := [ {| os.fault_count := 2; os.fault_err := "short write" |};
                     {| os.fault_count := 0; os.fault_err := "short write" |};
                     {| os.fault_count := 1; os.fault_err := "short write" |} ] |}.

(** The names [listOldFiles] collects next to the active segment [active]:
    neither hidden, nor the active segment, nor the keydir file. *)
Definition old_file (active : string) (nm : string) : bool :=
  match nm with
  | EmptyString => false
  | String c _ => bool_decide (c <> "."%char /\ nm <> active /\ nm <> "keydir"%string)
  end.

(** The value [Fold] hands to its function for [key]: what [Get] returns,
    with the error dropped. *)
Definition value_at (fuel : nat) (b : bitcask.Bitcask) (w : os.World) (key : string)
  : string :=
  match bitcask.Get fuel b w key with
  | Done ((value, _), _) => value
  | _ => ""%string
  end.

Definition is_merge (o : op) : Prop :=
  match o with
  | OpMerge => True
  | _ => False
  end.

(** The handle and the directory a call has left. *)
Definition state_after (o : outcome (option error * bitcask.Bitcask * os.World))
  : bitcask.Bitcask * os.World :=
  match o with
  | Done (_, b, w) => (b, w)
  | _ => (opened [], new_dir)
  end.

(** The characters of the numerals [%d] prints. *)
Definition numeral_char (c : ascii) : Prop :=
  c ∈ list_ascii_of_string "-0123456789".

Definition numeral (s : string) : Prop :=
  Forall numeral_char (list_ascii_of_string s).

(** A name the engine gives to a segment or to a hint file, or a name
    with neither suffix. *)
Definition engine_name (nm : string) : Prop :=
  (exists t, nm = datastore.dataName t) \/ (exists t, nm = datastore.hintName t) \/
  (HasSuffix nm ".data" = false /\ HasSuffix nm ".hint" = false).

(** ** Segments as sequences of records *)

(** The bytes of a segment that holds the records [recs], and of a hint
    file that holds the entries [entries], in order. *)
Fixpoint segment_bytes (recs : list (string * string * Z)) : list byte :=
  match recs with
  | [] => []
  | (key, value, tstamp) :: recs' =>
      recfmt.CompressDataFileRec key value tstamp ++ segment_bytes recs'
  end.

Fixpoint hint_bytes (entries : list (string * recfmt.KeyDirRec)) : list byte :=
  match entries with
  | [] => []
  | (key, rec) :: entries' => recfmt.CompressHintFileRec key rec ++ hint_bytes entries'
  end.

(** The index entries of the records [recs] of the segment [nm], the first
    of them at offset [pos]. *)
Fixpoint entries_from (nm : string) (pos : Z) (recs : list (string * string * Z))
  : list (string * recfmt.KeyDirRec) :=
  match recs with
  | [] => []
  | (key, value, tstamp) :: recs' =>
      (key, {| recfmt.FileId := nm; recfmt.ValuePos := uint32 pos;
               recfmt.RecValueSize := len value; recfmt.RecTstamp := tstamp |})
      :: entries_from nm (pos + (18 + len key + len value)) recs'
  end.

(** The index after the entry [e] is met: it replaces an entry of its key
    that has an earlier timestamp. *)
Definition keep_latest (k : gmap string recfmt.KeyDirRec)
    (e : string * recfmt.KeyDirRec) : gmap string recfmt.KeyDirRec :=
  match k !! e.1 with
  | None => <[e.1 := e.2]> k
  | Some old =>
      if decide (recfmt.RecTstamp old < recfmt.RecTstamp e.2)
      then <[e.1 := e.2]> k else k
  end.

(** The index after the hint [e] of the hint file of segment [nm] is met. *)
Definition take_hint (nm : string) (k : gmap string recfmt.KeyDirRec)
    (e : string * recfmt.KeyDirRec) : gmap string recfmt.KeyDirRec :=
  <[e.1 := {| recfmt.FileId := nm;
              recfmt.ValuePos := recfmt.ValuePos e.2;
              recfmt.RecValueSize := recfmt.RecValueSize e.2;
              recfmt.RecTstamp := recfmt.RecTstamp e.2 |}]> k.

(** A record, and a hint, whose fields fit the formats. *)
Definition rec_ok (r : string * string * Z) : Prop :=
  sized r.1.1 r.1.2 /\ - 2 ^ 63 <= r.2 < 2 ^ 63.

Definition hint_ok (e : string * recfmt.KeyDirRec) : Prop :=
  18 + len e.1 < 2 ^ 16 /\
  0 <= recfmt.ValuePos e.2 < 2 ^ 32 /\
  0 <= recfmt.RecValueSize e.2 < 2 ^ 32 /\
  - 2 ^ 63 <= recfmt.RecTstamp e.2 < 2 ^ 63.

(** The first [n] readings of the clock are [int64] values. *)
Definition clock_int64 (w : os.World) (n : nat) : Prop :=
  forall i, (i < n)%nat -> - 2 ^ 63 <= os.clock w i < 2 ^ 63.

(** A hidden name, or a name with neither suffix. *)
Definition hidden_or_plain (nm : string) : Prop :=
  (exists s, nm = String "."%char s) \/
  (HasSuffix nm ".data" = false /\ HasSuffix nm ".hint" = false).

(** [e] is the index entry of a record of [key] in one of the segments. *)
Definition index_entry (segs : gmap string (list (string * string * Z)))
    (key : string) (e : recfmt.KeyDirRec) : Prop :=
  exists nm recs, segs !! nm = Some recs /\ (key, e) ∈ entries_from nm 0 recs.

(** [o] is the entry of the latest record of [key], or nothing when the
    segments have no record of [key]. *)
Definition latest (segs : gmap string (list (string * string * Z)))
    (key : string) (o : option recfmt.KeyDirRec) : Prop :=
  match o with
  | None => forall e, ~ index_entry segs key e
  | Some e =>
      index_entry segs key e /\
      forall e', index_entry segs key e' -> recfmt.RecTstamp e' <= recfmt.RecTstamp e
  end.

(** The directory is the journal of the handle: its segments hold the
    records [segs], written at distinct readings of the clock, and the
    index binds every key to its latest record. *)
Record journal (b : bitcask.Bitcask) (w : os.World)
    (segs : gmap string (list (string * string * Z))) : Prop := {
  jn_files : forall nm, is_Some (os.files w !! nm) ->
               is_Some (segs !! nm) \/ hidden_or_plain nm;
  jn_segs : forall nm recs, segs !! nm = Some recs ->
              (exists t, nm = datastore.dataName t) /\
              os.files w !! nm = Some (segment_bytes recs);
  jn_recs : forall nm recs key value t, segs !! nm = Some recs ->
              (key, value, t) ∈ recs ->
              sized key value /\ exists i, (i < os.ticks w)%nat /\ t = os.clock w i;
  jn_index : forall key, latest segs key (bitcask.keyDir b !! key);
  jn_distinct : forall key e1 e2, index_entry segs key e1 -> index_entry segs key e2 ->
                  recfmt.RecTstamp e1 = recfmt.RecTstamp e2 -> e1 = e2
}.

(** [range] over the categorized files visits every entry once. *)
Definition rangeFiles_ok
    (rangeFiles : gmap string keydir.fileType -> list (string * keydir.fileType)) : Prop :=
  forall m, rangeFiles m ≡ₚ map_to_list m.

(** The same for a list of entries. *)
Definition latest_of (es : list (string * recfmt.KeyDirRec))
    (key : string) (o : option recfmt.KeyDirRec) : Prop :=
  match o with
  | None => forall e, (key, e) ∉ es
  | Some e =>
      (key, e) ∈ es /\
      forall e', (key, e') ∈ es -> recfmt.RecTstamp e' <= recfmt.RecTstamp e
  end.

(** The entries of the segments [names], one segment after the other. *)
Fixpoint entries_of (segs : gmap string (list (string * string * Z)))
    (names : list string) : list (string * recfmt.KeyDirRec) :=
  match names with
  | [] => []
  | nm :: names' => entries_from nm 0 (default [] (segs !! nm)) ++ entries_of segs names'
  end.

(** A name that does not start with a dot. *)
Definition visible (nm : string) : bool :=
  match nm with
  | EmptyString => false
  | String c _ => bool_decide (c <> "."%char)
  end.

(** The datastore directory with the files of [w], present and with its
    lock held as [h] says. *)
Definition disk_of (w : os.World) (h : Holders) : Disk :=
  {| present := true; holders := h; dir := w |}.

(** A path with no directory yet. *)
Definition no_dir : Disk :=
  {| present := false; holders := Free;
     dir := {| os.files := ∅; os.clock := fun n => Z.of_nat n + 1700000000000000;
               os.ticks := 0; os.rfaults := []; os.wfaults := [] |} |}.

(** The bytes of a data record of [key] and [value] with [sum] in the
    place of the checksum. *)
Definition record_with_sum (sum : Z) (key value : string) (tstamp : Z) : list byte :=
  le_bytes 4 sum ++ data_body key value tstamp.

(** The directory of [live_state] with the checksum of the record in its
    segment set to zero. *)
Definition damaged_state : bitcask.Bitcask * os.World :=
  (live_state.1,
   os.set_files
     (<["1700000000000001.data"%string :=
          record_with_sum 0 "k" "v" 1700000000000000]> (os.files live_state.2))
     live_state.2).

(** A disk that runs full while a record is written: the write takes 3000
    bytes and fails, and so do the next five attempts, which take no byte;
    after that there is room again. *)
Definition full_disk : os.World :=
  os.set_wfaults
    ({| os.fault_count := 3000; os.fault_err := "no space left on device" |} ::
     replicate 5 {| os.fault_count := 0; os.fault_err := "no space left on device" |})
    new_dir.

(** * Properties *)

(** ** The record codec *)

Example ChecksumIEEE_check :
  ChecksumIEEE (bytes_of "123456789") = 0xCBF43926.
Proof. vm_compute. reflexivity. Qed.

Lemma Z_of_byte_range b : 0 <= Z_of_byte b < 256.
Proof.
  unfold Z_of_byte. pose proof (Byte.to_N_bounded b) as H. lia.
Qed.

Lemma Z_of_byte_of_Z z : Z_of_byte (byte_of_Z z) = z mod 256.
Proof.
  unfold Z_of_byte, byte_of_Z.
  pose proof (Z.mod_pos_bound z 256 ltac:(lia)) as Hr.
  destruct (Byte.of_N (Z.to_N (z mod 256))) as [b|] eqn:E.
  - apply Byte.to_of_N in E. simpl. rewrite E. lia.
  - apply Byte.of_N_None_iff in E. lia.
Qed.

Lemma length_le_bytes n z : length (le_bytes n z) = n.
Proof. revert z. induction n as [|n IH]; intros z; simpl; [done|]. by rewrite IH. Qed.

Lemma le_value_le_bytes n z : le_value (le_bytes n z) = z mod 256 ^ Z.of_nat n.
Proof.
  revert z. induction n as [|n IH]; intros z.
  - simpl. by rewrite Z.mod_1_r.
  - cbn [le_bytes le_value]. rewrite Z_of_byte_of_Z, IH.
    rewrite Nat2Z.inj_succ, Z.pow_succ_r by lia.
    rewrite (Z.rem_mul_r z 256 (256 ^ Z.of_nat n)) by lia. lia.
Qed.

Lemma length_bytes_of s : length (bytes_of s) = String.length s.
Proof.
  unfold bytes_of, list_byte_of_string. rewrite length_map.
  induction s as [|c s IH]; simpl; [done|]. by rewrite IH.
Qed.

Lemma string_of_bytes_of s : string_of (bytes_of s) = s.
Proof. apply string_of_list_byte_of_string. Qed.

Lemma store_app pre hole post src off :
  Z.of_nat (length pre) = off -> length hole = length src ->
  store (pre ++ hole ++ post) off src = pre ++ src ++ post.
Proof.
  intros <- Hlen. unfold store. rewrite Nat2Z.id.
  rewrite take_app_length. f_equal.
  rewrite !length_app.
  rewrite take_ge by lia. f_equal.
  rewrite drop_app_add'; [|done]. rewrite <- Hlen. by rewrite drop_app_length.
Qed.

Lemma slice_app pre mid post lo hi :
  Z.of_nat (length pre) = lo -> lo + Z.of_nat (length mid) = hi ->
  slice (pre ++ mid ++ post) lo hi = Some mid.
Proof.
  intros <- <-. unfold slice. rewrite decide_True.
  - f_equal. rewrite Nat2Z.id, drop_app_length.
    replace (Z.to_nat _) with (length mid) by lia. by rewrite take_app_length.
  - rewrite !length_app. lia.
Qed.

Lemma Uint_app n pre post z off :
  Z.of_nat (length pre) = off ->
  Uint n (pre ++ le_bytes n z ++ post) off = Some (z mod 256 ^ Z.of_nat n).
Proof.
  intros H. unfold Uint. rewrite (slice_app pre (le_bytes n z) post); [|done|].
  - simpl. by rewrite le_value_le_bytes.
  - rewrite length_le_bytes. lia.
Qed.

Lemma store_eq l pre hole post src off :
  l = pre ++ hole ++ post ->
  Z.of_nat (length pre) = off -> length hole = length src ->
  store l off src = pre ++ src ++ post.
Proof. intros ->. apply store_app. Qed.

Lemma slice_eq l pre mid post lo hi :
  l = pre ++ mid ++ post ->
  Z.of_nat (length pre) = lo -> lo + Z.of_nat (length mid) = hi ->
  slice l lo hi = Some mid.
Proof. intros ->. apply slice_app. Qed.

Lemma Uint_eq n l pre post z off :
  l = pre ++ le_bytes n z ++ post ->
  Z.of_nat (length pre) = off ->
  Uint n l off = Some (z mod 256 ^ Z.of_nat n).
Proof. intros ->. apply Uint_app. Qed.

Lemma slice_None buf lo hi : hi < lo -> slice buf lo hi = None.
Proof. intros H. unfold slice. rewrite decide_False; [done|lia]. Qed.

Lemma make_add n m : 0 <= n -> 0 <= m -> make (n + m) = make n ++ make m.
Proof. intros. unfold make. rewrite Z2Nat.inj_add by done. apply replicate_add. Qed.

Lemma length_make n : length (make n) = Z.to_nat n.
Proof. apply length_replicate. Qed.

Lemma len_nonneg s : 0 <= len s.
Proof. unfold len. lia. Qed.

Lemma length_bytes_of_Z s : Z.of_nat (length (bytes_of s)) = len s.
Proof. by rewrite length_bytes_of. Qed.

Ltac list_len :=
  repeat first [ rewrite length_app | rewrite length_le_bytes | rewrite length_make
               | rewrite length_bytes_of ];
  unfold len; simpl; lia.

Lemma CompressDataFileRec_eq key value tstamp :
  recfmt.CompressDataFileRec key value tstamp =
  le_bytes 4 (ChecksumIEEE (data_body key value tstamp)) ++ data_body key value tstamp.
Proof.
  unfold recfmt.CompressDataFileRec, recfmt.DataFileRecHdr, PutUint, data_body.
  pose proof (len_nonneg key) as Hk. pose proof (len_nonneg value) as Hv.
  replace (18 + len key + len value) with (4 + (8 + (2 + (4 + (len key + len value))))) by lia.
  rewrite !make_add by lia.
  set (T := le_bytes 8 _). set (K := le_bytes 2 _). set (V := le_bytes 4 _).
  rewrite (store_eq _ (make 4) (make 8) (make 2 ++ make 4 ++ make (len key) ++ make (len value)) T 4);
    [|done|done|done].
  rewrite (store_eq _ (make 4 ++ T) (make 2) (make 4 ++ make (len key) ++ make (len value)) K 12);
    [|by rewrite <- !app_assoc|done|done].
  rewrite (store_eq _ ((make 4 ++ T) ++ K) (make 4) (make (len key) ++ make (len value)) V 14);
    [|by rewrite <- !app_assoc|done|done].
  rewrite (store_eq _ (((make 4 ++ T) ++ K) ++ V) (make (len key)) (make (len value)) (bytes_of key) 18);
    [|by rewrite <- !app_assoc|done|subst T K V; list_len].
  rewrite (store_eq _ ((((make 4 ++ T) ++ K) ++ V) ++ bytes_of key) (make (len value)) [] (bytes_of value) (18 + len key));
    [|by rewrite <- !app_assoc, app_nil_r|subst T K V; list_len|subst T K V; list_len].
  rewrite app_nil_r, <- !app_assoc.
  rewrite (drop_app_length' (make 4)) by done.
  rewrite (store_eq _ [] (make 4) (T ++ K ++ V ++ bytes_of key ++ bytes_of value) _ 0);
    [done|done|done|done].
Qed.

Lemma ChecksumIEEE_range d : 0 <= ChecksumIEEE d < 2 ^ 32.
Proof. unfold ChecksumIEEE, uint32. apply Z.mod_pos_bound. lia. Qed.

Lemma int64_uint64 z : int64 (uint64 z) = int64 z.
Proof. unfold int64, uint64. by rewrite Z.mod_mod by lia. Qed.

Lemma int64_id z : - 2 ^ 63 <= z < 2 ^ 63 -> int64 z = z.
Proof.
  intros H. unfold int64.
  destruct (Z.ltb_spec (z mod 2 ^ 64) (2 ^ 63)) as [Hlt|Hge].
  - destruct (Z.neg_nonneg_cases z) as [Hn|Hn].
    + exfalso. rewrite <- (Z_mod_plus_full z 1 (2 ^ 64)) in Hlt.
      rewrite Z.mod_small in Hlt; lia.
    + apply Z.mod_small. lia.
  - destruct (Z.neg_nonneg_cases z) as [Hn|Hn].
    + rewrite <- (Z_mod_plus_full z 1 (2 ^ 64)). rewrite Z.mod_small; lia.
    + rewrite Z.mod_small in Hge; lia.
Qed.

Ltac bind_step := cbv beta iota delta [mbind option_bind].

(** Decoding an encoded data record returns key, value and timestamp and
    the length of the record, when the sums of the decoder do not wrap. *)
Lemma ExtractDataFileRec_Compress key value tstamp :
  18 + len key < 2 ^ 16 -> 18 + len key + len value < 2 ^ 32 ->
  recfmt.ExtractDataFileRec (recfmt.CompressDataFileRec key value tstamp) =
  Some (inl ({| recfmt.Key := key; recfmt.Value := value;
                recfmt.Tstamp := int64 tstamp;
                recfmt.KeySize := len key; recfmt.ValueSize := len value |},
             18 + len key + len value)).
Proof.
  intros Hk Hv. rewrite CompressDataFileRec_eq.
  pose proof (len_nonneg key) as Hk0. pose proof (len_nonneg value) as Hv0.
  pose proof (ChecksumIEEE_range (data_body key value tstamp)) as Hc.
  unfold recfmt.ExtractDataFileRec, recfmt.DataFileRecHdr.
  set (C := le_bytes 4 _).
  assert (HC : length C = 4%nat) by apply length_le_bytes.
  unfold data_body at 1 2 3 4 5 6 7.
  set (T := le_bytes 8 _). set (K := le_bytes 2 _). set (V := le_bytes 4 _).
  assert (HT : length T = 8%nat) by apply length_le_bytes.
  assert (HK : length K = 2%nat) by apply length_le_bytes.
  assert (HV : length V = 4%nat) by apply length_le_bytes.
  pose proof (length_bytes_of_Z key) as Hlk.
  pose proof (length_bytes_of_Z value) as Hlv.
  set (B := bytes_of key) in *. set (W := bytes_of value) in *.
  rewrite (Uint_eq 4 _ [] (T ++ K ++ V ++ B ++ W) (ChecksumIEEE (data_body key value tstamp)) 0);
    [|done|done].
  bind_step.
  rewrite (Uint_eq 8 _ C (K ++ V ++ B ++ W) (uint64 tstamp) 4); [|done|simpl; lia].
  bind_step.
  rewrite (Uint_eq 2 _ (C ++ T) (V ++ B ++ W) (uint16 (len key)) 12);
    [|by rewrite <- !app_assoc|rewrite length_app; lia].
  bind_step.
  rewrite (Uint_eq 4 _ ((C ++ T) ++ K) (B ++ W) (uint32 (len value)) 14);
    [|by rewrite <- !app_assoc|rewrite !length_app; lia].
  bind_step.
  change (256 ^ Z.of_nat 2) with (2 ^ 16). change (256 ^ Z.of_nat 4) with (2 ^ 32).
  change (256 ^ Z.of_nat 8) with (2 ^ 64).
  unfold uint16, uint32, uint64. rewrite !Z.mod_mod by lia.
  rewrite (Z.mod_small (len key) (2 ^ 16)) by lia.
  rewrite (Z.mod_small (len value) (2 ^ 32)) by lia.
  rewrite (Z.mod_small (18 + len key) (2 ^ 16)) by lia.
  rewrite (Z.mod_small (18 + len key) (2 ^ 32)) by lia.
  rewrite (Z.mod_small (len key) (2 ^ 32)) by lia.
  rewrite (Z.mod_small (18 + len key + len value) (2 ^ 32)) by lia.
  rewrite (Z.mod_small (18 + len value + len key) (2 ^ 32)) by lia.
  rewrite (Z.mod_small (ChecksumIEEE _) (2 ^ 32)) by lia.
  rewrite (slice_eq _ (((C ++ T) ++ K) ++ V) B W 18 (18 + len key));
    [|by rewrite <- !app_assoc|rewrite !length_app; lia|lia].
  bind_step.
  rewrite (slice_eq _ ((((C ++ T) ++ K) ++ V) ++ B) W [] (18 + len key) (18 + len key + len value));
    [|by rewrite <- !app_assoc, app_nil_r|rewrite !length_app; lia|lia].
  bind_step.
  rewrite (slice_eq _ C (T ++ K ++ V ++ B ++ W) [] 4 (18 + len key + len value));
    [|by rewrite <- !app_assoc, app_nil_r|lia|rewrite !length_app; lia].
  bind_step.
  unfold recfmt.validateCheckSum.
  fold (uint64 tstamp). rewrite int64_uint64.
  replace (T ++ K ++ V ++ B ++ W) with (data_body key value tstamp).
  2:{ unfold data_body. subst T K V B W. unfold uint16, uint32, uint64. done. }
  rewrite decide_False by (intros Hne; by apply Hne).
  subst B W. rewrite !string_of_bytes_of.
  replace (18 + len value + len key) with (18 + len key + len value) by lia. done.
Qed.

(** C5, as the code has it.  A key of 65518 to 65535 bytes fits the 16-bit
    key size of the header, and the encoder writes its record; the decoder
    computes the end of the key, [DataFileRecHdr + keySize], on [uint16],
    where it wraps below the start, and the slice expression panics. *)
Theorem ExtractDataFileRec_long_key_panics key value tstamp :
  2 ^ 16 <= 18 + len key -> len key < 2 ^ 16 ->
  recfmt.ExtractDataFileRec (recfmt.CompressDataFileRec key value tstamp) = None.
Proof.
  intros Hk Hk'. rewrite CompressDataFileRec_eq.
  unfold recfmt.ExtractDataFileRec, recfmt.DataFileRecHdr.
  set (C := le_bytes 4 _).
  assert (HC : length C = 4%nat) by apply length_le_bytes.
  unfold data_body at 1 2 3 4 5 6 7.
  set (T := le_bytes 8 _). set (K := le_bytes 2 _). set (V := le_bytes 4 _).
  assert (HT : length T = 8%nat) by apply length_le_bytes.
  assert (HK : length K = 2%nat) by apply length_le_bytes.
  assert (HV : length V = 4%nat) by apply length_le_bytes.
  set (B := bytes_of key) in *. set (W := bytes_of value) in *.
  rewrite (Uint_eq 4 _ [] (T ++ K ++ V ++ B ++ W) (ChecksumIEEE (data_body key value tstamp)) 0);
    [|done|done].
  bind_step.
  rewrite (Uint_eq 8 _ C (K ++ V ++ B ++ W) (uint64 tstamp) 4); [|done|simpl; lia].
  bind_step.
  rewrite (Uint_eq 2 _ (C ++ T) (V ++ B ++ W) (uint16 (len key)) 12);
    [|by rewrite <- !app_assoc|rewrite length_app; lia].
  bind_step.
  rewrite (Uint_eq 4 _ ((C ++ T) ++ K) (B ++ W) (uint32 (len value)) 14);
    [|by rewrite <- !app_assoc|rewrite !length_app; lia].
  bind_step.
  change (256 ^ Z.of_nat 2) with (2 ^ 16).
  unfold uint16 at 2. rewrite Z.mod_mod by lia.
  pose proof (len_nonneg key).
  rewrite (Z.mod_small (len key) (2 ^ 16)) by lia.
  rewrite slice_None; [done|].
  unfold uint16. replace (18 + len key) with (18 + len key - 2 ^ 16 + 1 * 2 ^ 16) by lia.
  rewrite Z_mod_plus_full, Z.mod_small; lia.
Qed.

Lemma CompressKeyDirRec_eq key rec :
  recfmt.CompressKeyDirRec key rec =
  le_bytes 8 (fst (ParseUint (recfmt.FileId rec))) ++ le_bytes 2 (uint16 (len key)) ++
  le_bytes 4 (recfmt.RecValueSize rec) ++ le_bytes 4 (recfmt.ValuePos rec) ++
  le_bytes 8 (uint64 (recfmt.RecTstamp rec)) ++ bytes_of key.
Proof.
  unfold recfmt.CompressKeyDirRec, recfmt.keyDirFileHdr, PutUint.
  pose proof (len_nonneg key) as Hk.
  replace (26 + len key) with (8 + (2 + (4 + (4 + (8 + len key))))) by lia.
  rewrite !make_add by lia.
  set (F := le_bytes 8 _). set (K := le_bytes 2 _). set (S := le_bytes 4 (recfmt.RecValueSize _)).
  set (P := le_bytes 4 _). set (T := le_bytes 8 _).
  rewrite (store_eq _ [] (make 8) (make 2 ++ make 4 ++ make 4 ++ make 8 ++ make (len key)) F 0);
    [|done|done|done].
  rewrite (store_eq _ F (make 2) (make 4 ++ make 4 ++ make 8 ++ make (len key)) K 8);
    [|done|done|done].
  rewrite (store_eq _ (F ++ K) (make 4) (make 4 ++ make 8 ++ make (len key)) S 10);
    [|by rewrite <- !app_assoc|done|done].
  rewrite (store_eq _ ((F ++ K) ++ S) (make 4) (make 8 ++ make (len key)) P 14);
    [|by rewrite <- !app_assoc|done|done].
  rewrite (store_eq _ (((F ++ K) ++ S) ++ P) (make 8) (make (len key)) T 18);
    [|by rewrite <- !app_assoc|done|done].
  rewrite (store_eq _ ((((F ++ K) ++ S) ++ P) ++ T) (make (len key)) [] (bytes_of key) 26);
    [|by rewrite <- !app_assoc, app_nil_r|done|subst F K S P T; list_len].
  by rewrite app_nil_r, <- !app_assoc.
Qed.

Lemma ExtractKeyDirRec_Compress key rec :
  len key + 26 < 2 ^ 16 ->
  recfmt.ExtractKeyDirRec (recfmt.CompressKeyDirRec key rec) =
  Some (key,
        {| recfmt.FileId := FormatUint (uint64 (fst (ParseUint (recfmt.FileId rec))));
           recfmt.ValuePos := uint32 (recfmt.ValuePos rec);
           recfmt.RecValueSize := uint32 (recfmt.RecValueSize rec);
           recfmt.RecTstamp := int64 (recfmt.RecTstamp rec) |},
        26 + len key).
Proof.
  intros Hk. rewrite CompressKeyDirRec_eq.
  pose proof (len_nonneg key) as Hk0.
  unfold recfmt.ExtractKeyDirRec, recfmt.keyDirFileHdr.
  set (F := le_bytes 8 _). set (K := le_bytes 2 _). set (S := le_bytes 4 (recfmt.RecValueSize _)).
  set (P := le_bytes 4 _). set (T := le_bytes 8 _). set (B := bytes_of key).
  assert (HF : length F = 8%nat) by apply length_le_bytes.
  assert (HK : length K = 2%nat) by apply length_le_bytes.
  assert (HS : length S = 4%nat) by apply length_le_bytes.
  assert (HP : length P = 4%nat) by apply length_le_bytes.
  assert (HT : length T = 8%nat) by apply length_le_bytes.
  pose proof (length_bytes_of_Z key) as Hlk. fold B in Hlk.
  rewrite (Uint_eq 8 _ [] (K ++ S ++ P ++ T ++ B) (fst (ParseUint (recfmt.FileId rec))) 0);
    [|done|done].
  bind_step.
  rewrite (Uint_eq 2 _ F (S ++ P ++ T ++ B) (uint16 (len key)) 8); [|done|lia].
  bind_step.
  rewrite (Uint_eq 4 _ (F ++ K) (P ++ T ++ B) (recfmt.RecValueSize rec) 10);
    [|by rewrite <- !app_assoc|rewrite !length_app; lia].
  bind_step.
  rewrite (Uint_eq 4 _ ((F ++ K) ++ S) (T ++ B) (recfmt.ValuePos rec) 14);
    [|by rewrite <- !app_assoc|rewrite !length_app; lia].
  bind_step.
  rewrite (Uint_eq 8 _ (((F ++ K) ++ S) ++ P) B (uint64 (recfmt.RecTstamp rec)) 18);
    [|by rewrite <- !app_assoc|rewrite !length_app; lia].
  bind_step.
  change (256 ^ Z.of_nat 2) with (2 ^ 16). change (256 ^ Z.of_nat 4) with (2 ^ 32).
  change (256 ^ Z.of_nat 8) with (2 ^ 64).
  unfold uint16, uint32, uint64. rewrite !Z.mod_mod by lia.
  rewrite (Z.mod_small (len key) (2 ^ 16)) by lia.
  rewrite (Z.mod_small (len key + 26) (2 ^ 16)) by lia.
  rewrite (slice_eq _ ((((F ++ K) ++ S) ++ P) ++ T) B [] 26 (len key + 26));
    [|by rewrite <- !app_assoc, app_nil_r|rewrite !length_app; lia|lia].
  bind_step. subst B. rewrite string_of_bytes_of.
  fold (uint64 (recfmt.RecTstamp rec)). by rewrite int64_uint64.
Qed.

Lemma ParseUint_loop_app s1 s2 acc n :
  ParseUint_loop s1 acc = (n, None) ->
  ParseUint_loop (s1 +:+ s2) acc = ParseUint_loop s2 n.
Proof.
  revert acc. induction s1 as [|c s1 IH]; intros acc H; simpl in *.
  - by inversion H.
  - destruct (digit_of c) as [d|]; [|done].
    destruct (decide _); [done|]. destruct (decide _); [done|]. by apply IH.
Qed.

Lemma ParseUint_data_name id n :
  ParseUint id = (n, None) -> ParseUint (id +:+ ".data") = (0, Some "invalid syntax"%string).
Proof.
  intros H. destruct id as [|c id]; [done|].
  change (ParseUint_loop (String c id +:+ ".data") 0 = (0, Some "invalid syntax"%string)).
  by rewrite (ParseUint_loop_app _ _ 0 n).
Qed.

Lemma FormatUint_0 : FormatUint (uint64 0) = "0"%string.
Proof. reflexivity. Qed.

(** C4, as the code has it.  The index holds the name of the segment,
    [<id>.data]; [CompressKeyDirRec] parses it as a number, which fails at
    the dot, and stores 0.  Decoding gives back the key, the position, the
    size and the timestamp, and the file id ["0"]. *)
Theorem KeyDirRec_roundtrip_loses_file_id key rec id n :
  recfmt.FileId rec = id +:+ ".data" -> ParseUint id = (n, None) ->
  len key + 26 < 2 ^ 16 ->
  recfmt.ExtractKeyDirRec (recfmt.CompressKeyDirRec key rec) =
  Some (key,
        {| recfmt.FileId := "0";
           recfmt.ValuePos := uint32 (recfmt.ValuePos rec);
           recfmt.RecValueSize := uint32 (recfmt.RecValueSize rec);
           recfmt.RecTstamp := int64 (recfmt.RecTstamp rec) |},
        26 + len key).
Proof.
  intros Hid Hn Hk. rewrite ExtractKeyDirRec_Compress by done.
  rewrite Hid, (ParseUint_data_name id n Hn). cbn [fst].
  by rewrite FormatUint_0.
Qed.

Lemma len_long_key : len long_key = 65518.
Proof. vm_compute. reflexivity. Qed.

Lemma ExtractDataFileRec_long_key_panics_witness :
  2 ^ 16 <= 18 + len long_key /\ len long_key < 2 ^ 16 /\
  recfmt.ExtractDataFileRec (recfmt.CompressDataFileRec long_key "" 0) = None.
Proof.
  split; [rewrite len_long_key; lia|].
  split; [rewrite len_long_key; lia|].
  apply (ExtractDataFileRec_long_key_panics long_key "" 0); rewrite len_long_key; lia.
Defined.

Lemma KeyDirRec_roundtrip_loses_file_id_witness :
  recfmt.ExtractKeyDirRec (recfmt.CompressKeyDirRec "k" entry_in_segment) =
  Some ("k"%string,
        {| recfmt.FileId := "0"; recfmt.ValuePos := 7;
           recfmt.RecValueSize := 3; recfmt.RecTstamp := 1700000000000001 |},
        27).
Proof.
  apply (KeyDirRec_roundtrip_loses_file_id "k" entry_in_segment
           "1700000000000000" 1700000000000000); [reflexivity|reflexivity|].
  vm_compute. reflexivity.
Defined.

(** ** The retry wrappers *)

Lemma store_nil b i : store b i [] = b.
Proof. unfold store. simpl. rewrite Nat.add_0_r, take_nil. simpl. apply take_drop. Qed.

Lemma length_store b off src : length (store b off src) = length b.
Proof.
  unfold store. rewrite !length_app, !length_take, length_drop. lia.
Qed.

Lemma store_all b data : length data = length b -> store b 0 data = data.
Proof.
  intros Hlen. unfold store. simpl. rewrite Nat.sub_0_r, Hlen, drop_all, app_nil_r.
  rewrite <- Hlen. apply firstn_all.
Qed.

(** A read that the file covers returns at the first attempt, whatever the
    fuel. *)
Lemma ReadAt_covered fuel w f b off data :
  os.rfaults w = [] -> 0 <= off ->
  take (length b) (drop (Z.to_nat off) (os.contents w (os.name f))) = data ->
  length data = length b ->
  sio.ReadAt fuel w f b off = Done ((data, (Z.of_nat (length b), None)), w).
Proof.
  intros Hf Hoff Hd Hlen. unfold sio.ReadAt, os.ReadAt.
  rewrite decide_False by lia. rewrite Hf, Hd.
  rewrite decide_False by lia. rewrite store_all by done.
  destruct fuel; simpl; by rewrite Hlen.
Qed.

Lemma ReadAt_loop_hangs fl w f b off i e :
  os.rfaults w = [] -> 0 <= off ->
  (length (os.contents w (os.name f)) <= Z.to_nat off + i)%nat ->
  (i < length b)%nat ->
  sio.ReadAt_loop fl w f b off 0 i (Some e) = Hangs.
Proof.
  revert b off e. induction fl as [|fl IH]; intros b off e Hf Hoff Hlen Hi; [done|].
  cbn [sio.ReadAt_loop]. rewrite decide_False by done.
  unfold os.ReadAt. rewrite decide_False by lia. rewrite Hf.
  rewrite drop_ge by lia. rewrite take_nil. simpl length.
  rewrite decide_True by lia. rewrite store_nil, Nat.add_0_r.
  apply IH; [done|lia|lia|done].
Qed.

(** C8, as the code has it.  [ReadAt] never counts its attempts.  When the
    file ends before the buffer is full, every read reports [EOF], the loop
    finds [attempts] at 0 each time round, and no amount of fuel brings the
    call to a result. *)
Theorem ReadAt_past_end_never_returns fuel w f b off :
  os.rfaults w = [] -> 0 <= off -> (0 < length b)%nat ->
  (length (os.contents w (os.name f)) < Z.to_nat off + length b)%nat ->
  sio.ReadAt fuel w f b off = Hangs.
Proof.
  intros Hf Hoff Hb Hshort. unfold sio.ReadAt, os.ReadAt.
  rewrite decide_False by lia. rewrite Hf.
  set (avail := take _ _).
  assert (Hav : (length avail = length (os.contents w (os.name f)) - Z.to_nat off)%nat).
  { subst avail. rewrite length_take, length_drop. lia. }
  rewrite decide_True by lia.
  apply ReadAt_loop_hangs; [done|done|lia|].
  rewrite length_store. lia.
Qed.

(** [Write] counts: the loop body runs at most [maxAttempts] times. *)
Lemma Write_loop_returns fl w f b attempts i err :
  (attempts <= sio.maxAttempts)%nat -> (sio.maxAttempts - attempts < fl)%nat ->
  exists r, sio.Write_loop fl w f b attempts i err = Done r.
Proof.
  revert w f attempts i err. induction fl as [|fl IH]; intros w f attempts i err Ha Hfl; [lia|].
  destruct err as [e|]; cbn [sio.Write_loop]; [|eauto].
  destruct (decide (attempts = sio.maxAttempts)) as [->|Hne]; [eauto|].
  destruct (os.Write w f (drop i b)) as [[[n err'] f'] w'].
  apply IH; lia.
Qed.

Lemma Write_returns fuel w f b :
  (sio.maxAttempts < fuel)%nat -> exists r, sio.Write fuel w f b = Done r.
Proof.
  intros Hfuel. unfold sio.Write.
  destruct (os.Write w f b) as [[[n err] f'] w'].
  apply Write_loop_returns; lia.
Qed.

(** Without a fault the first write transfers the whole buffer. *)
Lemma Write_ok fuel w f b :
  os.wfaults w = [] ->
  sio.Write fuel w f b =
  Done ((Z.of_nat (length b), None), (os.write_bytes w f b).1, (os.write_bytes w f b).2).
Proof.
  intros Hf. unfold sio.Write, os.Write. rewrite Hf.
  destruct (os.write_bytes w f b) as [f' w'] eqn:E. by destruct fuel.
Qed.

Lemma ReadAt_past_end_never_returns_witness :
  sio.ReadAt 1000 short_file {| os.name := "1.data"; os.offset := 0 |} (make 5) 0 = Hangs.
Proof.
  apply (ReadAt_past_end_never_returns 1000 short_file);
    [reflexivity|lia|vm_compute; lia|vm_compute; lia].
Defined.

(** Two short reads in a row: the second round adds the running count to
    an offset that already includes the first read, and the third read
    fetches the bytes at offset 3 where those at offset 2 are due. *)
Example ReadAt_offset_drifts :
  let w := {| os.files := {[ "1.data"%string := [x01; x02; x03; x04; x05; x06] ]};
              os.clock := fun n => Z.of_nat n; os.ticks := 0;
              os.rfaults := [ {| os.fault_count := 1; os.fault_err := "short" |};
                              {| os.fault_count := 1; os.fault_err := "short" |} ];
              os.wfaults := [] |} in
  exists w',
    sio.ReadAt 10 w {| os.name := "1.data"; os.offset := 0 |} (make 4) 0
    = Done (([x01; x02; x04; x05], (4, None)), w').
Proof. eexists. vm_compute. reflexivity. Qed.

(** [Write] gives up at the sixth failure in a row, and returns the error
    of that write. *)
Example Write_gives_up :
  let flt e := {| os.fault_count := 0; os.fault_err := e |} in
  let w := {| os.files := {[ "1.data"%string := [] ]};
              os.clock := fun n => Z.of_nat n; os.ticks := 0; os.rfaults := [];
              os.wfaults := [flt "e1"; flt "e2"; flt "e3"; flt "e4"; flt "e5"; flt "e6"]%string |} in
  exists f' w',
    sio.Write 10 w {| os.name := "1.data"; os.offset := 0 |} [x01; x02]
    = Done ((0, Some "e6"%string), f', w').
Proof. do 2 eexists. vm_compute. reflexivity. Qed.

(** ** Names of segment and hint files *)

Lemma length_append s1 s2 :
  String.length (s1 +:+ s2) = (String.length s1 + String.length s2)%nat.
Proof. induction s1 as [|c s1 IH]; simpl; [done|]. by rewrite IH. Qed.

Lemma append_cancel s1 s2 t1 t2 :
  String.length t1 = String.length t2 -> s1 +:+ t1 = s2 +:+ t2 -> s1 = s2 /\ t1 = t2.
Proof.
  revert s2. induction s1 as [|a s1 IH]; intros [|c s2] Hlen Heq.
  - done.
  - exfalso. apply (f_equal String.length) in Heq.
    rewrite !length_append in Heq. simpl in Heq. lia.
  - exfalso. apply (f_equal String.length) in Heq.
    rewrite !length_append in Heq. simpl in Heq. lia.
  - change (String a (s1 +:+ t1) = String c (s2 +:+ t2)) in Heq.
    injection Heq as -> Heq. destruct (IH s2 Hlen Heq) as [-> ->]. done.
Qed.

Lemma dataName_inj t1 t2 : datastore.dataName t1 = datastore.dataName t2 -> t1 = t2.
Proof.
  unfold datastore.dataName. intros H.
  apply append_cancel in H as [H _]; [|done]. by apply (inj pretty).
Qed.

Lemma hintName_inj t1 t2 : datastore.hintName t1 = datastore.hintName t2 -> t1 = t2.
Proof.
  unfold datastore.hintName. intros H.
  apply append_cancel in H as [H _]; [|done]. by apply (inj pretty).
Qed.

Lemma dataName_hintName t1 t2 : datastore.dataName t1 <> datastore.hintName t2.
Proof.
  unfold datastore.dataName, datastore.hintName. intros H.
  apply append_cancel in H as [_ H]; done.
Qed.

Lemma hintName_dataName t1 t2 : datastore.hintName t1 <> datastore.dataName t2.
Proof. intros H. symmetry in H. by apply dataName_hintName in H. Qed.

Lemma dataName_nonempty t : datastore.dataName t <> ""%string.
Proof.
  unfold datastore.dataName. intros H. apply (f_equal String.length) in H.
  rewrite length_append in H. simpl in H. lia.
Qed.

Lemma hintName_nonempty t : datastore.hintName t <> ""%string.
Proof.
  unfold datastore.hintName. intros H. apply (f_equal String.length) in H.
  rewrite length_append in H. simpl in H. lia.
Qed.

Lemma clock_increasing_inj w i j :
  clock_increasing w -> os.clock w i = os.clock w j -> i = j.
Proof.
  intros Hc Heq. destruct (Nat.lt_trichotomy i j) as [H|[H|H]]; [|done|].
  - apply Hc in H. lia.
  - apply Hc in H. lia.
Qed.

(** ** The segment writer *)

Lemma length_CompressDataFileRec key value tstamp :
  Z.of_nat (length (recfmt.CompressDataFileRec key value tstamp)) = 18 + len key + len value.
Proof.
  rewrite CompressDataFileRec_eq. unfold data_body.
  rewrite !length_app, !length_le_bytes, !length_bytes_of. unfold len. lia.
Qed.

Lemma pwrite_end content data : os.pwrite content (length content) data = content ++ data.
Proof.
  unfold os.pwrite. rewrite resize_all. f_equal.
  rewrite drop_ge by lia. apply app_nil_r.
Qed.

Lemma WriteData_effect fuel a w key value tstamp :
  writer_ok a w -> os.wfaults w = [] -> fresh w ->
  exists pos a' w',
    datastore.WriteData fuel a w key value tstamp = Done ((pos, None), a', w') /\
    write_effect a w (recfmt.CompressDataFileRec key value tstamp) pos a' w'.
Proof.
  intros [Hpos Hw] Hf Hfresh. unfold datastore.WriteData.
  set (rec := recfmt.CompressDataFileRec key value tstamp).
  destruct (decide _) as [Hroll|Hstay].
  - (* a new segment *)
    destruct (Hfresh (os.ticks w) (le_n _)) as [Hd Hh].
    unfold datastore.newAppendFile, os.UnixMicro, os.OpenFile. cbn [os.files].
    rewrite Hd.
    eexists 0, _, _. split; [|by apply minted].
    destruct (datastore.appendType a) eqn:Hty.
    + cbn [os.files os.set_files]. rewrite lookup_insert_ne by apply dataName_hintName.
      rewrite Hh. cbn [datastore.fileWrapper].
      rewrite Write_ok by (by cbn).
      unfold os.write_bytes, os.contents, os.set_files. cbn.
      rewrite lookup_insert_ne by apply hintName_dataName.
      rewrite lookup_insert_eq. cbn.
      change (os.pwrite [] 0 rec) with ([] ++ rec ++ drop (0 + length rec) []).
      rewrite drop_nil, app_nil_r. cbn [app].
      rewrite (insert_insert_ne _ (datastore.hintName _) (datastore.dataName _))
        by apply hintName_dataName.
      rewrite insert_insert_eq. by rewrite Hf.
    + cbn [datastore.fileWrapper].
      rewrite Write_ok by (by cbn).
      unfold os.write_bytes, os.contents, os.set_files. cbn.
      rewrite lookup_insert_eq. cbn.
      change (os.pwrite [] 0 rec) with ([] ++ rec ++ drop (0 + length rec) []).
      rewrite drop_nil, app_nil_r. cbn [app].
      rewrite insert_insert_eq. by rewrite Hf.
  - (* the open segment *)
    destruct (datastore.fileWrapper a) as [f|] eqn:Hfw; [|exfalso; apply Hstay; by left].
    destruct Hw as (Hname & _ & (content & Hc & Hoff & Hsz) & _).
    rewrite Write_ok by done.
    unfold os.write_bytes, os.contents. cbn. rewrite Hname, Hc. cbn.
    rewrite Hoff, pwrite_end.
    eexists _, _, _. split; [reflexivity|].
    rewrite <- Hoff. rewrite <- Hname at 1.
    eapply appended; [done|done|]. lia.
Qed.

Lemma extends_refl w : extends w w.
Proof. intros nm c H. exists []. by rewrite app_nil_r. Qed.

Lemma extends_trans w1 w2 w3 : extends w1 w2 -> extends w2 w3 -> extends w1 w3.
Proof.
  intros H12 H23 nm c H. destruct (H12 nm c H) as [e1 H1].
  destruct (H23 nm _ H1) as [e2 H2]. exists (e1 ++ e2). by rewrite app_assoc.
Qed.

Lemma extends_same_files w w' : os.files w' = os.files w -> extends w w'.
Proof. intros E nm c H. exists []. by rewrite E, app_nil_r. Qed.

Section write_effect_facts.
Variables (a a' : datastore.AppendFile) (w w' : os.World) (rec : list byte) (pos : Z).
Hypothesis Hok : writer_ok a w.
Hypothesis Hfresh : fresh w.
Hypothesis Hclock : clock_increasing w.
Hypothesis Heff : write_effect a w rec pos a' w'.

Lemma write_effect_clock : os.clock w' = os.clock w.
Proof. by destruct Heff. Qed.

Lemma write_effect_faults :
  os.rfaults w' = os.rfaults w /\ os.wfaults w' = os.wfaults w.
Proof. by destruct Heff. Qed.

Lemma write_effect_ticks : (os.ticks w <= os.ticks w')%nat.
Proof. destruct Heff; cbn; lia. Qed.

Lemma write_effect_type : datastore.appendType a' = datastore.appendType a.
Proof. by destruct Heff. Qed.

Lemma write_effect_open : datastore.fileWrapper a' <> None.
Proof. by destruct Heff. Qed.

Lemma write_effect_extends : extends w w'.
Proof.
  destruct Heff as [f content Hfw Hc Hsz|Hroll t0]; intros nm c Hnm; cbn.
  - destruct (decide (nm = datastore.fileName a)) as [->|Hne].
    + rewrite lookup_insert_eq. exists rec. congruence.
    + rewrite lookup_insert_ne by done. exists []. by rewrite app_nil_r.
  - destruct (Hfresh (os.ticks w) (le_n _)) as [Hd Hh]. fold t0 in Hd, Hh.
    exists []. rewrite app_nil_r.
    rewrite lookup_insert_ne by congruence.
    destruct (datastore.appendType a); [|done].
    rewrite lookup_insert_ne by congruence. done.
Qed.

Lemma write_effect_names : os.files w !! ""%string = None -> os.files w' !! ""%string = None.
Proof.
  intros Hn. destruct Heff as [f content Hfw Hc Hsz|Hroll t0]; cbn.
  - rewrite lookup_insert_ne; [done|]. intros E. rewrite E in Hc. congruence.
  - rewrite lookup_insert_ne by apply dataName_nonempty.
    destruct (datastore.appendType a); [|done].
    rewrite lookup_insert_ne by apply hintName_nonempty. done.
Qed.

Lemma write_effect_fresh : fresh w'.
Proof.
  destruct Heff as [f content Hfw Hc Hsz|Hroll t0]; intros j Hj; cbn in *.
  - destruct (Hfresh j Hj) as [Hd Hh].
    rewrite !lookup_insert_ne; [done| |]; intros E; rewrite E in Hc; congruence.
  - destruct (Hfresh j ltac:(lia)) as [Hd Hh].
    assert (os.clock w j <> t0) as Hne.
    { intros E. apply (clock_increasing_inj w) in E; [lia|done]. }
    rewrite !lookup_insert_ne.
    + destruct (datastore.appendType a); [|done].
      rewrite !lookup_insert_ne; [done| |].
      * intros E. apply hintName_inj in E. congruence.
      * apply hintName_dataName.
    + apply dataName_hintName.
    + intros E. apply dataName_inj in E. congruence.
Qed.

Lemma write_effect_writer : writer_ok a' w'.
Proof.
  destruct Hok as [Hpos Hw].
  destruct Heff as [f content Hfw Hc Hsz|Hroll t0]; (split; [cbn; lia|]); cbn.
  - rewrite Hfw in Hw. destruct Hw as (Hname & Ht & (c & Hc' & Hoff & Hcs) & Hh).
    assert (c = content) as -> by congruence.
    split; [done|]. split; [done|]. split.
    + exists (content ++ rec). rewrite lookup_insert_eq. rewrite length_app. split; [done|]. lia.
    + intros Hm. destruct (Hh Hm) as (h & t & Hhw & Hhn & [hc Hhc]).
      exists h, t. split; [done|]. split; [done|].
      destruct (decide (os.name h = datastore.fileName a)) as [E|Hne].
      * rewrite E, lookup_insert_eq. eauto.
      * rewrite lookup_insert_ne by done. eauto.
  - split; [done|]. split; [by exists t0|]. split.
    + exists rec. by rewrite lookup_insert_eq.
    + intros Hm. rewrite Hm. exists {| os.name := datastore.hintName t0; os.offset := 0 |}, t0.
      split; [done|]. split; [done|]. cbn.
      rewrite lookup_insert_ne by apply dataName_hintName.
      rewrite lookup_insert_eq. eauto.
Qed.

(** The record stands at the returned position, at the end of the
    segment. *)
Lemma write_effect_record :
  0 <= pos <= datastore.maxFileSize /\
  exists content, os.files w' !! datastore.fileName a' = Some content /\
                  drop (Z.to_nat pos) content = rec.
Proof.
  destruct Hok as [Hpos Hw].
  destruct Heff as [f content Hfw Hc Hsz|Hroll t0]; cbn.
  - rewrite Hfw in Hw. destruct Hw as (Hname & Ht & (c & Hc' & Hoff & Hcs) & Hh).
    assert (c = content) as -> by congruence.
    split; [lia|]. exists (content ++ rec). rewrite lookup_insert_eq. split; [done|].
    rewrite Hpos, Hcs, Nat2Z.id. apply drop_app_length.
  - split; [unfold datastore.maxFileSize; lia|]. exists rec. by rewrite lookup_insert_eq.
Qed.

(** A file of the directory after the write is a file of the directory
    before it, possibly grown, or one of the two files just minted. *)
Lemma write_effect_files nm c :
  os.files w' !! nm = Some c ->
  (nm <> datastore.fileName a' /\ os.files w !! nm = Some c) \/
  (nm = datastore.fileName a' /\
   ((pos = 0 /\ c = rec /\ os.files w !! nm = None /\
     nm = datastore.dataName (os.clock w (os.ticks w))) \/
    (exists c0, os.files w !! nm = Some c0 /\ c = c0 ++ rec /\
                datastore.fileName a' = datastore.fileName a /\
                datastore.currentSize a = Z.of_nat (length c0) /\
                Z.of_nat (length rec) + datastore.currentSize a <= datastore.maxFileSize))) \/
  (c = [] /\ os.files w !! nm = None /\
   nm = datastore.hintName (os.clock w (os.ticks w))).
Proof.
  destruct Hok as [Hpos Hw].
  destruct Heff as [f content Hfw Hc Hsz|Hroll t0]; cbn; intros Hnm.
  - rewrite Hfw in Hw. destruct Hw as (Hname & Ht & (c0 & Hc' & Hoff & Hcs) & Hh).
    assert (c0 = content) as -> by congruence.
    destruct (decide (nm = datastore.fileName a)) as [->|Hne].
    + rewrite lookup_insert_eq in Hnm. right; left. split; [done|]. right.
      exists content. split; [done|]. split; [congruence|]. done.
    + rewrite lookup_insert_ne in Hnm by done. by left.
  - destruct (Hfresh (os.ticks w) (le_n _)) as [Hd Hh]. fold t0 in Hd, Hh.
    destruct (decide (nm = datastore.dataName t0)) as [->|Hne].
    + rewrite lookup_insert_eq in Hnm. right; left. split; [done|]. left.
      split; [done|]. split; [congruence|]. done.
    + rewrite lookup_insert_ne in Hnm by done.
      destruct (datastore.appendType a); [|by left].
      destruct (decide (nm = datastore.hintName t0)) as [->|Hne'].
      * rewrite lookup_insert_eq in Hnm. right; right. split; [congruence|]. done.
      * rewrite lookup_insert_ne in Hnm by done. by left.
Qed.
(** The hint file the writer holds afterwards is the one it held, or one
    just minted. *)
Lemma write_effect_hint h :
  datastore.hintWrapper a' = Some h ->
  datastore.hintWrapper a = Some h \/ os.files w !! os.name h = None.
Proof.
  destruct Heff as [f content Hfw Hc Hsz|Hroll t0]; cbn; intros Hh; [by left|].
  destruct (datastore.appendType a); [|by left].
  injection Hh as <-. right. cbn. apply (Hfresh (os.ticks w) (le_n _)).
Qed.
End write_effect_facts.

(** ** Segment sizes *)

Lemma bounded_record key value tstamp :
  bounded (recfmt.CompressDataFileRec key value tstamp).
Proof.
  set (c := recfmt.CompressDataFileRec key value tstamp).
  destruct (decide (Z.of_nat (length c) <= datastore.maxFileSize)); [by left|].
  right. exists key, value, tstamp. split; [done|lia].
Qed.

Lemma WriteData_all_bounded fuel recs a w w0 :
  writer_ok a w -> fresh w -> clock_increasing w -> os.wfaults w = [] ->
  (forall nm c, os.files w !! nm = Some c -> os.files w0 !! nm = None -> bounded c) ->
  (forall nm, os.files w !! nm = None -> os.files w0 !! nm = None) ->
  exists a' w',
    WriteData_all fuel a w recs = Done (a', w') /\
    forall nm c, os.files w' !! nm = Some c -> os.files w0 !! nm = None -> bounded c.
Proof.
  revert a w. induction recs as [|[[key value] tstamp] recs IH];
    intros a w Hok Hfresh Hclock Hf Hb Hnew.
  - exists a, w. by split.
  - cbn [WriteData_all].
    destruct (WriteData_effect fuel a w key value tstamp Hok Hf Hfresh)
      as (pos & a1 & w1 & -> & Heff).
    cbn [mbind outcome_bind].
    apply IH.
    + by eapply write_effect_writer.
    + by eapply write_effect_fresh.
    + intros i j Hij. rewrite (write_effect_clock _ _ _ _ _ _ Heff). by apply Hclock.
    + destruct (write_effect_faults _ _ _ _ _ _ Heff) as [_ ->]. done.
    + intros nm c Hnm H0.
      destruct (write_effect_files _ _ _ _ _ _ Hok Hfresh Heff nm c Hnm)
        as [[_ Hold]|[[_ [(_ & -> & _)|(c0 & Hc0 & -> & _ & Hsz & Hmax)]]|(-> & _)]].
      * by apply (Hb nm).
      * apply bounded_record.
      * left. rewrite length_app. lia.
      * left. unfold datastore.maxFileSize. simpl. lia.
    + intros nm Hnm. apply Hnew.
      destruct (os.files w !! nm) as [c|] eqn:E; [|done].
      destruct (write_effect_extends _ _ _ _ _ _ Hfresh Heff nm c E) as [extra He].
      congruence.
Qed.

Lemma writer_ok_new ty w : writer_ok (datastore.NewAppendFile ty) w.
Proof. by split. Qed.

(** The bound of C6 where no write fails.  In a directory without I/O
    faults whose clock gives out fresh segment names, whatever records a
    segment writer is given, a segment file it has written stays within
    [maxFileSize] unless it holds a single record that is longer than
    that; and each [WriteData] decides on the size before
    the append: it mints a segment when no segment is open or the record
    would take the open one over the bound, and the minted segment takes
    the record at position 0 whatever its length; otherwise the record goes
    to the end of the open segment. *)
Theorem segment_size_bounded fuel :
  (forall ty w0 recs,
      no_faults w0 -> fresh w0 -> clock_increasing w0 ->
      exists a w,
        WriteData_all fuel (datastore.NewAppendFile ty) w0 recs = Done (a, w) /\
        forall nm c, os.files w !! nm = Some c -> os.files w0 !! nm = None ->
          Z.of_nat (length c) <= datastore.maxFileSize \/
          exists key value tstamp,
            c = recfmt.CompressDataFileRec key value tstamp /\
            datastore.maxFileSize < Z.of_nat (length c)) /\
  (forall a w key value tstamp,
      writer_ok a w -> no_faults w -> fresh w ->
      let rec := recfmt.CompressDataFileRec key value tstamp in
      exists pos a' w',
        datastore.WriteData fuel a w key value tstamp = Done ((pos, None), a', w') /\
        if decide (datastore.fileWrapper a = None \/
                   Z.of_nat (length rec) + datastore.currentSize a > datastore.maxFileSize)
        then pos = 0 /\
             datastore.fileName a' = datastore.dataName (os.clock w (os.ticks w)) /\
             os.files w' !! datastore.fileName a' = Some rec
        else pos = datastore.currentSize a /\
             datastore.fileName a' = datastore.fileName a /\
             exists c0, os.files w !! datastore.fileName a = Some c0 /\
                        os.files w' !! datastore.fileName a = Some (c0 ++ rec)).
Proof.
  split.
  - intros ty w0 recs [_ Hf] Hfresh Hclock.
    apply WriteData_all_bounded; [apply writer_ok_new|done|done|done| |done].
    intros nm c H1 H2. congruence.
  - intros a w key value tstamp Hok [_ Hf] Hfresh rec.
    destruct (WriteData_effect fuel a w key value tstamp Hok Hf Hfresh)
      as (pos & a' & w' & HW & Heff).
    exists pos, a', w'. split; [done|]. fold rec in Heff.
    destruct Heff as [f content Hfw Hc Hsz|Hroll t0].
    + rewrite decide_False by (intros [H|H]; [congruence|lia]).
      destruct Hok as [Hpos _]. split; [done|]. split; [done|].
      exists content. split; [done|]. cbn. by rewrite lookup_insert_eq.
    + rewrite decide_True by done. split; [done|]. split; [done|].
      cbn. by rewrite lookup_insert_eq.
Qed.

Lemma no_faults_new_dir : no_faults new_dir.
Proof. by split. Qed.

Lemma clock_increasing_new_dir : clock_increasing new_dir.
Proof. intros i j H. cbn. lia. Qed.

Lemma fresh_new_dir : fresh new_dir.
Proof.
  intros j _. cbn. split; apply lookup_singleton_ne; intros E;
    apply (f_equal String.length) in E;
    unfold datastore.dataName, datastore.hintName in E;
    rewrite length_append in E; simpl in E; lia.
Qed.

Lemma segment_size_bounded_witness :
  exists a w,
    WriteData_all 1 (datastore.NewAppendFile datastore.Active) new_dir
      [("k"%string, "v"%string, 1)] = Done (a, w) /\
    forall nm c, os.files w !! nm = Some c -> os.files new_dir !! nm = None ->
      Z.of_nat (length c) <= datastore.maxFileSize \/
      exists key value tstamp,
        c = recfmt.CompressDataFileRec key value tstamp /\
        datastore.maxFileSize < Z.of_nat (length c).
Proof.
  apply (proj1 (segment_size_bounded 1) datastore.Active new_dir [("k"%string, "v"%string, 1)]).
  - apply no_faults_new_dir.
  - apply fresh_new_dir.
  - apply clock_increasing_new_dir.
Defined.

(** ** The persisted keydir *)

Lemma le_value_nonneg bs : 0 <= le_value bs.
Proof.
  induction bs as [|b bs IH]; simpl; [done|].
  pose proof (Z_of_byte_range b). lia.
Qed.

Lemma ExtractKeyDirRec_length buf key rec recLen :
  recfmt.ExtractKeyDirRec buf = Some (key, rec, recLen) -> 26 <= recLen.
Proof.
  unfold recfmt.ExtractKeyDirRec, recfmt.keyDirFileHdr. intros H.
  destruct (Uint 8 buf 0); [|done]. cbn [mbind option_bind] in H.
  destruct (Uint 2 buf 8) as [ks|] eqn:Hks; [|done]. cbn [mbind option_bind] in H.
  destruct (Uint 4 buf 10); [|done]. cbn [mbind option_bind] in H.
  destruct (Uint 4 buf 14); [|done]. cbn [mbind option_bind] in H.
  destruct (Uint 8 buf 18); [|done]. cbn [mbind option_bind] in H.
  destruct (slice buf 26 _); [|done]. cbn [mbind option_bind] in H.
  injection H as _ _ <-.
  unfold Uint in Hks. destruct (slice buf 8 _) as [bs|]; [|done].
  injection Hks as <-. pose proof (le_value_nonneg bs). lia.
Qed.

(** The decoding loop ends within the fuel [keyDirFileBuild] gives it. *)
Lemma decode_loop_ends fl data i k :
  Z.of_nat (length data) - i <= Z.of_nat fl ->
  keydir.decode_loop fl data i k = Panics \/
  exists k', keydir.decode_loop fl data i k = Done k'.
Proof.
  revert i k. induction fl as [|fl IH]; intros i k Hfl; cbn [keydir.decode_loop].
  - rewrite decide_False by lia. eauto.
  - destruct (decide _) as [Hlt|]; [|eauto].
    destruct (recfmt.ExtractKeyDirRec _) as [[[key rec] recLen]|] eqn:E; [|by left].
    apply ExtractKeyDirRec_length in E. apply IH. lia.
Qed.

(** C2, as the code has it.  [isOld] answers whether the keydir file is
    older than the directory, and [keyDirFileBuild] goes on to decode the
    file when the answer is yes.  A keydir file that is present is decoded
    into the index when its modification time is earlier than the
    directory's, and is left aside when it is not earlier. *)
Theorem keyDirFileBuild_uses_the_older_keydir dirModTime keydirModTime k w data :
  os.files w !! keydir.keyDirFile = Some data ->
  (keydirModTime < dirModTime ->
     keydir.keyDirFileBuild (inl dirModTime) (inl keydirModTime) k w = Panics \/
     exists k', keydir.decode_loop (length data) data 0 k = Done k' /\
       keydir.keyDirFileBuild (inl dirModTime) (inl keydirModTime) k w
       = Done (k', (true, None))) /\
  (dirModTime <= keydirModTime ->
     keydir.keyDirFileBuild (inl dirModTime) (inl keydirModTime) k w
     = Done (k, (false, None))).
Proof.
  intros Hdata. unfold keydir.keyDirFileBuild, keydir.isOld. rewrite Hdata. split.
  - intros Hlt. rewrite bool_decide_eq_true_2 by done.
    rewrite decide_False by (intros [H|H]; done).
    destruct (decode_loop_ends (length data) data 0 k ltac:(lia)) as [->|[k' ->]].
    + by left.
    + right. by exists k'.
  - intros Hge. rewrite bool_decide_eq_false_2 by lia.
    rewrite decide_True by (by right). done.
Qed.

Lemma keyDirFileBuild_uses_the_older_keydir_witness :
  (5 < 10 ->
     keydir.keyDirFileBuild (inl 10) (inl 5) ∅ shared_dir = Panics \/
     exists k', keydir.decode_loop 27 (recfmt.CompressKeyDirRec "k" entry_in_segment) 0 ∅
                = Done k' /\
       keydir.keyDirFileBuild (inl 10) (inl 5) ∅ shared_dir = Done (k', (true, None))) /\
  (10 <= 5 ->
     keydir.keyDirFileBuild (inl 10) (inl 5) ∅ shared_dir = Done (∅, (false, None))).
Proof.
  apply (keyDirFileBuild_uses_the_older_keydir 10 5 ∅ shared_dir
           (recfmt.CompressKeyDirRec "k" entry_in_segment)).
  vm_compute. reflexivity.
Defined.

(** The keydir file written after the last change of the directory is
    left aside. *)
Example keyDirFileBuild_ignores_current_keydir :
  keydir.keyDirFileBuild (inl 10) (inl 20) ∅ shared_dir = Done (∅, (false, None)).
Proof. vm_compute. reflexivity. Qed.

(** The keydir file that predates the last change of the directory is
    loaded. *)
Example keyDirFileBuild_loads_stale_keydir :
  exists k',
    keydir.keyDirFileBuild (inl 10) (inl 5) ∅ shared_dir = Done (k', (true, None)) /\
    recfmt.FileId <$> (k' !! "k"%string) = Some "0"%string.
Proof. eexists. split; [vm_compute; reflexivity|]. vm_compute. reflexivity. Qed.

(** ** The engine: permissions *)

(** C7.  On a handle opened read-only, [Put], [Delete], [Merge] and [Sync]
    return their own "require write permission" error, and the handle (with
    its index) and the directory come back as they were. *)
Theorem read_only_rejects_writes fuel range b w key value :
  bitcask.accessPermission (bitcask.usrOpts b) = bitcask.ReadOnly ->
  bitcask.Put fuel b w key value
    = Done (Some "Put: require write permission"%string, b, w) /\
  bitcask.Delete fuel b w key
    = Done (Some "Delete: require write permission"%string, b, w) /\
  bitcask.Merge fuel range b w
    = Done (Some "Merge: require write permission"%string, b, w) /\
  bitcask.Sync b w
    = Done (Some "Sync: require write permission"%string, b, w).
Proof.
  intros Hro. unfold bitcask.Put, bitcask.Delete, bitcask.Merge, bitcask.Sync.
  rewrite !decide_True by done. done.
Qed.

Lemma read_only_rejects_writes_witness :
  bitcask.Put 6 (opened []) new_dir "k" "v"
    = Done (Some "Put: require write permission"%string, opened [], new_dir) /\
  bitcask.Delete 6 (opened []) new_dir "k"
    = Done (Some "Delete: require write permission"%string, opened [], new_dir) /\
  bitcask.Merge 6 map_to_list (opened []) new_dir
    = Done (Some "Merge: require write permission"%string, opened [], new_dir) /\
  bitcask.Sync (opened []) new_dir
    = Done (Some "Sync: require write permission"%string, opened [], new_dir).
Proof.
  apply (read_only_rejects_writes 6 map_to_list (opened []) new_dir "k" "v").
  reflexivity.
Defined.

(** ** The engine: [Put] returns *)

Lemma WriteData_returns fuel a w key value tstamp :
  (sio.maxAttempts < fuel)%nat ->
  exists r, datastore.WriteData fuel a w key value tstamp = Done r.
Proof.
  intros Hfuel. unfold datastore.WriteData.
  set (rec := recfmt.CompressDataFileRec key value tstamp).
  destruct (decide _) as [Hroll|Hstay].
  - unfold datastore.newAppendFile.
    destruct (os.UnixMicro w) as [t w1].
    destruct (os.OpenFile w1 _) as [file w2].
    destruct (match datastore.appendType a with
              | datastore.Merge => _ | datastore.Active => _ end) as [hintW w3].
    cbn [datastore.fileWrapper].
    destruct (Write_returns fuel w3 file rec Hfuel) as [[[[n err] f'] w'] ->].
    cbn [mbind outcome_bind]. destruct err; eauto.
  - destruct (datastore.fileWrapper a) as [f|] eqn:Hfw; [|exfalso; apply Hstay; by left].
    destruct (Write_returns fuel w f rec Hfuel) as [[[[n err] f'] w'] ->].
    cbn [mbind outcome_bind]. destruct err; eauto.
Qed.

Lemma Put_returns fuel b w key value :
  (sio.maxAttempts < fuel)%nat ->
  exists e b' w', bitcask.Put fuel b w key value = Done (e, b', w').
Proof.
  intros Hfuel. unfold bitcask.Put.
  destruct (decide _) as [|Hrw]; [eauto|].
  destruct (os.UnixMicro w) as [t w1].
  destruct (WriteData_returns fuel (bitcask.activeFile b) w1 key value t Hfuel)
    as [[[[n err] a] w2] ->].
  cbn [mbind outcome_bind]. destruct err; eauto.
Qed.

(** C10.  On a read-write handle the error [Delete] returns is the error
    of its [Get].  When [Get] finds the key live, [Delete] returns nil
    whatever [Put] returns for the tombstone: the error of [Put] is
    dropped, and the handle and directory are as [Put] has left them. *)
Theorem Delete_returns_the_error_of_Get fuel b w key v err w1 :
  (sio.maxAttempts < fuel)%nat ->
  bitcask.accessPermission (bitcask.usrOpts b) = bitcask.ReadWrite ->
  bitcask.Get fuel b w key = Done ((v, err), w1) ->
  exists b' w',
    bitcask.Delete fuel b w key = Done (err, b', w') /\
    (err = None ->
     exists e, bitcask.Put fuel b w1 key datastore.TompStone = Done (e, b', w')).
Proof.
  intros Hfuel Hrw HGet. unfold bitcask.Delete.
  rewrite decide_False by (rewrite Hrw; done).
  rewrite HGet. cbn [mbind outcome_bind].
  destruct err as [e|].
  - exists b, w1. split; [done|]. done.
  - destruct (Put_returns fuel b w1 key datastore.TompStone Hfuel) as (e & b' & w' & HPut).
    rewrite HPut. cbn [mbind outcome_bind].
    exists b', w'. split; [done|]. intros _. by exists e.
Qed.

Lemma Delete_returns_the_error_of_Get_witness :
  exists b' w',
    bitcask.Delete 6 live_state.1 failing_disk "k" = Done (None, b', w') /\
    ((None : option error) = None ->
     exists e, bitcask.Put 6 live_state.1 failing_disk "k" datastore.TompStone
               = Done (e, b', w')).
Proof.
  apply (Delete_returns_the_error_of_Get 6 live_state.1 failing_disk "k" "v" None failing_disk).
  - unfold sio.maxAttempts. lia.
  - reflexivity.
  - vm_compute. reflexivity.
Defined.

(** The append of the tombstone fails, [Delete] reports success, and the
    key is still there. *)
Example Delete_reports_success_when_the_append_fails :
  exists b' w',
    bitcask.Put 6 live_state.1 failing_disk "k" datastore.TompStone
      = Done (Some "no space left on device"%string, b', w') /\
    bitcask.Delete 6 live_state.1 failing_disk "k" = Done (None, b', w') /\
    bitcask.Get 6 b' w' "k" = Done (("v"%string, None), w').
Proof.
  do 2 eexists. split; [vm_compute; reflexivity|].
  split; [vm_compute; reflexivity|]. vm_compute. reflexivity.
Qed.

(** ** The engine: reading a located record *)

Lemma ReadValueFromFile_located fuel w key rec value :
  os.rfaults w = [] -> located w key rec value ->
  datastore.ReadValueFromFile fuel w (recfmt.FileId rec) key
    (recfmt.ValuePos rec) (recfmt.RecValueSize rec)
  = Done (read_result key value, w).
Proof.
  intros Hf ([Hk Hv] & _ & Hpos & Hsz & content & tstamp & Hc & Hrec).
  pose proof (len_nonneg key) as Hk0. pose proof (len_nonneg value) as Hv0.
  unfold datastore.ReadValueFromFile, recfmt.DataFileRecHdr, os.Open.
  rewrite Hc, Hsz.
  unfold uint32. rewrite (Z.mod_small (len key)) by lia.
  rewrite (Z.mod_small (18 + len key + len value)) by lia.
  rewrite (ReadAt_covered fuel w _ _ _ (recfmt.CompressDataFileRec key value tstamp)).
  - cbn [mbind outcome_bind].
    rewrite ExtractDataFileRec_Compress by done. cbn [recfmt.Value recfmt.Key].
    unfold read_result. by destruct (decide _).
  - done.
  - done.
  - unfold os.contents. cbn [os.name]. rewrite Hc. cbn [default].
    by rewrite length_make.
  - rewrite length_make. pose proof (length_CompressDataFileRec key value tstamp). lia.
Qed.

Lemma located_unique w key rec v1 v2 :
  located w key rec v1 -> located w key rec v2 -> v1 = v2.
Proof.
  intros ([Hk1 Hv1] & _ & _ & Hsz1 & c1 & t1 & Hc1 & Hr1)
         ([Hk2 Hv2] & _ & _ & Hsz2 & c2 & t2 & Hc2 & Hr2).
  assert (c2 = c1) as -> by congruence.
  assert (len v1 = len v2) as Hlen by congruence.
  rewrite <- Hlen, Hr1 in Hr2.
  pose proof (ExtractDataFileRec_Compress key v1 t1 Hk1 Hv1) as E1.
  pose proof (ExtractDataFileRec_Compress key v2 t2 Hk2 Hv2) as E2.
  rewrite <- Hr2 in E2. rewrite E1 in E2. congruence.
Qed.

Lemma located_extends w w' key rec value :
  extends w w' -> located w key rec value -> located w' key rec value.
Proof.
  intros Hext (Hs & Ht & Hpos & Hsz & content & tstamp & Hc & Hrec).
  split; [done|]. split; [done|]. split; [done|]. split; [done|].
  destruct (Hext _ _ Hc) as [extra Hc'].
  exists (content ++ extra), tstamp. split; [done|].
  rewrite <- Hrec.
  assert (Hlen : (Z.to_nat (recfmt.ValuePos rec) + Z.to_nat (18 + len key + len value)
                  <= length content)%nat).
  { apply (f_equal length) in Hrec. rewrite length_take, length_drop in Hrec.
    pose proof (length_CompressDataFileRec key value tstamp).
    pose proof (len_nonneg key). pose proof (len_nonneg value). lia. }
  rewrite drop_app_le by lia. rewrite take_app_le; [done|].
  rewrite length_drop. lia.
Qed.

Lemma Get_located fuel b w key rec value :
  os.rfaults w = [] -> bitcask.keyDir b !! key = Some rec -> located w key rec value ->
  bitcask.Get fuel b w key = Done (read_result key value, w).
Proof.
  intros Hf Hk Hloc. unfold bitcask.Get. rewrite Hk.
  by apply ReadValueFromFile_located.
Qed.

Lemma Get_absent fuel b w key :
  bitcask.keyDir b !! key = None ->
  bitcask.Get fuel b w key = Done ((""%string, Some (datastore.keyNotExist key)), w).
Proof. intros Hk. unfold bitcask.Get. by rewrite Hk. Qed.

(** On a consistent engine [Get] returns, and leaves the directory as it
    is. *)
Lemma Get_consistent fuel b w key :
  consistent b w -> exists r, bitcask.Get fuel b w key = Done (r, w).
Proof.
  intros Hc. destruct (bitcask.keyDir b !! key) as [rec|] eqn:Hk.
  - destruct (cons_index _ _ Hc key rec Hk) as [v Hloc].
    exists (read_result key v). apply (Get_located fuel b w key rec v); [|done|done].
    by destruct (cons_faults _ _ Hc).
  - eexists. by apply Get_absent.
Qed.

(** ** The engine: [Put] on a consistent engine *)

Lemma writer_ok_files a w w' :
  os.files w' = os.files w -> writer_ok a w -> writer_ok a w'.
Proof. unfold writer_ok. intros ->. done. Qed.

Lemma fresh_tick w : fresh w -> fresh (os.UnixMicro w).2.
Proof. intros Hf j Hj. cbn in *. apply Hf. lia. Qed.

Lemma uint32_small z : 0 <= z < 2 ^ 32 -> uint32 z = z.
Proof. intros H. unfold uint32. by apply Z.mod_small. Qed.

(** The index entry built from the result of a write points at the record
    written. *)
Lemma write_effect_located a w key value t pos a' w' :
  writer_ok a w -> sized key value ->
  write_effect a w (recfmt.CompressDataFileRec key value t) pos a' w' ->
  located w' key
    {| recfmt.FileId := datastore.Name a'; recfmt.ValuePos := uint32 pos;
       recfmt.RecValueSize := uint32 (len value); recfmt.RecTstamp := t |}
    value.
Proof.
  intros Hw Hs Heff.
  pose proof (write_effect_writer _ _ _ _ _ _ Hw Heff) as Hw'.
  destruct (write_effect_record _ _ _ _ _ _ Hw Heff) as (Hpos & content & Hcont & Hdrop).
  destruct Hs as [Hk Hv]. pose proof (len_nonneg key). pose proof (len_nonneg value).
  split; [done|]. split.
  { destruct Hw' as [_ Hw']. pose proof (write_effect_open _ _ _ _ _ _ Heff) as Hopen.
    cbn [recfmt.FileId]. unfold datastore.Name.
    destruct (datastore.fileWrapper a'); [|done]. by destruct Hw' as (_ & Hn & _). }
  cbn [recfmt.ValuePos recfmt.RecValueSize recfmt.FileId].
  unfold datastore.maxFileSize in Hpos.
  rewrite !uint32_small by lia.
  split; [lia|]. split; [done|].
  exists content, t. split; [done|]. rewrite Hdrop.
  apply take_ge. pose proof (length_CompressDataFileRec key value t). lia.
Qed.

Lemma Put_consistent fuel b w key value :
  consistent b w -> sized key value ->
  exists b' w' rec,
    bitcask.Put fuel b w key value = Done (None, b', w') /\
    consistent b' w' /\
    bitcask.keyDir b' = <[key := rec]> (bitcask.keyDir b) /\
    located w' key rec value /\
    extends w w'.
Proof.
  intros Hc Hs. destruct Hc as [Hrw Hact Hw Hidx Hnm Hfr Hcl [Hrf Hwf]].
  unfold bitcask.Put. rewrite decide_False by (rewrite Hrw; done).
  destruct (os.UnixMicro w) as [t w1] eqn:Ht.
  assert (Hfiles1 : os.files w1 = os.files w) by (by injection Ht as <- <-).
  assert (Hclock1 : os.clock w1 = os.clock w) by (by injection Ht as <- <-).
  assert (Hrf1 : os.rfaults w1 = []) by (by injection Ht as <- <-).
  assert (Hwf1 : os.wfaults w1 = []) by (by injection Ht as <- <-).
  assert (Hfr1 : fresh w1).
  { pose proof (fresh_tick w Hfr) as H. by rewrite Ht in H. }
  assert (Hw1 : writer_ok (bitcask.activeFile b) w1) by (by eapply writer_ok_files).
  assert (Hcl1 : clock_increasing w1).
  { intros i j Hij. rewrite Hclock1. by apply Hcl. }
  destruct (WriteData_effect fuel (bitcask.activeFile b) w1 key value t Hw1 Hwf1 Hfr1)
    as (pos & a' & w' & -> & Heff).
  cbn [mbind outcome_bind].
  pose proof (write_effect_writer _ _ _ _ _ _ Hw1 Heff) as Hw'.
  pose proof (write_effect_extends _ _ _ _ _ _ Hfr1 Heff) as Hext1.
  destruct (write_effect_faults _ _ _ _ _ _ Heff) as [Hrf' Hwf'].
  assert (Hext : extends w w').
  { eapply extends_trans; [|exact Hext1]. by apply extends_same_files. }
  set (rec := {| recfmt.FileId := datastore.Name a'; recfmt.ValuePos := uint32 pos;
                 recfmt.RecValueSize := uint32 (len value); recfmt.RecTstamp := t |}).
  assert (Hloc : located w' key rec value)
    by (by apply (write_effect_located (bitcask.activeFile b) w1)).
  exists (bitcask.set_keyDir (<[key := rec]> (bitcask.keyDir b)) (bitcask.set_activeFile a' b)),
         w', rec.
  split; [done|]. split; [|done].
  split; cbn.
  - done.
  - rewrite (write_effect_type _ _ _ _ _ _ Heff). done.
  - done.
  - intros key0 rec0 Hk0. destruct (decide (key0 = key)) as [->|Hne].
    + rewrite lookup_insert_eq in Hk0. injection Hk0 as <-. by exists value.
    + rewrite lookup_insert_ne in Hk0 by done.
      destruct (Hidx key0 rec0 Hk0) as [v Hv]. exists v. by eapply located_extends.
  - apply (write_effect_names _ _ _ _ _ _ Heff). by rewrite Hfiles1.
  - by eapply write_effect_fresh.
  - intros i j Hij. rewrite (write_effect_clock _ _ _ _ _ _ Heff). by apply Hcl1.
  - split; congruence.
Qed.

Lemma consistent_new_dir : consistent (opened [bitcask.ReadWrite]) new_dir.
Proof.
  split.
  - reflexivity.
  - reflexivity.
  - apply writer_ok_new.
  - intros key rec H. cbn in H. by rewrite lookup_empty in H.
  - reflexivity.
  - apply fresh_new_dir.
  - apply clock_increasing_new_dir.
  - apply no_faults_new_dir.
Qed.

Lemma sized_tombstone key : 18 + len key < 2 ^ 16 -> sized key datastore.TompStone.
Proof.
  intros H. split; [done|]. pose proof (len_nonneg key).
  change (len datastore.TompStone) with 64. lia.
Qed.

(** What C9 says, for the keys the decoder reads back.  On a consistent
    handle a [Put] of the tombstone literal under a key with
    18 + len key < 2^16 succeeds like any other, and the next [Get] of the
    key answers that the key does not exist: the value read back is the
    literal, which [ReadValueFromFile] takes for the mark of a deleted
    key. *)
Theorem Put_tombstone_reads_as_deleted fuel b w key :
  consistent b w -> 18 + len key < 2 ^ 16 ->
  exists b' w',
    bitcask.Put fuel b w key datastore.TompStone = Done (None, b', w') /\
    bitcask.Get fuel b' w' key
    = Done ((""%string, Some (key +:+ ": key does not exist")), w').
Proof.
  intros Hc Hk.
  destruct (Put_consistent fuel b w key datastore.TompStone Hc (sized_tombstone key Hk))
    as (b' & w' & rec & HPut & Hc' & Hkd & Hloc & _).
  exists b', w'. split; [done|].
  rewrite (Get_located fuel b' w' key rec datastore.TompStone).
  - done.
  - by destruct (cons_faults _ _ Hc').
  - rewrite Hkd. apply lookup_insert_eq.
  - done.
Qed.

Lemma Put_tombstone_reads_as_deleted_witness :
  exists b' w',
    bitcask.Put 6 (opened [bitcask.ReadWrite]) new_dir "k" datastore.TompStone
    = Done (None, b', w') /\
    bitcask.Get 6 b' w' "k" = Done ((""%string, Some "k: key does not exist"%string), w').
Proof.
  apply (Put_tombstone_reads_as_deleted 6 (opened [bitcask.ReadWrite]) new_dir "k").
  - apply consistent_new_dir.
  - vm_compute. reflexivity.
Defined.

(** ** The engine: [Merge] *)

Lemma append_assoc s1 s2 s3 : (s1 +:+ s2) +:+ s3 = s1 +:+ (s2 +:+ s3).
Proof.
  induction s1 as [|c s1 IH]; [done|].
  change (String c ((s1 +:+ s2) +:+ s3) = String c (s1 +:+ (s2 +:+ s3))). by rewrite IH.
Qed.

Lemma substring_all s : substring 0 (String.length s) s = s.
Proof. induction s as [|c s IH]; [done|]. simpl. by rewrite IH. Qed.

Lemma substring_append s1 s2 :
  substring (String.length s1) (String.length s2) (s1 +:+ s2) = s2.
Proof. induction s1 as [|c s1 IH]; [apply substring_all|]. exact IH. Qed.

Lemma HasSuffix_append s1 s2 : HasSuffix (s1 +:+ s2) s2 = true.
Proof.
  unfold HasSuffix. rewrite length_append.
  rewrite bool_decide_eq_true_2 by lia.
  replace (String.length s1 + String.length s2 - String.length s2)%nat
    with (String.length s1) by lia.
  rewrite substring_append. apply String.eqb_refl.
Qed.

Lemma HasSuffix_keyNotExist key :
  HasSuffix (datastore.keyNotExist key) datastore.ErrKeyNotExist = true.
Proof.
  unfold datastore.keyNotExist. rewrite <- append_assoc. apply HasSuffix_append.
Qed.

(** A located record stays located while its segment only grows. *)
Lemma located_grow w w' key rec value :
  (forall c, os.files w !! recfmt.FileId rec = Some c ->
             exists extra, os.files w' !! recfmt.FileId rec = Some (c ++ extra)) ->
  located w key rec value -> located w' key rec value.
Proof.
  intros Hext (Hs & Ht & Hpos & Hsz & content & tstamp & Hc & Hrec).
  split; [done|]. split; [done|]. split; [done|]. split; [done|].
  destruct (Hext _ Hc) as [extra Hc'].
  exists (content ++ extra), tstamp. split; [done|].
  rewrite <- Hrec.
  assert (Hlen : (Z.to_nat (recfmt.ValuePos rec) + Z.to_nat (18 + len key + len value)
                  <= length content)%nat).
  { apply (f_equal length) in Hrec. rewrite length_take, length_drop in Hrec.
    pose proof (length_CompressDataFileRec key value tstamp).
    pose proof (len_nonneg key). pose proof (len_nonneg value). lia. }
  rewrite drop_app_le by lia. rewrite take_app_le; [done|].
  rewrite length_drop. lia.
Qed.

Lemma located_same_file w w' key rec value :
  os.files w' !! recfmt.FileId rec = os.files w !! recfmt.FileId rec ->
  located w key rec value -> located w' key rec value.
Proof.
  intros E. apply located_grow. intros c Hc. exists []. by rewrite E, app_nil_r.
Qed.

Lemma grows_refl w : grows w w.
Proof. intros t c H. exists []. by rewrite app_nil_r. Qed.

Lemma grows_trans w1 w2 w3 : grows w1 w2 -> grows w2 w3 -> grows w1 w3.
Proof.
  intros H12 H23 t c H. destruct (H12 t c H) as [e1 H1].
  destruct (H23 t _ H1) as [e2 H2]. exists (e1 ++ e2). by rewrite app_assoc.
Qed.

Lemma extends_grows w w' : extends w w' -> grows w w'.
Proof. intros H t c Hc. by apply H. Qed.

Lemma located_grows w w' key rec value :
  grows w w' -> located w key rec value -> located w' key rec value.
Proof.
  intros Hg Hloc. eapply located_grow; [|done].
  destruct Hloc as (_ & [t Ht] & _). rewrite Ht. apply Hg.
Qed.

Lemma preserves_new w w' nm :
  preserves w w' -> os.files w' !! nm = None -> os.files w !! nm = None.
Proof.
  intros Hp Hn. destruct (os.files w !! nm) as [c|] eqn:E; [|done].
  apply Hp in E. congruence.
Qed.

(** *** The list of old files *)

Lemma listOldFiles_loop_spec b names res :
  ""%string ∉ names ->
  exists old, bitcask.listOldFiles_loop b names res = Done (res ++ old) /\
    (forall nm, nm ∈ old -> nm ∈ names /\ nm <> datastore.Name (bitcask.activeFile b)) /\
    (NoDup names -> NoDup old).
Proof.
  revert res. induction names as [|nm names IH]; intros res Hne.
  - exists []. rewrite app_nil_r. split; [done|]. split; [|done]. intros nm H. by apply elem_of_nil in H.
  - assert (Hne' : ""%string ∉ names) by (intros H; apply Hne; by right).
    destruct nm as [|c nm]; [exfalso; apply Hne; by left|].
    cbn [bitcask.listOldFiles_loop].
    destruct (decide _) as [(Hdot & Hact & Hkd)|Hno].
    + destruct (IH (res ++ [String c nm]) Hne') as (old & -> & Hin & Hnd).
      exists (String c nm :: old). rewrite <- app_assoc. split; [done|]. split.
      * intros x Hx. apply elem_of_cons in Hx as [->|Hx].
        -- split; [by left|done].
        -- destruct (Hin x Hx). split; [by right|done].
      * intros Hnd'. apply NoDup_cons in Hnd' as [Hni Hnd'].
        apply NoDup_cons. split; [|by apply Hnd].
        intros Hx. apply Hni. by apply Hin.
    + destruct (IH res Hne') as (old & -> & Hin & Hnd).
      exists old. split; [done|]. split.
      * intros x Hx. destruct (Hin x Hx). split; [by right|done].
      * intros Hnd'. apply NoDup_cons in Hnd' as [_ Hnd']. by apply Hnd.
Qed.

Lemma listOldFiles_spec b w :
  os.files w !! ""%string = None ->
  exists old, bitcask.listOldFiles b w = Done old /\ NoDup old /\
    forall nm, nm ∈ old ->
      is_Some (os.files w !! nm) /\ nm <> datastore.Name (bitcask.activeFile b).
Proof.
  intros Hn. unfold bitcask.listOldFiles, os.Readdir.
  destruct (listOldFiles_loop_spec b (map_to_list (os.files w)).*1 []) as (old & -> & Hin & Hnd).
  - intros H. apply list_elem_of_fmap in H as [[nm c] [Heq H]]. cbn in Heq. subst nm.
    apply elem_of_map_to_list in H. congruence.
  - exists old. split; [done|]. split; [apply Hnd, NoDup_fst_map_to_list|].
    intros nm H. destruct (Hin nm H) as [H1 H2]. split; [|done].
    apply list_elem_of_fmap in H1 as [[nm' c] [Heq H1]]. cbn in Heq. subst nm'.
    apply elem_of_map_to_list in H1. eauto.
Qed.

Lemma deleteOldFiles_spec fs w :
  NoDup fs -> (forall nm, nm ∈ fs -> is_Some (os.files w !! nm)) ->
  exists w', bitcask.deleteOldFiles fs w = (None, w') /\
    os.clock w' = os.clock w /\ os.ticks w' = os.ticks w /\
    os.rfaults w' = os.rfaults w /\ os.wfaults w' = os.wfaults w /\
    forall nm, os.files w' !! nm = if decide (nm ∈ fs) then None else os.files w !! nm.
Proof.
  revert w. induction fs as [|f fs IH]; intros w Hnd Hex.
  - exists w. do 5 (split; [done|]). intros nm.
    rewrite decide_False; [done|]. apply not_elem_of_nil.
  - apply NoDup_cons in Hnd as [Hni Hnd].
    destruct (Hex f ltac:(by left)) as [c Hc].
    cbn [bitcask.deleteOldFiles]. unfold os.Remove. rewrite Hc.
    destruct (IH (os.set_files (delete f (os.files w)) w) Hnd) as (w' & -> & H1 & H2 & H3 & H4 & H5).
    { intros nm Hnm. cbn. rewrite lookup_delete_ne by (intros ->; done).
      apply Hex. by right. }
    exists w'. do 5 (split; [done|]).
    intros nm. rewrite H5. cbn.
    destruct (decide (nm = f)) as [->|Hne].
    + rewrite (decide_True (P := f ∈ f :: fs)) by (by left).
      destruct (decide _); [done|]. apply lookup_delete_eq.
    + rewrite lookup_delete_ne by done.
      destruct (decide (nm ∈ fs)) as [Hin|Hnin].
      * rewrite decide_True; [done|]. by right.
      * rewrite decide_False; [done|]. intros H. apply elem_of_cons in H as [?|?]; done.
Qed.

(** *** One round of the merge loop *)

Lemma merging_start b w :
  consistent b w -> merging w (datastore.NewAppendFile datastore.Merge) w.
Proof.
  intros Hc. split.
  - apply writer_ok_new.
  - done.
  - apply (cons_fresh _ _ Hc).
  - apply (cons_clock _ _ Hc).
  - apply (cons_faults _ _ Hc).
  - apply (cons_names _ _ Hc).
  - by intros nm c H.
  - done.
  - done.
Qed.

Lemma WriteHint_effect fuel a w key rec h :
  os.wfaults w = [] -> datastore.hintWrapper a = Some h ->
  let buf := recfmt.CompressHintFileRec key rec in
  datastore.WriteHint fuel a w key rec =
  Done (None,
        {| datastore.fileWrapper := datastore.fileWrapper a;
           datastore.hintWrapper :=
             Some {| os.name := os.name h; os.offset := os.offset h + length buf |};
           datastore.fileName := datastore.fileName a;
           datastore.appendType := datastore.appendType a;
           datastore.currentPos := datastore.currentPos a;
           datastore.currentSize := datastore.currentSize a |},
        os.set_files
          (<[os.name h := os.pwrite (os.contents w (os.name h)) (os.offset h) buf]>
             (os.files w)) w).
Proof.
  intros Hf Hh buf. unfold datastore.WriteHint. rewrite Hh.
  fold buf. rewrite Write_ok by done. done.
Qed.

Lemma mergeWrite_dead fuel b w' m key rec0 :
  os.rfaults w' = [] -> bitcask.keyDir b !! key = Some rec0 ->
  located w' key rec0 datastore.TompStone ->
  exists zero,
    bitcask.mergeWrite fuel b m w' key
    = Done ((zero, Some (datastore.keyNotExist key)), m, w').
Proof.
  intros Hf Hk Hloc. unfold bitcask.mergeWrite. rewrite Hk. cbv [default from_option id].
  rewrite (ReadValueFromFile_located fuel w' key rec0 datastore.TompStone) by done.
  cbn [mbind outcome_bind]. unfold read_result. rewrite decide_True by done.
  eauto.
Qed.

Lemma mergeWrite_live fuel b w m w' key rec0 v :
  merging w m w' -> bitcask.keyDir b !! key = Some rec0 ->
  located w' key rec0 v -> v <> datastore.TompStone ->
  exists newRec m' w'',
    bitcask.mergeWrite fuel b m w' key = Done ((newRec, None), m', w'') /\
    merging w m' w'' /\ grows w' w'' /\
    located w'' key newRec v /\
    os.files w !! recfmt.FileId newRec = None.
Proof.
  intros Hm Hk Hloc Hv.
  destruct Hm as [Hw Hty Hfr Hcl [Hrf Hwf] Hnm Hpres Hfnew Hhnew].
  unfold bitcask.mergeWrite. rewrite Hk. cbv [default from_option id].
  rewrite (ReadValueFromFile_located fuel w' key rec0 v) by done.
  cbn [mbind outcome_bind]. unfold read_result. rewrite decide_False by done.
  destruct (os.UnixMicro w') as [t w1] eqn:Ht.
  assert (Hfiles1 : os.files w1 = os.files w') by (by injection Ht as <- <-).
  assert (Hclock1 : os.clock w1 = os.clock w') by (by injection Ht as <- <-).
  assert (Hrf1 : os.rfaults w1 = []) by (by injection Ht as <- <-).
  assert (Hwf1 : os.wfaults w1 = []) by (by injection Ht as <- <-).
  assert (Hfr1 : fresh w1).
  { pose proof (fresh_tick w' Hfr) as H. by rewrite Ht in H. }
  assert (Hw1 : writer_ok m w1) by (by eapply writer_ok_files).
  assert (Hcl1 : clock_increasing w1).
  { intros i j Hij. rewrite Hclock1. by apply Hcl. }
  assert (Hs : sized key v) by (by destruct Hloc).
  destruct (WriteData_effect fuel m w1 key v t Hw1 Hwf1 Hfr1) as (pos & m1 & w2 & -> & Heff).
  cbn [mbind outcome_bind].
  pose proof (write_effect_writer _ _ _ _ _ _ Hw1 Heff) as Hw2.
  pose proof (write_effect_extends _ _ _ _ _ _ Hfr1 Heff) as Hext.
  pose proof (write_effect_fresh _ _ _ _ _ _ Hfr1 Hcl1 Heff) as Hfr2.
  pose proof (write_effect_type _ _ _ _ _ _ Heff) as Hty2.
  pose proof (write_effect_open _ _ _ _ _ _ Heff) as Hopen.
  pose proof (write_effect_located m w1 key v t pos m1 w2 Hw1 Hs Heff) as Hloc2.
  destruct (write_effect_faults _ _ _ _ _ _ Heff) as [Hrf2 Hwf2].
  rewrite Hrf1 in Hrf2. rewrite Hwf1 in Hwf2.
  assert (Hnm2 : os.files w2 !! ""%string = None).
  { apply (write_effect_names _ _ _ _ _ _ Heff). by rewrite Hfiles1. }
  (* the files of the start are untouched by the write *)
  assert (Hpres2 : preserves w w2).
  { intros nm c Hc. pose proof (Hpres nm c Hc) as Hc'. rewrite <- Hfiles1 in Hc'.
    destruct (Hext nm c Hc') as [extra He].
    destruct (write_effect_files _ _ _ _ _ _ Hw1 Hfr1 Heff nm _ He)
      as [[_ Hold]|[[Hnm' [(_ & _ & Hnone & _)|(c0 & Hc0 & _ & Hsame & _)]]|(_ & Hnone & _)]].
    - congruence.
    - congruence.
    - exfalso. rewrite Hnm', Hsame in Hc.
      destruct (datastore.fileWrapper m) as [f|] eqn:Hfw.
      + rewrite Hfnew in Hc; done.
      + destruct Hw as [_ Hw0]. rewrite Hfw in Hw0. destruct Hw0 as [Hempty _].
        rewrite Hnm', Hsame, Hempty, Hfiles1 in Hc0. congruence.
    - congruence. }
  assert (Hfnew2 : os.files w !! datastore.fileName m1 = None).
  { destruct (os.files w !! datastore.fileName m1) as [c|] eqn:E; [|done]. exfalso.
    pose proof (Hpres (datastore.fileName m1) c E) as Hc'.
    rewrite <- Hfiles1 in Hc'.
    destruct (Hext _ c Hc') as [extra He].
    destruct (write_effect_files _ _ _ _ _ _ Hw1 Hfr1 Heff _ _ He)
      as [[Hne _]|[[_ [(_ & _ & Hnone & _)|(c0 & Hc0 & _ & Hsame & _)]]|(_ & Hnone & _)]].
    - done.
    - congruence.
    - rewrite Hsame in E.
      destruct (datastore.fileWrapper m) as [f|] eqn:Hfw.
      + rewrite Hfnew in E; done.
      + destruct Hw as [_ Hw0]. rewrite Hfw in Hw0. destruct Hw0 as [Hempty _].
        rewrite Hsame, Hempty, Hfiles1 in Hc0. congruence.
    - congruence. }
  (* the hint file of the writer *)
  destruct Hw2 as [Hpos2 Hw2']. destruct (datastore.fileWrapper m1) as [f1|] eqn:Hfw1; [|done].
  destruct Hw2' as (Hname1 & Hdn1 & Hcont1 & Hhint1).
  destruct (Hhint1 ltac:(congruence)) as (h & th & Hh & Hhn & Hhex).
  assert (Hhnew2 : os.files w !! os.name h = None).
  { destruct (write_effect_hint _ _ _ _ _ _ Hfr1 Heff h Hh) as [Hold|Hnone].
    - by apply Hhnew.
    - rewrite Hfiles1 in Hnone. by apply (preserves_new w w'). }
  rewrite (WriteHint_effect fuel m1 w2 key _ h Hwf2 Hh).
  cbn [mbind outcome_bind].
  set (newRec := {| recfmt.FileId := datastore.Name m1; recfmt.ValuePos := uint32 pos;
                    recfmt.RecValueSize := uint32 (len v); recfmt.RecTstamp := t |}).
  set (buf := recfmt.CompressHintFileRec key newRec).
  set (w3 := os.set_files _ w2).
  assert (Hother : forall nm, nm <> os.name h -> os.files w3 !! nm = os.files w2 !! nm).
  { intros nm Hne. cbn. by rewrite lookup_insert_ne. }
  assert (Hdata : forall t0, datastore.dataName t0 <> os.name h).
  { intros t0. rewrite Hhn. apply dataName_hintName. }
  eexists newRec, _, w3. split; [reflexivity|]. split; [|split; [|split]].
  - assert (Hexists : forall nm, os.files w2 !! nm = None -> nm <> os.name h).
    { intros nm Hn E. rewrite E in Hn. destruct Hhex. congruence. }
    split.
    + split; [done|]. cbn [datastore.fileWrapper datastore.fileName datastore.hintWrapper
                           datastore.appendType datastore.currentSize].
      rewrite Hfw1. split; [done|]. split; [done|]. split.
      * destruct Hcont1 as (content & Hc & Hoff & Hsz). exists content.
        split; [|done]. rewrite Hother; [done|].
        destruct Hdn1 as [t1 Ht1]. rewrite Ht1. apply Hdata.
      * intros _. eexists _, th. split; [reflexivity|]. split; [done|].
        subst w3. cbn. rewrite lookup_insert_eq. eauto.
    + cbn. congruence.
    + intros j Hj. destruct (Hfr2 j Hj) as [Hd Hhh].
      change (os.ticks w3) with (os.ticks w2) in Hj.
      change (os.clock w3) with (os.clock w2).
      rewrite !Hother by (by apply Hexists). done.
    + intros i j Hij. change (os.clock w3) with (os.clock w2).
      rewrite (write_effect_clock _ _ _ _ _ _ Heff). by apply Hcl1.
    + by split.
    + rewrite Hother by (by apply Hexists). done.
    + intros nm c Hc. rewrite Hother; [by apply Hpres2|].
      intros E. rewrite E in Hc. congruence.
    + done.
    + intros h' Hh'. injection Hh' as <-. done.
  - intros t0 c Hc. rewrite <- Hfiles1 in Hc.
    destruct (Hext _ c Hc) as [extra He]. exists extra.
    rewrite Hother; [done|]. apply Hdata.
  - apply (located_same_file w2); [|done].
    apply Hother. cbn [newRec recfmt.FileId]. unfold datastore.Name.
    destruct Hdn1 as [t1 ->]. apply Hdata.
  - done.
Qed.

(** *** The whole loop *)

Lemma located_preserves w w' key rec value :
  preserves w w' -> located w key rec value -> located w' key rec value.
Proof.
  intros Hp. apply located_grow. intros c Hc. exists []. rewrite app_nil_r. by apply Hp.
Qed.

Lemma merged_grows b w nk w' w'' key rec0 :
  grows w' w'' -> merged b w nk w' key rec0 -> merged b w nk w'' key rec0.
Proof.
  intros Hg. unfold merged. destruct (decide _); [done|].
  intros (v & Hloc & H). exists v. split; [done|].
  destruct (decide _); [done|]. destruct H as (rec' & H1 & H2 & H3).
  exists rec'. split; [done|]. split; [by eapply located_grows|done].
Qed.

Lemma merged_same_entry b w nk nk' w' key rec0 :
  nk' !! key = nk !! key -> merged b w nk w' key rec0 -> merged b w nk' w' key rec0.
Proof. unfold merged. by intros ->. Qed.

Lemma Merge_loop_ok fuel b w es :
  consistent b w ->
  forall nk m w',
    merging w m w' ->
    (forall key rec0, (key, rec0) ∈ es -> bitcask.keyDir b !! key = Some rec0) ->
    NoDup es.*1 ->
    (forall key, key ∈ es.*1 -> nk !! key = None) ->
    exists nk' m' w'',
      bitcask.Merge_loop fuel b es nk m w' = Done (None, nk', m', w'') /\
      merging w m' w'' /\ grows w' w'' /\
      (forall key, key ∉ es.*1 -> nk' !! key = nk !! key) /\
      (forall key rec0, (key, rec0) ∈ es -> merged b w nk' w'' key rec0).
Proof.
  intros Hc. induction es as [|[key rec0] es IH]; intros nk m w' Hm Hin Hnd Hnk.
  - exists nk, m, w'. split; [done|]. split; [done|]. split; [apply grows_refl|].
    split; [done|]. intros key rec0 H. by apply elem_of_nil in H.
  - cbn [fmap list_fmap] in Hnd. apply NoDup_cons in Hnd as [Hni Hnd].
    assert (Hk : bitcask.keyDir b !! key = Some rec0) by (apply Hin; by left).
    assert (Hin' : forall k r, (k, r) ∈ es -> bitcask.keyDir b !! k = Some r).
    { intros k r H. apply Hin. by right. }
    assert (Hhead : forall nk2 nk3 w2 w3,
               (forall k, k ∉ es.*1 -> nk3 !! k = nk2 !! k) -> grows w2 w3 ->
               merged b w nk2 w2 key rec0 ->
               (forall k r, (k, r) ∈ es -> merged b w nk3 w3 k r) ->
               forall k r, (k, r) ∈ (key, rec0) :: es -> merged b w nk3 w3 k r).
    { intros nk2 nk3 w2 w3 Hsame Hg Hmk Htail k r H.
      apply elem_of_cons in H as [H|H]; [|by apply Htail].
      injection H as -> ->. eapply merged_grows; [done|].
      eapply merged_same_entry; [|done]. by apply Hsame. }
    cbn [bitcask.Merge_loop].
    destruct (decide (recfmt.FileId rec0 <> datastore.Name (bitcask.activeFile b)))
      as [Hne|Heq].
    + (* an entry of an old segment *)
      destruct (cons_index _ _ Hc key rec0 Hk) as [v Hloc].
      pose proof (located_preserves w w' key rec0 v (mg_preserves _ _ _ Hm) Hloc) as Hloc'.
      destruct (decide (v = datastore.TompStone)) as [->|Hlive].
      * destruct (mergeWrite_dead fuel b w' m key rec0) as [zero ->];
          [by destruct (mg_faults _ _ _ Hm)|done|done|].
        cbn [mbind outcome_bind]. rewrite HasSuffix_keyNotExist. cbn [negb].
        destruct (IH nk m w' Hm Hin' Hnd) as (nk' & m' & w'' & -> & Hm' & Hg & Hsame & Hmerged).
        { intros k H. apply Hnk. cbn. by right. }
        exists nk', m', w''. split; [done|]. split; [done|]. split; [done|]. split.
        -- intros k H. apply Hsame. intros H'. apply H. cbn. by right.
        -- apply (Hhead nk nk' w' w''); [done|done| |done].
           unfold merged. rewrite decide_False by done.
           exists datastore.TompStone. split; [done|]. rewrite decide_True by done.
           apply Hnk. cbn. by left.
      * destruct (mergeWrite_live fuel b w m w' key rec0 v Hm Hk Hloc' Hlive)
          as (newRec & m1 & w1 & -> & Hm1 & Hg1 & Hloc1 & Hnew1).
        cbn [mbind outcome_bind].
        destruct (IH (<[key := newRec]> nk) m1 w1 Hm1 Hin' Hnd)
          as (nk' & m' & w'' & -> & Hm' & Hg & Hsame & Hmerged).
        { intros k H. rewrite lookup_insert_ne by (intros ->; done).
          apply Hnk. cbn. by right. }
        exists nk', m', w''. split; [done|]. split; [done|].
        split; [by eapply grows_trans|]. split.
        -- intros k H. rewrite Hsame by (intros H'; apply H; cbn; by right).
           apply lookup_insert_ne. intros ->. apply H. cbn. by left.
        -- apply (Hhead (<[key := newRec]> nk) nk' w1 w''); [done|done| |done].
           unfold merged. rewrite decide_False by done.
           exists v. split; [done|]. rewrite decide_False by done.
           exists newRec. rewrite lookup_insert_eq. done.
    + (* an entry of the active segment *)
      assert (Heq' : recfmt.FileId rec0 = datastore.Name (bitcask.activeFile b)).
      { destruct (decide (recfmt.FileId rec0 = datastore.Name (bitcask.activeFile b)));
          [done|by exfalso; apply Heq]. }
      destruct (IH (<[key := rec0]> nk) m w' Hm Hin' Hnd)
        as (nk' & m' & w'' & -> & Hm' & Hg & Hsame & Hmerged).
      { intros k H. rewrite lookup_insert_ne by (intros ->; done).
        apply Hnk. cbn. by right. }
      exists nk', m', w''. split; [done|]. split; [done|]. split; [done|]. split.
      * intros k H. rewrite Hsame by (intros H'; apply H; cbn; by right).
        apply lookup_insert_ne. intros ->. apply H. cbn. by left.
      * apply (Hhead (<[key := rec0]> nk) nk' w' w''); [done|done| |done].
        unfold merged. rewrite decide_True by done. apply lookup_insert_eq.
Qed.

(** *** [Merge] on a consistent engine *)

Lemma range_entries range (m : gmap string recfmt.KeyDirRec) :
  range_ok range ->
  NoDup (range m).*1 /\
  forall key rec, (key, rec) ∈ range m <-> m !! key = Some rec.
Proof.
  intros Hr. split.
  - rewrite (Hr m). apply NoDup_fst_map_to_list.
  - intros key rec. rewrite (Hr m). apply elem_of_map_to_list.
Qed.

Lemma Merge_consistent fuel range b w :
  consistent b w -> range_ok range ->
  exists b' w',
    bitcask.Merge fuel range b w = Done (None, b', w') /\
    consistent b' w' /\
    (forall key rec0, bitcask.keyDir b !! key = Some rec0 ->
       merged b w (bitcask.keyDir b') w' key rec0) /\
    (forall key, bitcask.keyDir b !! key = None -> bitcask.keyDir b' !! key = None) /\
    (forall key rec, bitcask.keyDir b !! key = Some rec ->
       recfmt.FileId rec = datastore.Name (bitcask.activeFile b) ->
       os.files w' !! recfmt.FileId rec = os.files w !! recfmt.FileId rec).
Proof.
  intros Hc Hr. destruct (range_entries range (bitcask.keyDir b) Hr) as [Hnd Hes].
  unfold bitcask.Merge. rewrite decide_False by (rewrite (cons_rw _ _ Hc); done).
  destruct (listOldFiles_spec b w (cons_names _ _ Hc)) as (old & -> & Hndold & Hold).
  cbn [mbind outcome_bind].
  destruct (Merge_loop_ok fuel b w (range (bitcask.keyDir b)) Hc ∅
              (datastore.NewAppendFile datastore.Merge) w (merging_start b w Hc))
    as (nk & m & w2 & -> & Hm & Hg & Hsame & Hmerged).
  { intros key rec0 H. by apply Hes. }
  { done. }
  { intros key _. apply lookup_empty. }
  cbn [mbind outcome_bind].
  pose proof (mg_preserves _ _ _ Hm) as Hpres.
  destruct (deleteOldFiles_spec old w2 Hndold) as (w3 & Hdel & Hcl3 & Htk3 & Hrf3 & Hwf3 & Hlook).
  { intros nm Hnm. destruct (Hold nm Hnm) as [[c Hc'] _]. exists c. by apply Hpres. }
  rewrite Hdel.
  exists (bitcask.set_keyDir nk b), w3. split; [done|].
  (* files that the merge made, and the active segment, survive the deletion *)
  assert (HA : forall nm, os.files w !! nm = None -> os.files w3 !! nm = os.files w2 !! nm).
  { intros nm Hn. rewrite Hlook. rewrite decide_False; [done|].
    intros Hin. destruct (Hold nm Hin) as [[c Hc'] _]. congruence. }
  assert (HB : forall c, os.files w !! datastore.Name (bitcask.activeFile b) = Some c ->
                         os.files w3 !! datastore.Name (bitcask.activeFile b) = Some c).
  { intros c Hc'. rewrite Hlook. rewrite decide_False; [by apply Hpres|].
    intros Hin. by destruct (Hold _ Hin) as [_ Hne]. }
  assert (Hfinal : forall key rec0, bitcask.keyDir b !! key = Some rec0 ->
                     merged b w nk w3 key rec0).
  { intros key rec0 Hk. apply Hes in Hk. pose proof (Hmerged key rec0 Hk) as H.
    unfold merged in *. destruct (decide _); [done|].
    destruct H as (v & Hloc & H). exists v. split; [done|].
    destruct (decide _); [done|]. destruct H as (rec' & H1 & H2 & H3).
    exists rec'. split; [done|]. split; [|done].
    apply (located_same_file w2); [|done]. by apply HA. }
  assert (Habsent : forall key, bitcask.keyDir b !! key = None -> nk !! key = None).
  { intros key Hk. rewrite Hsame; [apply lookup_empty|].
    intros Hin. apply list_elem_of_fmap in Hin as [[k r] [E Hin]]. cbn in E. subst k.
    apply Hes in Hin. congruence. }
  assert (Hact : forall key rec, bitcask.keyDir b !! key = Some rec ->
            recfmt.FileId rec = datastore.Name (bitcask.activeFile b) ->
            os.files w3 !! recfmt.FileId rec = os.files w !! recfmt.FileId rec).
  { intros key rec Hk E. destruct (cons_index _ _ Hc key rec Hk) as [v Hloc].
    destruct Hloc as (_ & _ & _ & _ & c & t & Hc' & _).
    rewrite Hc'. rewrite E in *. by apply HB. }
  split; [|done].
  split; cbn.
  - apply (cons_rw _ _ Hc).
  - apply (cons_active _ _ Hc).
  - pose proof (cons_writer _ _ Hc) as [Hpos Hw]. split; [done|].
    destruct (datastore.fileWrapper (bitcask.activeFile b)) as [f|]; [|done].
    destruct Hw as (Hname & Ht & (c & Hc' & Hoff & Hsz) & Hhint).
    split; [done|]. split; [done|]. split.
    + exists c. split; [|done]. by apply HB.
    + intros Hty. rewrite (cons_active _ _ Hc) in Hty. done.
  - intros key rec Hk.
    destruct (bitcask.keyDir b !! key) as [rec0|] eqn:Hk0;
      [|rewrite (Habsent key Hk0) in Hk; done].
    pose proof (Hfinal key rec0 Hk0) as H. unfold merged in H.
    destruct (decide _) as [E|E].
    + assert (rec = rec0) as -> by congruence.
      destruct (cons_index _ _ Hc key rec0 Hk0) as [v Hloc]. exists v.
      apply (located_same_file w); [|done]. by apply (Hact key).
    + destruct H as (v & Hloc & H). destruct (decide _); [congruence|].
      destruct H as (rec' & H1 & H2 & _). exists v. congruence.
  - rewrite Hlook. destruct (decide _); [done|]. apply (mg_names _ _ _ Hm).
  - intros j Hj. rewrite Htk3 in Hj. rewrite Hcl3, !Hlook.
    destruct (mg_fresh _ _ _ Hm j Hj) as [Hd Hh].
    split; destruct (decide _); done.
  - intros i j Hij. rewrite Hcl3. by apply (mg_clock _ _ _ Hm).
  - destruct (mg_faults _ _ _ Hm). split; congruence.
Qed.

(** C3, amended.  On a consistent engine [Merge] returns nil, and for every
    entry of the index it started with: an entry of the active segment is
    in the new index as it was; a key of another segment whose stored value
    is the tombstone is not in the new index; and every other key is in the
    new index with an entry that points into a segment the merge has made,
    at a record holding the value the key had, which [Get] returns. *)
Theorem Merge_rewrites_the_index fuel range b w :
  consistent b w -> range_ok range ->
  exists b' w',
    bitcask.Merge fuel range b w = Done (None, b', w') /\
    forall key rec v,
      bitcask.keyDir b !! key = Some rec -> located w key rec v ->
      if decide (recfmt.FileId rec = datastore.Name (bitcask.activeFile b))
      then bitcask.keyDir b' !! key = Some rec /\ located w' key rec v
      else if decide (v = datastore.TompStone)
      then bitcask.keyDir b' !! key = None
      else exists rec',
          bitcask.keyDir b' !! key = Some rec' /\
          os.files w !! recfmt.FileId rec' = None /\
          located w' key rec' v /\
          bitcask.Get fuel b' w' key = Done ((v, None), w').
Proof.
  intros Hc Hr.
  destruct (Merge_consistent fuel range b w Hc Hr) as (b' & w' & HM & Hc' & Hmerged & _ & Hact).
  exists b', w'. split; [done|]. intros key rec v Hk Hloc.
  pose proof (Hmerged key rec Hk) as H. unfold merged in H.
  destruct (decide (recfmt.FileId rec = _)) as [E|E].
  - split; [done|]. apply (located_same_file w); [|done]. by apply (Hact key).
  - destruct H as (v' & Hloc' & H).
    assert (v' = v) as -> by (by eapply located_unique).
    destruct (decide (v = _)) as [Ev|Ev]; [done|].
    destruct H as (rec' & H1 & H2 & H3). exists rec'.
    split; [done|]. split; [done|]. split; [done|].
    rewrite (Get_located fuel b' w' key rec' v); [|by destruct (cons_faults _ _ Hc')|done|done].
    unfold read_result. by rewrite decide_False.
Qed.

Lemma range_ok_map_to_list : range_ok map_to_list.
Proof. by intros m. Qed.

Lemma consistent_reopen b w :
  consistent b w ->
  consistent (bitcask.set_activeFile (datastore.NewAppendFile datastore.Active) b) w.
Proof.
  intros [Hrw Hact Hw Hidx Hnm Hfr Hcl Hf]. split; cbn; try done.
Qed.

Lemma consistent_reopened_state : consistent reopened_state.1 reopened_state.2.
Proof.
  destruct (Put_consistent 6 (opened [bitcask.ReadWrite]) new_dir "old" "1")
    as (b' & w' & rec & HPut & Hc' & _).
  - apply consistent_new_dir.
  - split; vm_compute; reflexivity.
  - unfold reopened_state. rewrite HPut. cbn [fst snd]. by apply consistent_reopen.
Qed.

Lemma Merge_rewrites_the_index_witness :
  exists b' w',
    bitcask.Merge 6 map_to_list reopened_state.1 reopened_state.2 = Done (None, b', w') /\
    forall key rec v,
      bitcask.keyDir reopened_state.1 !! key = Some rec ->
      located reopened_state.2 key rec v ->
      if decide (recfmt.FileId rec = datastore.Name (bitcask.activeFile reopened_state.1))
      then bitcask.keyDir b' !! key = Some rec /\ located w' key rec v
      else if decide (v = datastore.TompStone)
      then bitcask.keyDir b' !! key = None
      else exists rec',
          bitcask.keyDir b' !! key = Some rec' /\
          os.files reopened_state.2 !! recfmt.FileId rec' = None /\
          located w' key rec' v /\
          bitcask.Get 6 b' w' key = Done ((v, None), w').
Proof.
  apply (Merge_rewrites_the_index 6 map_to_list reopened_state.1 reopened_state.2).
  - apply consistent_reopened_state.
  - apply range_ok_map_to_list.
Defined.

(** C3 as stated fails: the stored value of ["k"] is the tombstone, and
    ["k"] is in the index after the merge, because its entry is in the
    active segment. *)
Lemma Merge_keeps_a_tombstone_of_the_active_segment :
  bitcask.keyDir deleted_state.1 !! "k"%string = Some deleted_entry /\
  located deleted_state.2 "k" deleted_entry datastore.TompStone /\
  exists b' w',
    bitcask.Merge 6 map_to_list deleted_state.1 deleted_state.2 = Done (None, b', w') /\
    bitcask.keyDir b' !! "k"%string = Some deleted_entry.
Proof.
  split; [vm_compute; reflexivity|]. split.
  - split; [split; vm_compute; reflexivity|].
    split; [exists 1700000000000001; vm_compute; reflexivity|].
    split; [vm_compute; discriminate|].
    split; [vm_compute; reflexivity|].
    exists (os.contents deleted_state.2 "1700000000000001.data"), 1700000000000002.
    split; vm_compute; reflexivity.
  - do 2 eexists. split; [vm_compute; reflexivity|]. vm_compute. reflexivity.
Qed.

(** ** Runs of operations *)

Lemma read_result_tombstone key : read_result key datastore.TompStone = not_found key.
Proof. unfold read_result. by rewrite decide_True. Qed.

Lemma read_result_live key v : v <> datastore.TompStone -> read_result key v = (v, None).
Proof. intros H. unfold read_result. by rewrite decide_False. Qed.

Lemma Get_cases fuel b w key :
  consistent b w ->
  (bitcask.keyDir b !! key = None /\ bitcask.Get fuel b w key = Done (not_found key, w)) \/
  (exists rec v, bitcask.keyDir b !! key = Some rec /\ located w key rec v /\
                 bitcask.Get fuel b w key = Done (read_result key v, w)).
Proof.
  intros Hc. destruct (bitcask.keyDir b !! key) as [rec|] eqn:Hk.
  - right. destruct (cons_index _ _ Hc key rec Hk) as [v Hloc]. exists rec, v.
    split; [done|]. split; [done|]. apply (Get_located fuel b w key rec v); [|done|done].
    by destruct (cons_faults _ _ Hc).
  - left. split; [done|]. by apply Get_absent.
Qed.

(** [Get] answers the same after a step that keeps the entry of the key
    located at its value, or drops an entry whose value is the tombstone. *)
Lemma Get_stable fuel b w b' w' key r :
  consistent b w -> consistent b' w' ->
  (bitcask.keyDir b !! key = None -> bitcask.keyDir b' !! key = None) ->
  (forall rec v, bitcask.keyDir b !! key = Some rec -> located w key rec v ->
     (v = datastore.TompStone /\ bitcask.keyDir b' !! key = None) \/
     exists rec', bitcask.keyDir b' !! key = Some rec' /\ located w' key rec' v) ->
  bitcask.Get fuel b w key = Done (r, w) ->
  bitcask.Get fuel b' w' key = Done (r, w').
Proof.
  intros Hc Hc' Hnone Hsome HGet.
  assert (Hrf' : os.rfaults w' = []) by (by destruct (cons_faults _ _ Hc')).
  destruct (Get_cases fuel b w key Hc) as [[Hk HG]|(rec & v & Hk & Hloc & HG)];
    rewrite HG in HGet; injection HGet as <-.
  - by apply Get_absent, Hnone.
  - destruct (Hsome rec v Hk Hloc) as [[-> Hk']|(rec' & Hk' & Hloc')].
    + rewrite read_result_tombstone. by apply Get_absent.
    + by apply (Get_located fuel b' w' key rec' v).
Qed.

Lemma Put_step fuel b w key value :
  consistent b w -> sized key value ->
  exists b' w',
    bitcask.Put fuel b w key value = Done (None, b', w') /\
    consistent b' w' /\
    bitcask.Get fuel b' w' key = Done (read_result key value, w') /\
    forall k r, k <> key ->
      bitcask.Get fuel b w k = Done (r, w) -> bitcask.Get fuel b' w' k = Done (r, w').
Proof.
  intros Hc Hs.
  destruct (Put_consistent fuel b w key value Hc Hs)
    as (b' & w' & rec & HPut & Hc' & Hkd & Hloc & Hext).
  exists b', w'. split; [done|]. split; [done|]. split.
  - apply (Get_located fuel b' w' key rec value); [by destruct (cons_faults _ _ Hc')| |done].
    rewrite Hkd. apply lookup_insert_eq.
  - intros k r Hne. apply Get_stable; [done|done| |].
    + intros Hk. rewrite Hkd. by rewrite lookup_insert_ne.
    + intros rec0 v Hk Hloc0. right. exists rec0. split.
      * rewrite Hkd. by rewrite lookup_insert_ne.
      * by eapply located_extends.
Qed.

Lemma Delete_step fuel b w key :
  consistent b w ->
  exists e b' w',
    bitcask.Delete fuel b w key = Done (e, b', w') /\
    consistent b' w' /\
    bitcask.Get fuel b' w' key = Done (not_found key, w') /\
    forall k r, k <> key ->
      bitcask.Get fuel b w k = Done (r, w) -> bitcask.Get fuel b' w' k = Done (r, w').
Proof.
  intros Hc. unfold bitcask.Delete.
  rewrite decide_False by (rewrite (cons_rw _ _ Hc); done).
  assert (Hdead : bitcask.Get fuel b w key = Done (not_found key, w) ->
            exists e b' w',
              (let (p, w0) := (not_found key, w) in
               let (_, err) := p in
               match err with
               | Some e => Done (Some e, b, w0)
               | None => '(_, b0, w1) ← bitcask.Put fuel b w0 key datastore.TompStone;
                         Done (None, b0, w1)
               end) = Done (e, b', w') /\
              consistent b' w' /\
              bitcask.Get fuel b' w' key = Done (not_found key, w') /\
              forall k r, k <> key ->
                bitcask.Get fuel b w k = Done (r, w) -> bitcask.Get fuel b' w' k = Done (r, w')).
  { intros HG. exists (Some (datastore.keyNotExist key)), b, w. cbn. done. }
  destruct (Get_cases fuel b w key Hc) as [[Hk HG]|(rec & v & Hk & Hloc & HG)];
    rewrite HG; cbn [mbind outcome_bind].
  - by apply Hdead.
  - destruct (decide (v = datastore.TompStone)) as [->|Hlive].
    + rewrite read_result_tombstone in *. by apply Hdead.
    + rewrite read_result_live by done.
      assert (Hs : sized key datastore.TompStone).
      { apply sized_tombstone. by destruct Hloc as ([Hk' _] & _). }
      destruct (Put_step fuel b w key datastore.TompStone Hc Hs)
        as (b' & w' & -> & Hc' & HG' & Hst).
      cbn [mbind outcome_bind]. exists None, b', w'.
      split; [done|]. split; [done|]. split; [|done].
      by rewrite read_result_tombstone in HG'.
Qed.

Lemma Merge_step fuel range b w :
  consistent b w -> range_ok range ->
  exists b' w',
    bitcask.Merge fuel range b w = Done (None, b', w') /\
    consistent b' w' /\
    forall k r,
      bitcask.Get fuel b w k = Done (r, w) -> bitcask.Get fuel b' w' k = Done (r, w').
Proof.
  intros Hc Hr.
  destruct (Merge_consistent fuel range b w Hc Hr)
    as (b' & w' & HM & Hc' & Hmerged & Habsent & Hact).
  exists b', w'. split; [done|]. split; [done|].
  intros k r. apply Get_stable; [done|done|by apply Habsent|].
  intros rec v Hk Hloc. pose proof (Hmerged k rec Hk) as H. unfold merged in H.
  destruct (decide (recfmt.FileId rec = _)) as [E|E].
  - right. exists rec. split; [done|].
    apply (located_same_file w); [|done]. by apply (Hact k).
  - destruct H as (v' & Hloc' & H).
    assert (v' = v) as -> by (by eapply located_unique).
    destruct (decide (v = _)) as [Ev|Ev]; [by left|].
    destruct H as (rec' & H1 & H2 & _). right. by exists rec'.
Qed.

Lemma Fold_loop_consistent {A : Type} fuel (fn : string -> string -> A -> A) b w keys :
  consistent b w ->
  forall acc, exists acc', bitcask.Fold_loop fuel fn b keys acc w = Done (acc', w).
Proof.
  intros Hc. induction keys as [|key keys IH]; intros acc; cbn [bitcask.Fold_loop].
  - by exists acc.
  - destruct (Get_consistent fuel b w key Hc) as [[value err] ->].
    cbn [mbind outcome_bind]. apply IH.
Qed.

Section run_facts.
Variable fuel : nat.
Variable range : gmap string recfmt.KeyDirRec -> list (string * recfmt.KeyDirRec).
Hypothesis Hrange : range_ok range.

(** A step of a run on a consistent engine returns, leaves the engine
    consistent, leaves the answer of [Get] for the keys it does not write,
    and leaves a key it deletes not found. *)
Lemma exec_step o b w :
  consistent b w -> op_sized o ->
  exists b' w',
    exec fuel range o b w = Done (b', w') /\
    consistent b' w' /\
    (forall k r, ~ writes k o ->
       bitcask.Get fuel b w k = Done (r, w) -> bitcask.Get fuel b' w' k = Done (r, w')) /\
    (forall k, o = OpDelete k -> bitcask.Get fuel b' w' k = Done (not_found k, w')) /\
    (forall k v, o = OpPut k v -> bitcask.Get fuel b' w' k = Done (read_result k v, w')).
Proof.
  intros Hc Hs. destruct o as [key value|key|key| | | |]; cbn [exec op_sized] in *.
  - destruct (Put_step fuel b w key value Hc Hs) as (b' & w' & -> & Hc' & HG & Hst).
    cbn [mbind outcome_bind]. exists b', w'. split; [done|]. split; [done|].
    split; [|split].
    + intros k r Hw. apply Hst. intros ->. by apply Hw.
    + intros k [=].
    + intros k v [= <- <-]. done.
  - destruct (Delete_step fuel b w key Hc) as (e & b' & w' & -> & Hc' & HG & Hst).
    cbn [mbind outcome_bind]. exists b', w'. split; [done|]. split; [done|].
    split; [|split].
    + intros k r Hw. apply Hst. intros ->. by apply Hw.
    + intros k [= <-]. done.
    + intros k v [=].
  - destruct (Get_consistent fuel b w key Hc) as [r ->].
    cbn [mbind outcome_bind]. exists b, w. split; [done|]. split; [done|].
    split; [done|]. split; [intros k [=]|intros k v [=]].
  - destruct (Merge_step fuel range b w Hc Hrange) as (b' & w' & -> & Hc' & Hst).
    cbn [mbind outcome_bind]. exists b', w'. split; [done|]. split; [done|].
    split; [|split].
    + intros k r _. apply Hst.
    + intros k [=].
    + intros k v [=].
  - unfold bitcask.Sync. rewrite decide_False by (rewrite (cons_rw _ _ Hc); done).
    cbn [mbind outcome_bind]. exists b, w. split; [done|]. split; [done|].
    split; [done|]. split; [intros k [=]|intros k v [=]].
  - exists b, w. split; [done|]. split; [done|].
    split; [done|]. split; [intros k [=]|intros k v [=]].
  - unfold bitcask.Fold.
    destruct (Fold_loop_consistent fuel (fun _ _ (acc : unit) => acc) b w
                (range (bitcask.keyDir b)).*1 Hc tt) as [acc' ->].
    cbn [mbind outcome_bind]. exists b, w. split; [done|]. split; [done|].
    split; [done|]. split; [intros k [=]|intros k v [=]].
Qed.

Lemma run_app ops1 ops2 b w :
  run fuel range (ops1 ++ ops2) b w =
  '(b1, w1) ← run fuel range ops1 b w; run fuel range ops2 b1 w1.
Proof.
  revert b w. induction ops1 as [|o ops1 IH]; intros b w; cbn [run app].
  - done.
  - destruct (exec fuel range o b w) as [[b1 w1]| |]; cbn [mbind outcome_bind]; [apply IH|done|done].
Qed.

Lemma run_consistent ops b w :
  consistent b w -> Forall op_sized ops ->
  exists b' w', run fuel range ops b w = Done (b', w') /\ consistent b' w'.
Proof.
  revert b w. induction ops as [|o ops IH]; intros b w Hc Hs.
  - by exists b, w.
  - apply Forall_cons in Hs as [Ho Hs]. cbn [run].
    destruct (exec_step o b w Hc Ho) as (b1 & w1 & -> & Hc1 & _).
    cbn [mbind outcome_bind]. by apply IH.
Qed.

(** A value stays while no later operation writes the key. *)
Lemma run_keeps_value ops b w key r :
  consistent b w -> Forall op_sized ops ->
  Forall (fun o => ~ writes key o) ops ->
  bitcask.Get fuel b w key = Done (r, w) ->
  exists b' w', run fuel range ops b w = Done (b', w') /\
                bitcask.Get fuel b' w' key = Done (r, w').
Proof.
  revert b w. induction ops as [|o ops IH]; intros b w Hc Hs Hw HG.
  - by exists b, w.
  - apply Forall_cons in Hs as [Ho Hs]. apply Forall_cons in Hw as [Hwo Hw]. cbn [run].
    destruct (exec_step o b w Hc Ho) as (b1 & w1 & -> & Hc1 & Hst & _).
    cbn [mbind outcome_bind]. apply IH; [done|done|done|]. by apply Hst.
Qed.

(** A key stays not found while no later operation puts it. *)
Lemma run_keeps_not_found ops b w key :
  consistent b w -> Forall op_sized ops ->
  Forall (fun o => ~ puts key o) ops ->
  bitcask.Get fuel b w key = Done (not_found key, w) ->
  exists b' w', run fuel range ops b w = Done (b', w') /\
                bitcask.Get fuel b' w' key = Done (not_found key, w').
Proof.
  revert b w. induction ops as [|o ops IH]; intros b w Hc Hs Hw HG.
  - by exists b, w.
  - apply Forall_cons in Hs as [Ho Hs]. apply Forall_cons in Hw as [Hwo Hw]. cbn [run].
    destruct (exec_step o b w Hc Ho) as (b1 & w1 & -> & Hc1 & Hst & Hdel & _).
    cbn [mbind outcome_bind]. apply IH; [done|done|done|].
    destruct o as [k v|k|k| | | |]; cbn in Hwo.
    + apply Hst; [|done]. cbn. done.
    + destruct (decide (k = key)) as [->|Hne]; [by apply Hdel|].
      apply Hst; [|done]. cbn. done.
    + by apply Hst.
    + by apply Hst.
    + by apply Hst.
    + by apply Hst.
    + by apply Hst.
Qed.
End run_facts.

(** C1, amended.  From a consistent read-write engine, after any run of
    operations: a [Put] of a value other than the tombstone literal,
    followed by operations that neither put nor delete the key, leaves
    [Get] returning the value; and a [Delete], followed by operations that
    do not put the key, leaves [Get] answering that the key does not
    exist.  The runs return: no operation panics or hangs on the way. *)
Theorem Get_returns_the_last_write fuel range b w ops0 ops key :
  range_ok range -> consistent b w ->
  Forall op_sized ops0 -> Forall op_sized ops ->
  (forall value,
      sized key value -> value <> datastore.TompStone ->
      Forall (fun o => ~ writes key o) ops ->
      exists b' w',
        run fuel range (ops0 ++ OpPut key value :: ops) b w = Done (b', w') /\
        bitcask.Get fuel b' w' key = Done ((value, None), w')) /\
  (Forall (fun o => ~ puts key o) ops ->
   exists b' w',
     run fuel range (ops0 ++ OpDelete key :: ops) b w = Done (b', w') /\
     bitcask.Get fuel b' w' key
     = Done ((""%string, Some (key +:+ ": key does not exist")), w')).
Proof.
  intros Hr Hc Hs0 Hs.
  destruct (run_consistent fuel range Hr ops0 b w Hc Hs0) as (b0 & w0 & Hrun0 & Hc0).
  split.
  - intros value Hsz Hlive Hw. rewrite run_app, Hrun0. cbn [mbind outcome_bind run].
    destruct (exec_step fuel range Hr (OpPut key value) b0 w0 Hc0 Hsz)
      as (b1 & w1 & -> & Hc1 & _ & _ & HPut).
    cbn [mbind outcome_bind].
    rewrite <- (read_result_live key value Hlive).
    apply run_keeps_value; [done|done|done|done|]. by apply HPut.
  - intros Hw. rewrite run_app, Hrun0. cbn [mbind outcome_bind run].
    destruct (exec_step fuel range Hr (OpDelete key) b0 w0 Hc0 I)
      as (b1 & w1 & -> & Hc1 & _ & HDel & _).
    cbn [mbind outcome_bind].
    apply (run_keeps_not_found fuel range Hr ops b1 w1 key); [done|done|done|].
    by apply HDel.
Qed.

Lemma Get_returns_the_last_write_witness :
  (exists b' w',
      run 6 map_to_list
        ([OpPut "a" "1"] ++ OpPut "k" "v" :: [OpMerge; OpPut "b" "2"; OpFold; OpDelete "a"; OpGet "k"; OpListKeys; OpSync])
        (opened [bitcask.ReadWrite]) new_dir = Done (b', w') /\
      bitcask.Get 6 b' w' "k" = Done (("v"%string, None), w')) /\
  (exists b' w',
      run 6 map_to_list
        ([OpPut "a" "1"] ++ OpDelete "k" :: [OpMerge; OpPut "b" "2"; OpFold; OpDelete "a"; OpGet "k"; OpListKeys; OpSync])
        (opened [bitcask.ReadWrite]) new_dir = Done (b', w') /\
      bitcask.Get 6 b' w' "k" = Done ((""%string, Some "k: key does not exist"%string), w')).
Proof.
  assert (Hs0 : Forall op_sized [OpPut "a" "1"]).
  { repeat constructor; vm_compute; reflexivity. }
  assert (Hs : Forall op_sized [OpMerge; OpPut "b" "2"; OpFold; OpDelete "a"; OpGet "k"; OpListKeys; OpSync]).
  { repeat constructor; vm_compute; reflexivity. }
  destruct (Get_returns_the_last_write 6 map_to_list (opened [bitcask.ReadWrite]) new_dir
              [OpPut "a" "1"] [OpMerge; OpPut "b" "2"; OpFold; OpDelete "a"; OpGet "k"; OpListKeys; OpSync] "k"
              range_ok_map_to_list consistent_new_dir Hs0 Hs) as [H1 H2].
  split.
  - apply (H1 "v"%string).
    + split; vm_compute; reflexivity.
    + discriminate.
    + repeat constructor; cbn; first [tauto | discriminate].
  - apply H2. repeat constructor; cbn; first [tauto | discriminate].
Defined.

(** C1 as stated fails for one value: after [Put] of the tombstone literal
    [Get] answers that the key does not exist. *)
Lemma Get_after_Put_of_the_tombstone_literal :
  exists b' w',
    run 6 map_to_list [OpPut "k" datastore.TompStone]
      (opened [bitcask.ReadWrite]) new_dir = Done (b', w') /\
    bitcask.Get 6 b' w' "k" = Done ((""%string, Some "k: key does not exist"%string), w').
Proof. do 2 eexists. split; [vm_compute; reflexivity|]. vm_compute. reflexivity. Qed.

(** ** The scenarios of the test file, on the model *)

Example put_then_get :
  answer ('(_, b, w) ← bitcask.Put 6 (opened [bitcask.ReadWrite]) new_dir "key12" "value12345";
          bitcask.Get 6 b w "key12")
  = Some ("value12345"%string, None).
Proof. vm_compute. reflexivity. Qed.

Example get_unknown_key :
  answer (bitcask.Get 6 (opened [bitcask.ReadWrite]) new_dir "unknown key")
  = Some (""%string, Some "unknown key: key does not exist"%string).
Proof. vm_compute. reflexivity. Qed.

Example delete_then_get :
  answer ('(_, b, w) ← bitcask.Put 6 (opened [bitcask.ReadWrite]) new_dir "key12" "value12345";
          '(_, b, w) ← bitcask.Delete 6 b w "key12";
          bitcask.Get 6 b w "key12")
  = Some (""%string, Some "key12: key does not exist"%string).
Proof. vm_compute. reflexivity. Qed.

Example delete_unknown_key :
  (fun r => r.1) <$> answer (bitcask.Delete 6 (opened [bitcask.ReadWrite]) new_dir "key12")
  = Some (Some "key12: key does not exist"%string).
Proof. vm_compute. reflexivity. Qed.

Example put_on_read_only_handle :
  (fun r => r.1) <$> answer (bitcask.Put 6 (opened []) new_dir "key12" "value12345")
  = Some (Some "Put: require write permission"%string).
Proof. vm_compute. reflexivity. Qed.

(** The segments before and after a merge: the full segment is replaced
    by a merge segment and its hint file, the active segment stays. *)
Example segments_before_merge :
  (map_to_list (os.files two_segments.2)).*1
  = ["1700000000000001.data"; "1700000000000004.data"; ".lck"]%string.
Proof. vm_compute. reflexivity. Qed.

Example segments_after_merge :
  (map_to_list (os.files two_segments_merged.2)).*1
  = ["1700000000000007.data"; "1700000000000007.hint"; "1700000000000004.data"; ".lck"]%string.
Proof. vm_compute. reflexivity. Qed.

Example index_after_merge :
  (fun k => recfmt.FileId <$> (bitcask.keyDir two_segments_merged.1 !! k))
    <$> ["a"; "b"; "c"]%string
  = [Some "1700000000000004.data"; Some "1700000000000007.data";
     Some "1700000000000004.data"]%string.
Proof. vm_compute. reflexivity. Qed.

Example get_after_merge :
  (fun k => (fun r => r.2) <$> answer (bitcask.Get 6 two_segments_merged.1 two_segments_merged.2 k))
    <$> ["a"; "b"; "c"]%string
  = [Some (Some "a: key does not exist"%string); Some None; Some None].
Proof. vm_compute. reflexivity. Qed.

(** * Further properties of the packages *)

(** ** Records followed by other bytes *)

Lemma slice_app_l buf rest lo hi x :
  slice buf lo hi = Some x -> slice (buf ++ rest) lo hi = Some x.
Proof.
  unfold slice. intros H.
  destruct (decide (0 <= lo <= hi /\ hi <= Z.of_nat (length buf))) as [Hb|]; [|done].
  rewrite decide_True by (rewrite length_app; lia).
  inversion H; subst. f_equal.
  rewrite drop_app_le by lia. rewrite take_app_le; [done|].
  rewrite length_drop. lia.
Qed.

Lemma Uint_app_l n buf rest off x :
  Uint n buf off = Some x -> Uint n (buf ++ rest) off = Some x.
Proof.
  unfold Uint. intros H.
  destruct (slice buf off (off + Z.of_nat n)) as [y|] eqn:E; [|done].
  by rewrite (slice_app_l _ rest _ _ y E).
Qed.

Ltac app_l_step H :=
  lazymatch type of H with
  | mbind _ ?m = _ =>
      let E := fresh "E" in
      destruct m as [?|] eqn:E; [|done];
      first [ rewrite (Uint_app_l _ _ _ _ _ E) | rewrite (slice_app_l _ _ _ _ _ E) ];
      cbn [mbind option_bind] in H |- *
  end.

Lemma ExtractDataFileRec_app buf rest r :
  recfmt.ExtractDataFileRec buf = Some r ->
  recfmt.ExtractDataFileRec (buf ++ rest) = Some r.
Proof.
  unfold recfmt.ExtractDataFileRec. intros H.
  cbn [mbind option_bind] in H |- *.
  do 7 app_l_step H. done.
Qed.

Lemma ExtractKeyDirRec_app buf rest r :
  recfmt.ExtractKeyDirRec buf = Some r ->
  recfmt.ExtractKeyDirRec (buf ++ rest) = Some r.
Proof.
  unfold recfmt.ExtractKeyDirRec. intros H.
  cbn [mbind option_bind] in H |- *.
  do 6 app_l_step H. done.
Qed.

Lemma ExtractHintFileRec_app buf rest r :
  recfmt.ExtractHintFileRec buf = Some r ->
  recfmt.ExtractHintFileRec (buf ++ rest) = Some r.
Proof.
  unfold recfmt.ExtractHintFileRec. intros H.
  cbn [mbind option_bind] in H |- *.
  do 5 app_l_step H. done.
Qed.

(** ** Round trips of the three record formats *)

Lemma ExtractDataFileRec_record key value tstamp rest :
  18 + len key < 2 ^ 16 -> 18 + len key + len value < 2 ^ 32 ->
  - 2 ^ 63 <= tstamp < 2 ^ 63 ->
  recfmt.ExtractDataFileRec (recfmt.CompressDataFileRec key value tstamp ++ rest) =
  Some (inl ({| recfmt.Key := key; recfmt.Value := value;
                recfmt.Tstamp := tstamp;
                recfmt.KeySize := len key; recfmt.ValueSize := len value |},
             18 + len key + len value)).
Proof.
  intros Hk Hv Ht. apply ExtractDataFileRec_app.
  rewrite ExtractDataFileRec_Compress by done. by rewrite int64_id.
Qed.

(** A data record is read back as it was written, whatever bytes follow
    it in the buffer: key, value, timestamp, the two sizes, and the length
    of the record, at which the next one starts. *)
Theorem DataFileRec_roundtrip key value tstamp rest :
  18 + len key < 2 ^ 16 -> 18 + len key + len value < 2 ^ 32 ->
  - 2 ^ 63 <= tstamp < 2 ^ 63 ->
  recfmt.ExtractDataFileRec (recfmt.CompressDataFileRec key value tstamp ++ rest) =
  Some (inl ({| recfmt.Key := key; recfmt.Value := value;
                recfmt.Tstamp := tstamp;
                recfmt.KeySize := len key; recfmt.ValueSize := len value |},
             18 + len key + len value)).
Proof. apply ExtractDataFileRec_record. Qed.

Lemma DataFileRec_roundtrip_witness :
  recfmt.ExtractDataFileRec
    (recfmt.CompressDataFileRec "k" "v" 1700000000000000 ++ [x01; x02]) =
  Some (inl ({| recfmt.Key := "k"; recfmt.Value := "v";
                recfmt.Tstamp := 1700000000000000;
                recfmt.KeySize := 1; recfmt.ValueSize := 1 |}, 20)).
Proof.
  apply (DataFileRec_roundtrip "k" "v" 1700000000000000 [x01; x02]);
    vm_compute; done.
Defined.

Lemma CompressHintFileRec_eq key rec :
  recfmt.CompressHintFileRec key rec =
  le_bytes 8 (uint64 (recfmt.RecTstamp rec)) ++ le_bytes 2 (uint16 (len key)) ++
  le_bytes 4 (recfmt.RecValueSize rec) ++ le_bytes 4 (recfmt.ValuePos rec) ++
  bytes_of key.
Proof.
  unfold recfmt.CompressHintFileRec, recfmt.HintFileRecHdr, PutUint.
  pose proof (len_nonneg key) as Hk.
  replace (18 + len key) with (8 + (2 + (4 + (4 + len key)))) by lia.
  rewrite !make_add by lia.
  set (T := le_bytes 8 _). set (K := le_bytes 2 _). set (S := le_bytes 4 (recfmt.RecValueSize _)).
  set (P := le_bytes 4 _).
  rewrite (store_eq _ [] (make 8) (make 2 ++ make 4 ++ make 4 ++ make (len key)) T 0);
    [|done|done|done].
  rewrite (store_eq _ T (make 2) (make 4 ++ make 4 ++ make (len key)) K 8);
    [|done|done|done].
  rewrite (store_eq _ (T ++ K) (make 4) (make 4 ++ make (len key)) S 10);
    [|by rewrite <- !app_assoc|done|done].
  rewrite (store_eq _ ((T ++ K) ++ S) (make 4) (make (len key)) P 14);
    [|by rewrite <- !app_assoc|done|done].
  rewrite (store_eq _ (((T ++ K) ++ S) ++ P) (make (len key)) [] (bytes_of key) 18);
    [|by rewrite <- !app_assoc, app_nil_r|done|subst T K S P; list_len].
  by rewrite app_nil_r, <- !app_assoc.
Qed.

Lemma length_CompressHintFileRec key rec :
  Z.of_nat (length (recfmt.CompressHintFileRec key rec)) = 18 + len key.
Proof. rewrite CompressHintFileRec_eq. list_len. Qed.

Lemma ExtractHintFileRec_Compress key rec :
  18 + len key < 2 ^ 16 ->
  recfmt.ExtractHintFileRec (recfmt.CompressHintFileRec key rec) =
  Some (key,
        {| recfmt.FileId := "";
           recfmt.ValuePos := uint32 (recfmt.ValuePos rec);
           recfmt.RecValueSize := uint32 (recfmt.RecValueSize rec);
           recfmt.RecTstamp := int64 (recfmt.RecTstamp rec) |},
        18 + len key).
Proof.
  intros Hk. rewrite CompressHintFileRec_eq.
  pose proof (len_nonneg key) as Hk0.
  unfold recfmt.ExtractHintFileRec, recfmt.HintFileRecHdr.
  set (T := le_bytes 8 _). set (K := le_bytes 2 _). set (S := le_bytes 4 (recfmt.RecValueSize _)).
  set (P := le_bytes 4 _). set (B := bytes_of key).
  assert (HT : length T = 8%nat) by apply length_le_bytes.
  assert (HK : length K = 2%nat) by apply length_le_bytes.
  assert (HS : length S = 4%nat) by apply length_le_bytes.
  assert (HP : length P = 4%nat) by apply length_le_bytes.
  pose proof (length_bytes_of_Z key) as Hlk. fold B in Hlk.
  rewrite (Uint_eq 8 _ [] (K ++ S ++ P ++ B) (uint64 (recfmt.RecTstamp rec)) 0);
    [|done|done].
  bind_step.
  rewrite (Uint_eq 2 _ T (S ++ P ++ B) (uint16 (len key)) 8); [|done|lia].
  bind_step.
  rewrite (Uint_eq 4 _ (T ++ K) (P ++ B) (recfmt.RecValueSize rec) 10);
    [|by rewrite <- !app_assoc|rewrite !length_app; lia].
  bind_step.
  rewrite (Uint_eq 4 _ ((T ++ K) ++ S) B (recfmt.ValuePos rec) 14);
    [|by rewrite <- !app_assoc|rewrite !length_app; lia].
  bind_step.
  change (256 ^ Z.of_nat 2) with (2 ^ 16). change (256 ^ Z.of_nat 4) with (2 ^ 32).
  change (256 ^ Z.of_nat 8) with (2 ^ 64).
  unfold uint16, uint32, uint64. rewrite !Z.mod_mod by lia.
  rewrite (Z.mod_small (len key) (2 ^ 16)) by lia.
  rewrite (Z.mod_small (18 + len key) (2 ^ 16)) by lia.
  rewrite (slice_eq _ (((T ++ K) ++ S) ++ P) B [] 18 (18 + len key));
    [|by rewrite <- !app_assoc, app_nil_r|rewrite !length_app; lia|lia].
  bind_step. subst B. rewrite string_of_bytes_of.
  fold (uint64 (recfmt.RecTstamp rec)). by rewrite int64_uint64.
Qed.

Lemma ExtractHintFileRec_record key rec rest :
  18 + len key < 2 ^ 16 ->
  0 <= recfmt.ValuePos rec < 2 ^ 32 ->
  0 <= recfmt.RecValueSize rec < 2 ^ 32 ->
  - 2 ^ 63 <= recfmt.RecTstamp rec < 2 ^ 63 ->
  recfmt.ExtractHintFileRec (recfmt.CompressHintFileRec key rec ++ rest) =
  Some (key,
        {| recfmt.FileId := "";
           recfmt.ValuePos := recfmt.ValuePos rec;
           recfmt.RecValueSize := recfmt.RecValueSize rec;
           recfmt.RecTstamp := recfmt.RecTstamp rec |},
        18 + len key).
Proof.
  intros Hk Hp Hs Ht. apply ExtractHintFileRec_app.
  rewrite ExtractHintFileRec_Compress by done.
  unfold uint32. rewrite !Z.mod_small by lia. by rewrite int64_id.
Qed.

(** A hint record is read back as it was written, whatever follows it:
    the key, the position and size of the value and the timestamp.  The
    format has no file identifier, and the decoder leaves it empty. *)
Theorem HintFileRec_roundtrip key rec rest :
  18 + len key < 2 ^ 16 ->
  0 <= recfmt.ValuePos rec < 2 ^ 32 ->
  0 <= recfmt.RecValueSize rec < 2 ^ 32 ->
  - 2 ^ 63 <= recfmt.RecTstamp rec < 2 ^ 63 ->
  recfmt.ExtractHintFileRec (recfmt.CompressHintFileRec key rec ++ rest) =
  Some (key,
        {| recfmt.FileId := "";
           recfmt.ValuePos := recfmt.ValuePos rec;
           recfmt.RecValueSize := recfmt.RecValueSize rec;
           recfmt.RecTstamp := recfmt.RecTstamp rec |},
        18 + len key).
Proof. apply ExtractHintFileRec_record. Qed.

Lemma HintFileRec_roundtrip_witness :
  recfmt.ExtractHintFileRec (recfmt.CompressHintFileRec "k" entry_in_segment ++ [x07]) =
  Some ("k"%string,
        {| recfmt.FileId := ""; recfmt.ValuePos := 7;
           recfmt.RecValueSize := 3; recfmt.RecTstamp := 1700000000000001 |},
        19).
Proof.
  apply (HintFileRec_roundtrip "k" entry_in_segment [x07]); vm_compute; done.
Defined.

(** *** Decimal numerals *)

Lemma digit_of_pretty_N_char d :
  (d < 10)%N -> digit_of (pretty_N_char d) = Some (Z.of_N d).
Proof.
  intros Hd.
  assert (H : exists n, d = N.of_nat n /\ (n < 10)%nat).
  { exists (N.to_nat d). lia. }
  destruct H as (n & -> & Hn).
  do 10 (destruct n as [|n]; [reflexivity|]). lia.
Qed.

Lemma ParseUint_loop_pretty_N_go (x : N) :
  forall s, (0 < x)%N -> Z.of_N x < 2 ^ 64 ->
    ParseUint_loop (pretty_N_go x s) 0 = ParseUint_loop s (Z.of_N x).
Proof.
  induction (N.lt_wf_0 x) as [x _ IH]. intros s Hx Hmax.
  rewrite pretty_N_go_step by done.
  pose proof (N.mod_lt x 10 ltac:(lia)) as Hd.
  pose proof (N.div_mod x 10 ltac:(lia)) as Hdm.
  destruct (decide (x `div` 10 = 0)%N) as [Hz|Hnz].
  - rewrite Hz, pretty_N_go_0. cbn [ParseUint_loop].
    rewrite digit_of_pretty_N_char by done.
    change (maxUint64 / 10 + 1) with 1844674407370955162.
    change maxUint64 with 18446744073709551615.
    rewrite decide_False by lia.
    rewrite decide_False by lia.
    f_equal. lia.
  - assert (Hle : (x `div` 10 < x)%N) by (apply N.div_lt; lia).
    rewrite IH; [| done | lia | lia].
    cbn [ParseUint_loop]. rewrite digit_of_pretty_N_char by done.
    assert (Hq : Z.of_N (x `div` 10) * 10 + Z.of_N (x `mod` 10) = Z.of_N x) by lia.
    change (maxUint64 / 10 + 1) with 1844674407370955162.
    change maxUint64 with 18446744073709551615.
    change (2 ^ 64) with 18446744073709551616 in Hmax.
    rewrite decide_False.
    2:{ rewrite N2Z.inj_div. apply Z.lt_nge, Z.div_lt_upper_bound; lia. }
    rewrite decide_False by lia.
    by rewrite Hq.
Qed.

Lemma length_pretty_N_go x :
  forall s, (String.length s <= String.length (pretty_N_go x s))%nat.
Proof.
  induction (N.lt_wf_0 x) as [x _ IH]. intros s.
  destruct (decide (0 < x)%N) as [Hx|Hx].
  - rewrite pretty_N_go_step by done.
    etrans; [|apply IH; apply N.div_lt; lia]. simpl. lia.
  - replace x with 0%N by lia. by rewrite pretty_N_go_0.
Qed.

Lemma pretty_N_go_nonempty x : (0 < x)%N -> pretty_N_go x "" <> ""%string.
Proof.
  intros Hx Heq. rewrite pretty_N_go_step in Heq by done.
  pose proof (length_pretty_N_go (x `div` 10)
                (String (pretty_N_char (x `mod` 10)) "")) as Hlen.
  rewrite Heq in Hlen. simpl in Hlen. lia.
Qed.

(** [ParseUint] reads back what [FormatUint] prints. *)
Lemma ParseUint_FormatUint n :
  0 <= n < 2 ^ 64 -> ParseUint (FormatUint n) = (n, None).
Proof.
  intros Hn. unfold FormatUint, pretty, pretty_Z.
  destruct n as [|p|p]; [done| |lia].
  unfold pretty, pretty_positive, pretty, pretty_N.
  rewrite decide_False by done.
  pose proof (pretty_N_go_nonempty (N.pos p) ltac:(lia)) as Hne.
  unfold ParseUint.
  destruct (pretty_N_go (N.pos p) "") eqn:E; [done|].
  rewrite <- E. rewrite ParseUint_loop_pretty_N_go by (done || lia). done.
Qed.

(** A keydir record whose file identifier is the decimal numeral of a
    64-bit number is read back as it was written, whatever follows it. *)
Theorem KeyDirRec_roundtrip_numeric_id key rec n rest :
  recfmt.FileId rec = FormatUint n -> 0 <= n < 2 ^ 64 ->
  len key + 26 < 2 ^ 16 ->
  0 <= recfmt.ValuePos rec < 2 ^ 32 ->
  0 <= recfmt.RecValueSize rec < 2 ^ 32 ->
  - 2 ^ 63 <= recfmt.RecTstamp rec < 2 ^ 63 ->
  recfmt.ExtractKeyDirRec (recfmt.CompressKeyDirRec key rec ++ rest) =
  Some (key, rec, 26 + len key).
Proof.
  intros Hid Hn Hk Hp Hs Ht. apply ExtractKeyDirRec_app.
  rewrite ExtractKeyDirRec_Compress by done.
  rewrite Hid, ParseUint_FormatUint by done. cbn [fst].
  unfold uint64, uint32. rewrite !Z.mod_small by lia. rewrite int64_id by done.
  rewrite <- Hid. by destruct rec.
Qed.

Lemma KeyDirRec_roundtrip_numeric_id_witness :
  let rec := {| recfmt.FileId := "1700000000000000"; recfmt.ValuePos := 7;
                recfmt.RecValueSize := 3; recfmt.RecTstamp := 1700000000000001 |} in
  recfmt.ExtractKeyDirRec (recfmt.CompressKeyDirRec "k" rec ++ [x00]) =
  Some ("k"%string, rec, 27).
Proof.
  apply (KeyDirRec_roundtrip_numeric_id "k" _ 1700000000000000 [x00]);
    vm_compute; done.
Defined.

(** ** The retry wrappers under short reads and writes *)

Lemma pwrite_pwrite c pos d1 d2 :
  os.pwrite (os.pwrite c pos d1) (pos + length d1) d2 = os.pwrite c pos (d1 ++ d2).
Proof.
  unfold os.pwrite.
  assert (Hl : length (resize pos x00 c) = pos) by apply length_resize.
  rewrite (app_assoc (resize pos x00 c) d1).
  rewrite resize_app by (by rewrite length_app, length_resize).
  rewrite <- !app_assoc. do 2 f_equal.
  rewrite length_app, !app_assoc.
  rewrite drop_app_add' by (by rewrite !length_app, length_resize).
  rewrite drop_drop. do 2 f_equal. lia.
Qed.

Lemma take_transferred {A} (l : list A) i cnt :
  take i l ++ take cnt (drop i l) = take (i + length (take cnt (drop i l))) l.
Proof.
  rewrite take_take_drop, length_take, length_drop.
  destruct (decide (cnt <= length l - i)%nat).
  - f_equal. lia.
  - by rewrite !take_ge by lia.
Qed.

Section Write_facts.
Variable w0 : os.World.
Variable f0 : os.File.
Variable b : list byte.

(** The directory once the first [i] bytes of [b] have reached the file
    and the faults [fs] are still to come. *)
Let W (i : nat) (fs : list os.fault) : os.World :=
  {| os.files :=
       <[os.name f0 :=
           os.pwrite (os.contents w0 (os.name f0)) (os.offset f0) (take i b)]>
         (os.files w0);
     os.clock := os.clock w0; os.ticks := os.ticks w0;
     os.rfaults := os.rfaults w0; os.wfaults := fs |}.

Let F (i : nat) : os.File :=
  {| os.name := os.name f0; os.offset := os.offset f0 + i |}.

Lemma Write_step_fault i ft rest :
  (i <= length b)%nat ->
  exists n, (i + n <= length b)%nat /\
    os.Write (W i (ft :: rest)) (F i) (drop i b) =
    ((n, Some (os.fault_err ft)), F (i + n), W (i + n) rest).
Proof.
  intros Hi. exists (length (take (os.fault_count ft) (drop i b))).
  split. { rewrite length_take, length_drop. lia. }
  unfold os.Write, W, F. cbn [os.wfaults].
  unfold os.write_bytes, os.set_wfaults, os.set_files, os.contents.
  cbn [os.files os.clock os.ticks os.rfaults os.wfaults os.name os.offset].
  rewrite lookup_insert_eq. cbn [default from_option id].
  f_equal; [f_equal|].
  - f_equal. lia.
  - f_equal. rewrite insert_insert_eq. f_equal.
    replace (os.offset f0 + i)%nat with (os.offset f0 + length (take i b))%nat
      by (rewrite length_take; lia).
    rewrite pwrite_pwrite. f_equal. apply take_transferred.
Qed.

Lemma Write_step_ok i :
  (i <= length b)%nat ->
  os.Write (W i []) (F i) (drop i b) =
  ((length (drop i b), None), F (length b), W (length b) []).
Proof.
  intros Hi.
  unfold os.Write, W, F. cbn [os.wfaults].
  unfold os.write_bytes, os.set_files, os.contents.
  cbn [os.files os.clock os.ticks os.rfaults os.wfaults os.name os.offset].
  rewrite lookup_insert_eq. cbn [default from_option id].
  f_equal; [f_equal|].
  - f_equal. rewrite length_drop. lia.
  - f_equal. rewrite insert_insert_eq. f_equal.
    replace (os.offset f0 + i)%nat with (os.offset f0 + length (take i b))%nat
      by (rewrite length_take; lia).
    rewrite pwrite_pwrite. f_equal. rewrite take_drop. by rewrite firstn_all.
Qed.

Lemma Write_loop_succeeds faults :
  forall fl a i e,
    (length faults < sio.maxAttempts - a)%nat -> (sio.maxAttempts - a < fl)%nat ->
    (i <= length b)%nat ->
    sio.Write_loop fl (W i faults) (F i) b a i (Some e) =
    Done ((Z.of_nat (length b), None), F (length b), W (length b) []).
Proof.
  unfold sio.maxAttempts.
  induction faults as [|ft rest IH]; intros fl a i e Hlen Hfl Hi.
  - destruct fl as [|fl]; [lia|]. cbn [sio.Write_loop].
    rewrite decide_False by (unfold sio.maxAttempts; simpl in Hlen; lia).
    rewrite Write_step_ok by done. by destruct fl.
  - destruct fl as [|fl]; [lia|]. cbn [sio.Write_loop].
    rewrite decide_False by (unfold sio.maxAttempts; simpl in Hlen; lia).
    destruct (Write_step_fault i ft rest Hi) as (n & Hn & ->).
    apply IH; simpl in Hlen; lia.
Qed.

Lemma Write_loop_gives_up fl :
  forall faults a i e,
    (a <= sio.maxAttempts)%nat ->
    (sio.maxAttempts - a <= length faults)%nat -> (sio.maxAttempts - a < fl)%nat ->
    (i <= length b)%nat ->
    exists p e',
      (p <= length b)%nat /\
      (e :: (os.fault_err <$> faults)) !! (sio.maxAttempts - a)%nat = Some e' /\
      sio.Write_loop fl (W i faults) (F i) b a i (Some e) =
      Done ((0, Some e'), F p, W p (drop (sio.maxAttempts - a) faults)).
Proof.
  unfold sio.maxAttempts.
  induction fl as [|fl IH]; intros faults a i e Ha Hlen Hfl Hi; [lia|].
  cbn [sio.Write_loop]. unfold sio.maxAttempts.
  destruct (decide (a = 5%nat)) as [->|Hne].
  - exists i, e. split; [done|]. split; [done|]. by rewrite drop_0.
  - destruct faults as [|ft rest]; [simpl in Hlen; lia|].
    destruct (Write_step_fault i ft rest Hi) as (n & Hn & ->).
    destruct (IH rest (S a) (i + n)%nat (os.fault_err ft)) as (p & e' & Hp & He' & ->);
      [lia|simpl in Hlen; lia|lia|lia|].
    exists p, e'. split; [done|]. split.
    + replace (5 - a)%nat with (S (5 - S a)) by lia. done.
    + replace (5 - a)%nat with (S (5 - S a)) by lia. done.
Qed.

End Write_facts.

(** [Write] makes up for short writes: up to [maxAttempts] failing calls
    in a row are followed by a call for the rest, the whole buffer reaches
    the file at the offset of the descriptor, and the result is [len(b)]
    and nil.  At the sixth failing call [Write] gives up with the error of
    that call; a part of the buffer may have reached the file by then, and
    the descriptor has moved past it. *)
Theorem Write_retries fuel w f b :
  (sio.maxAttempts < fuel)%nat ->
  ((length (os.wfaults w) <= sio.maxAttempts)%nat ->
   sio.Write fuel w f b =
   Done ((Z.of_nat (length b), None),
         (transferred w f b []).1, (transferred w f b []).2)) /\
  (forall ft, os.wfaults w !! sio.maxAttempts = Some ft ->
   exists p, (p <= length b)%nat /\
     let rest := drop (S sio.maxAttempts) (os.wfaults w) in
     sio.Write fuel w f b =
     Done ((0, Some (os.fault_err ft)),
           (transferred w f (take p b) rest).1, (transferred w f (take p b) rest).2)).
Proof.
  intros Hfuel. unfold sio.Write, os.Write, transferred. cbn [fst snd].
  destruct (os.wfaults w) as [|ft0 rest] eqn:Hfs.
  - split; [|done]. intros _.
    unfold os.write_bytes, os.set_files. destruct fuel; [lia|]. cbn [sio.Write_loop].
    by rewrite Hfs.
  - unfold os.write_bytes, os.set_wfaults, os.set_files, os.contents.
    cbn [os.files os.clock os.ticks os.rfaults os.wfaults os.name os.offset].
    set (n := length (take (os.fault_count ft0) b)).
    assert (Hn : (n <= length b)%nat) by (subst n; rewrite length_take; lia).
    assert (Hd : take (os.fault_count ft0) b = take n b).
    { subst n. rewrite length_take.
      destruct (decide (os.fault_count ft0 <= length b)%nat).
      - f_equal. lia.
      - by rewrite !take_ge by lia. }
    rewrite Hd. split.
    + intros Hlen. simpl in Hlen.
      pose proof (Write_loop_succeeds w f b rest fuel 0%nat n (os.fault_err ft0)) as H.
      cbv zeta in H. unfold os.contents in H.
      rewrite H by (unfold sio.maxAttempts in *; lia).
      by rewrite firstn_all.
    + intros ft Hft.
      assert (Hrest : (sio.maxAttempts <= length rest)%nat).
      { apply lookup_lt_Some in Hft. simpl in Hft. lia. }
      destruct (Write_loop_gives_up w f b fuel rest 0%nat n (os.fault_err ft0))
        as (p & e' & Hp & He' & H);
        [unfold sio.maxAttempts; lia|lia|unfold sio.maxAttempts in *; lia|done|].
      cbv zeta in H. unfold os.contents in H. rewrite H. exists p. split; [done|].
      rewrite Nat.sub_0_r in He'.
      change (os.fault_err ft0 :: (os.fault_err <$> rest))
        with (os.fault_err <$> (ft0 :: rest)) in He'.
      rewrite list_lookup_fmap, Hft in He'. simpl in He'. inversion He'; subst e'.
      rewrite length_take, Nat.min_l by done. by rewrite Nat.sub_0_r.
Qed.

Lemma Write_retries_witness :
  sio.Write 6 flaky_disk {| os.name := "1.data"; os.offset := 2 |} [x01; x02; x03; x04; x05]
  = Done ((5, None),
          {| os.name := "1.data"; os.offset := 7 |},
          os.set_wfaults []
            (os.set_files {[ "1.data"%string := [x0a; x0b; x01; x02; x03; x04; x05] ]}
               flaky_disk)).
Proof.
  apply (Write_retries 6 flaky_disk {| os.name := "1.data"; os.offset := 2 |}
           [x01; x02; x03; x04; x05]); vm_compute; lia.
Defined.

(** ** Reads *)

Lemma ReadAt_loop_no_error fl :
  forall w f b off i err r,
    sio.ReadAt_loop fl w f b off 0 i err = Done r ->
    exists b' w', r = ((b', (Z.of_nat (length b), None)), w') /\ length b' = length b.
Proof.
  induction fl as [|fl IH]; intros w f b off i err r H.
  - destruct err; [done|]. simpl in H. inversion H; subst. eauto.
  - destruct err as [e|]; cbn [sio.ReadAt_loop] in H.
    + rewrite decide_False in H by done.
      destruct (os.ReadAt w f (length b - i) (off + Z.of_nat i)) as [[data err'] w'].
      apply IH in H. destruct H as (b' & w'' & -> & Hlen).
      rewrite length_store in Hlen. rewrite length_store. eauto.
    + inversion H; subst. eauto.
Qed.

(** [ReadAt] never reports an error: its count of attempts stays at 0, so
    whenever the call returns, it returns [len(b)] and nil, whatever the
    reads have met. *)
Theorem ReadAt_never_reports_an_error fuel w f b off b' n err w' :
  sio.ReadAt fuel w f b off = Done ((b', (n, err)), w') ->
  n = Z.of_nat (length b) /\ err = None /\ length b' = length b.
Proof.
  unfold sio.ReadAt. intros H.
  destruct (os.ReadAt w f (length b) off) as [[data err0] w0].
  apply ReadAt_loop_no_error in H. destruct H as (b'' & w'' & H & Hlen).
  rewrite length_store in H, Hlen. inversion H; subst. done.
Qed.

Lemma ReadAt_never_reports_an_error_witness :
  2 = Z.of_nat (length (make 2)) /\ @None error = None /\
  length [x01; x02] = length (make 2).
Proof.
  apply (ReadAt_never_reports_an_error 4
           (os.set_rfaults [ {| os.fault_count := 1; os.fault_err := "interrupted" |} ]
              short_file)
           {| os.name := "1.data"; os.offset := 0 |} (make 2) 0
           [x01; x02] 2 None short_file).
  vm_compute. reflexivity.
Defined.

(** A read of a range the file covers, with no fault pending, fills the
    buffer with the bytes of the range at the first attempt. *)
Theorem ReadAt_reads_the_range fuel w f b off :
  os.rfaults w = [] -> 0 <= off ->
  (Z.to_nat off + length b <= length (os.contents w (os.name f)))%nat ->
  sio.ReadAt fuel w f b off =
  Done ((take (length b) (drop (Z.to_nat off) (os.contents w (os.name f))),
         (Z.of_nat (length b), None)), w).
Proof.
  intros Hf Hoff Hlen. apply ReadAt_covered; [done|done|done|].
  rewrite length_take, length_drop. lia.
Qed.

Lemma ReadAt_reads_the_range_witness :
  sio.ReadAt 0 short_file {| os.name := "1.data"; os.offset := 0 |} (make 2) 1
  = Done (([x02; x03], (2, None)), short_file).
Proof.
  apply (ReadAt_reads_the_range 0 short_file {| os.name := "1.data"; os.offset := 0 |}
           (make 2) 1); [reflexivity|lia|vm_compute; lia].
Defined.

(** ** The engine: options, deletions, listings *)

Lemma parseUsrOpts_loop_access opts usrOpts :
  bitcask.accessPermission (bitcask.parseUsrOpts_loop opts usrOpts) =
  if decide (bitcask.ReadWrite ∈ opts) then bitcask.ReadWrite
  else bitcask.accessPermission usrOpts.
Proof.
  revert usrOpts. induction opts as [|opt opts IH]; intros usrOpts.
  - rewrite decide_False; [done|]. apply not_elem_of_nil.
  - cbn [bitcask.parseUsrOpts_loop]. rewrite IH.
    destruct (decide (bitcask.ReadWrite ∈ opts)) as [Hin|Hni].
    + rewrite decide_True; [done|]. by right.
    + destruct opt; cbn.
      * rewrite decide_False; [done|]. intros H. apply elem_of_cons in H as [?|?]; done.
      * rewrite decide_True; [done|]. by left.
      * rewrite decide_False; [done|]. intros H. apply elem_of_cons in H as [?|?]; done.
      * rewrite decide_False; [done|]. intros H. apply elem_of_cons in H as [?|?]; done.
Qed.

Lemma parseUsrOpts_loop_sync opts usrOpts :
  bitcask.syncOption (bitcask.parseUsrOpts_loop opts usrOpts) =
  if decide (bitcask.SyncOnPut ∈ opts) then bitcask.SyncOnPut
  else bitcask.syncOption usrOpts.
Proof.
  revert usrOpts. induction opts as [|opt opts IH]; intros usrOpts.
  - rewrite decide_False; [done|]. apply not_elem_of_nil.
  - cbn [bitcask.parseUsrOpts_loop]. rewrite IH.
    destruct (decide (bitcask.SyncOnPut ∈ opts)) as [Hin|Hni].
    + rewrite decide_True; [done|]. by right.
    + destruct opt; cbn.
      * rewrite decide_False; [done|]. intros H. apply elem_of_cons in H as [?|?]; done.
      * rewrite decide_False; [done|]. intros H. apply elem_of_cons in H as [?|?]; done.
      * rewrite decide_True; [done|]. by left.
      * rewrite decide_False; [done|]. intros H. apply elem_of_cons in H as [?|?]; done.
Qed.

(** The options of [Open]: the handle is read-write exactly when
    [ReadWrite] is among them, and syncs on every put exactly when
    [SyncOnPut] is; the order and the other options do not matter, so a
    [ReadOnly] given next to [ReadWrite] does not take the write
    permission back. *)
Theorem parseUsrOpts_spec opts :
  bitcask.accessPermission (bitcask.parseUsrOpts opts) =
    (if decide (bitcask.ReadWrite ∈ opts) then bitcask.ReadWrite else bitcask.ReadOnly) /\
  bitcask.syncOption (bitcask.parseUsrOpts opts) =
    (if decide (bitcask.SyncOnPut ∈ opts) then bitcask.SyncOnPut else bitcask.SyncOnDemand).
Proof.
  unfold bitcask.parseUsrOpts.
  by rewrite parseUsrOpts_loop_access, parseUsrOpts_loop_sync.
Qed.

(** A key that [Get] does not find cannot be deleted: [Delete] returns the
    error of [Get] and changes neither the handle nor the directory.  So a
    second [Delete] of a key fails, whatever the first one returned. *)
Theorem Delete_twice fuel b w key e b' w' :
  consistent b w ->
  bitcask.Delete fuel b w key = Done (e, b', w') ->
  bitcask.Delete fuel b' w' key = Done (Some (datastore.keyNotExist key), b', w').
Proof.
  intros Hc H.
  destruct (Delete_step fuel b w key Hc) as (e0 & b0 & w0 & H0 & Hc' & HG & _).
  rewrite H0 in H. inversion H; subst.
  unfold bitcask.Delete. rewrite decide_False by (rewrite (cons_rw _ _ Hc'); done).
  rewrite HG. done.
Qed.

Lemma consistent_live_state : consistent live_state.1 live_state.2.
Proof.
  destruct (Put_consistent 6 (opened [bitcask.ReadWrite]) new_dir "k" "v")
    as (b' & w' & rec & HP & Hc & _).
  - apply consistent_new_dir.
  - split; vm_compute; done.
  - unfold live_state. by rewrite HP.
Qed.

Lemma Delete_twice_witness :
  let s := state_after (bitcask.Delete 6 live_state.1 live_state.2 "k") in
  bitcask.Delete 6 s.1 s.2 "k" = Done (Some "k: key does not exist"%string, s.1, s.2).
Proof.
  apply (Delete_twice 6 live_state.1 live_state.2 "k" None);
    [apply consistent_live_state|].
  vm_compute. reflexivity.
Defined.

Lemma Delete_index fuel b w key b' w' :
  consistent b w ->
  bitcask.Delete fuel b w key = Done (None, b', w') ->
  is_Some (bitcask.keyDir b !! key) /\
  exists rec, bitcask.keyDir b' = <[key := rec]> (bitcask.keyDir b) /\
              located w' key rec datastore.TompStone /\ extends w w'.
Proof.
  intros Hc. unfold bitcask.Delete.
  rewrite decide_False by (rewrite (cons_rw _ _ Hc); done).
  destruct (Get_cases fuel b w key Hc) as [[Hk HG]|(rec & v & Hk & Hloc & HG)];
    rewrite HG; cbn [mbind outcome_bind]; [done|].
  destruct (decide (v = datastore.TompStone)) as [->|Hlive].
  - by rewrite read_result_tombstone.
  - rewrite read_result_live by done.
    assert (Hs : sized key datastore.TompStone).
    { apply sized_tombstone. by destruct Hloc as ([Hk' _] & _). }
    destruct (Put_consistent fuel b w key datastore.TompStone Hc Hs)
      as (b1 & w1 & rec1 & -> & Hc' & Hkd & Hloc1 & Hext).
    cbn [mbind outcome_bind]. intros H. inversion H; subst.
    split; [by rewrite Hk|]. by exists rec1.
Qed.

Lemma Delete_extends fuel b w key e b' w' :
  consistent b w ->
  bitcask.Delete fuel b w key = Done (e, b', w') -> extends w w'.
Proof.
  intros Hc H. destruct e as [e|].
  - revert H. unfold bitcask.Delete.
    rewrite decide_False by (rewrite (cons_rw _ _ Hc); done).
    destruct (Get_consistent fuel b w key Hc) as [[v err] ->]. cbn [mbind outcome_bind].
    destruct err as [e'|].
    + intros H. inversion H; subst. apply extends_refl.
    + destruct (bitcask.Put fuel b w key datastore.TompStone) as [[[e1 b1] w1]| |];
        cbn [mbind outcome_bind]; done.
  - by destruct (Delete_index fuel b w key b' w' Hc H) as (_ & rec & _ & _ & Hext).
Qed.

Lemma keys_insert_present (m : gmap string recfmt.KeyDirRec) key rec :
  is_Some (m !! key) ->
  (map_to_list (<[key := rec]> m)).*1 ≡ₚ (map_to_list m).*1.
Proof.
  intros [rec0 Hk]. apply NoDup_Permutation.
  - apply NoDup_fst_map_to_list.
  - apply NoDup_fst_map_to_list.
  - intros k. rewrite !list_elem_of_fmap. split.
    + intros [[k' r] [-> Hin]]. apply elem_of_map_to_list in Hin. cbn.
      destruct (decide (k' = key)) as [->|Hne].
      * exists (key, rec0). split; [done|]. by apply elem_of_map_to_list.
      * rewrite lookup_insert_ne in Hin by done.
        exists (k', r). split; [done|]. by apply elem_of_map_to_list.
    + intros [[k' r] [-> Hin]]. apply elem_of_map_to_list in Hin. cbn.
      destruct (decide (k' = key)) as [->|Hne].
      * exists (key, rec). split; [done|]. apply elem_of_map_to_list.
        apply lookup_insert_eq.
      * exists (k', r). split; [done|]. apply elem_of_map_to_list.
        by rewrite lookup_insert_ne.
Qed.

(** A deleted key stays in the index, bound to its tombstone: after a
    [Delete] that succeeded, [ListKeys] lists the same keys as before, the
    deleted one among them, while [Get] no longer finds it. *)
Theorem ListKeys_lists_deleted_keys fuel range b w key b' w' :
  consistent b w -> range_ok range ->
  bitcask.Delete fuel b w key = Done (None, b', w') ->
  key ∈ bitcask.ListKeys range b' /\
  bitcask.ListKeys range b' ≡ₚ bitcask.ListKeys range b /\
  bitcask.Get fuel b' w' key = Done (not_found key, w').
Proof.
  intros Hc Hr H.
  destruct (Delete_index fuel b w key b' w' Hc H) as (Hin & rec & Hkd & Hloc & _).
  destruct (Delete_step fuel b w key Hc) as (e0 & b0 & w0 & H0 & _ & HG & _).
  rewrite H in H0. inversion H0; subst b0 w0 e0.
  split; [|split; [|done]].
  - unfold bitcask.ListKeys. rewrite (Hr (bitcask.keyDir b')).
    apply list_elem_of_fmap. exists (key, rec). split; [done|].
    apply elem_of_map_to_list. rewrite Hkd. apply lookup_insert_eq.
  - unfold bitcask.ListKeys. rewrite (Hr (bitcask.keyDir b')), (Hr (bitcask.keyDir b)).
    rewrite Hkd. by apply keys_insert_present.
Qed.

Lemma ListKeys_lists_deleted_keys_witness :
  let s := state_after (bitcask.Delete 6 live_state.1 live_state.2 "k") in
  "k"%string ∈ bitcask.ListKeys map_to_list s.1 /\
  bitcask.ListKeys map_to_list s.1 ≡ₚ bitcask.ListKeys map_to_list live_state.1 /\
  bitcask.Get 6 s.1 s.2 "k" = Done (not_found "k", s.2).
Proof.
  apply (ListKeys_lists_deleted_keys 6 map_to_list live_state.1 live_state.2 "k");
    [apply consistent_live_state|apply range_ok_map_to_list|].
  vm_compute. reflexivity.
Defined.

(** [Fold] is a left fold over the keys of the index, each of them once,
    in the order its own loop over the map takes, which need not be the
    order of [ListKeys]: the keys it visits are a permutation of the keys
    [ListKeys] returns, whatever the two orders are.  The function gets
    every key with the value [Get] returns for it, the empty string for a
    key that is deleted, and the directory is left as it is. *)
Theorem Fold_folds_over_the_keys {A : Type} fuel rangeFold rangeList
    (fn : string -> string -> A -> A) b w acc :
  consistent b w -> range_ok rangeFold -> range_ok rangeList ->
  (exists keys,
     keys ≡ₚ bitcask.ListKeys rangeList b /\
     bitcask.Fold fuel rangeFold fn b w acc =
       Done (fold_left (fun acc key => fn key (value_at fuel b w key) acc) keys acc, w)) /\
  forall key rec, bitcask.keyDir b !! key = Some rec ->
    located w key rec datastore.TompStone -> value_at fuel b w key = ""%string.
Proof.
  intros Hc HF HL. split.
  - exists (rangeFold (bitcask.keyDir b)).*1. split.
    + unfold bitcask.ListKeys. by rewrite (HF (bitcask.keyDir b)), (HL (bitcask.keyDir b)).
    + unfold bitcask.Fold.
      generalize ((rangeFold (bitcask.keyDir b)).*1). intros keys. revert acc.
      induction keys as [|key keys IH]; intros acc;
        cbn [bitcask.Fold_loop fold_left]; [done|].
      unfold value_at at 2.
      destruct (Get_consistent fuel b w key Hc) as [[value err] ->].
      cbn [mbind outcome_bind]. apply IH.
  - intros key rec Hk Hloc. unfold value_at.
    rewrite (Get_located fuel b w key rec datastore.TompStone);
      [|by destruct (cons_faults _ _ Hc)|done|done].
    by rewrite read_result_tombstone.
Qed.

(** ** Runs of operations *)

Section run_extras.
Variable fuel : nat.
Variable range : gmap string recfmt.KeyDirRec -> list (string * recfmt.KeyDirRec).
Hypothesis Hrange : range_ok range.

Lemma exec_extends o b w b' w' :
  consistent b w -> op_sized o -> ~ is_merge o ->
  exec fuel range o b w = Done (b', w') -> extends w w'.
Proof.
  intros Hc Hs Hm. destruct o as [key value|key|key| | | |]; cbn [exec op_sized] in *.
  - destruct (Put_consistent fuel b w key value Hc Hs)
      as (b1 & w1 & rec & -> & _ & _ & _ & Hext).
    cbn [mbind outcome_bind]. intros H. by inversion H; subst.
  - destruct (bitcask.Delete fuel b w key) as [[[e b1] w1]| |] eqn:E;
      cbn [mbind outcome_bind]; [|done..].
    intros H. inversion H; subst. by apply (Delete_extends fuel b w key e b' w').
  - destruct (Get_consistent fuel b w key Hc) as [r ->].
    cbn [mbind outcome_bind]. intros H. inversion H; subst. apply extends_refl.
  - exfalso. by apply Hm.
  - unfold bitcask.Sync. rewrite decide_False by (rewrite (cons_rw _ _ Hc); done).
    cbn [mbind outcome_bind]. intros H. inversion H; subst. apply extends_refl.
  - intros H. inversion H; subst. apply extends_refl.
  - unfold bitcask.Fold.
    destruct (Fold_loop_consistent fuel (fun _ _ (acc : unit) => acc) b w
                (range (bitcask.keyDir b)).*1 Hc tt) as [acc' ->].
    cbn [mbind outcome_bind]. intros H. inversion H; subst. apply extends_refl.
Qed.

Lemma run_extends ops :
  forall b w, consistent b w -> Forall op_sized ops ->
    Forall (fun o => ~ is_merge o) ops ->
    exists b' w', run fuel range ops b w = Done (b', w') /\
                  consistent b' w' /\ extends w w'.
Proof.
  induction ops as [|o ops IH]; intros b w Hc Hs Hm.
  - exists b, w. split; [done|]. split; [done|]. apply extends_refl.
  - apply Forall_cons in Hs as [Hs1 Hs]. apply Forall_cons in Hm as [Hm1 Hm].
    destruct (exec_step fuel range Hrange o b w Hc Hs1) as (b1 & w1 & He & Hc1 & _).
    pose proof (exec_extends o b w b1 w1 Hc Hs1 Hm1 He) as Hext1.
    destruct (IH b1 w1 Hc1 Hs Hm) as (b' & w' & Hrun & Hc' & Hext).
    exists b', w'. cbn [run]. rewrite He. cbn [mbind outcome_bind].
    split; [done|]. split; [done|]. by eapply extends_trans.
Qed.

End run_extras.

(** The engine only appends: through any run of operations other than
    [Merge], every file of the directory keeps the bytes it had, at the
    place they had, and no file goes away. *)
Theorem runs_without_Merge_only_append fuel range ops b w :
  range_ok range -> consistent b w -> Forall op_sized ops ->
  Forall (fun o => ~ is_merge o) ops ->
  exists b' w',
    run fuel range ops b w = Done (b', w') /\
    forall nm c, os.files w !! nm = Some c ->
      exists extra, os.files w' !! nm = Some (c ++ extra).
Proof.
  intros Hr Hc Hs Hm.
  destruct (run_extends fuel range Hr ops b w Hc Hs Hm) as (b' & w' & Hrun & _ & Hext).
  by exists b', w'.
Qed.

Lemma runs_without_Merge_only_append_witness :
  exists b' w',
    run 6 map_to_list [OpPut "k2" "v2"; OpDelete "k"; OpGet "k"; OpFold; OpSync]
      live_state.1 live_state.2 = Done (b', w') /\
    forall nm c, os.files live_state.2 !! nm = Some c ->
      exists extra, os.files w' !! nm = Some (c ++ extra).
Proof.
  apply (runs_without_Merge_only_append 6 map_to_list
           [OpPut "k2" "v2"; OpDelete "k"; OpGet "k"; OpFold; OpSync]
           live_state.1 live_state.2);
    [apply range_ok_map_to_list|apply consistent_live_state| |].
  - repeat constructor; vm_compute; reflexivity.
  - repeat constructor; cbn; tauto.
Defined.

(** The engine keeps its invariant and returns.  From a consistent state
    (a read-write handle, no I/O fault, clock readings that increase), a
    run of operations, [Merge] included, in which every [Put] has a key
    and a value whose record the decoder reads back (18 + len key < 2^16
    and 18 + len key + len value < 2^32) neither panics nor fails to
    return, and the state it ends in is consistent: every index entry
    points at a complete record of its key in a segment of the directory,
    and the active writer stands at the end of its segment.  A [Put] of a
    longer key is left out: the [Get] after it panics in the decoder. *)
Theorem runs_return_and_stay_consistent fuel range ops b w :
  range_ok range -> consistent b w -> Forall op_sized ops ->
  exists b' w', run fuel range ops b w = Done (b', w') /\ consistent b' w'.
Proof. intros Hr Hc Hs. by apply run_consistent. Qed.

Lemma runs_return_and_stay_consistent_witness :
  exists b' w',
    run 6 map_to_list [OpPut "a" "1"; OpDelete "a"; OpMerge; OpPut "b" "2"; OpMerge; OpGet "a"]
      (opened [bitcask.ReadWrite]) new_dir = Done (b', w') /\
    consistent b' w'.
Proof.
  apply (runs_return_and_stay_consistent 6 map_to_list
           [OpPut "a" "1"; OpDelete "a"; OpMerge; OpPut "b" "2"; OpMerge; OpGet "a"]
           (opened [bitcask.ReadWrite]) new_dir);
    [apply range_ok_map_to_list|apply consistent_new_dir|].
  repeat constructor; vm_compute; reflexivity.
Defined.

(** ** Merge *)

(** [Merge] changes no answer: after it, [Get] returns for every key what
    it returned before. *)
Theorem Merge_keeps_every_answer fuel range b w :
  consistent b w -> range_ok range ->
  exists b' w',
    bitcask.Merge fuel range b w = Done (None, b', w') /\
    forall key, answer (bitcask.Get fuel b' w' key) = answer (bitcask.Get fuel b w key).
Proof.
  intros Hc Hr.
  destruct (Merge_step fuel range b w Hc Hr) as (b' & w' & HM & Hc' & Hst).
  exists b', w'. split; [done|]. intros key.
  destruct (Get_consistent fuel b w key Hc) as [r HG].
  by rewrite (Hst key r HG), HG.
Qed.

Lemma consistent_two_segments : consistent two_segments.1 two_segments.2.
Proof.
  destruct (run_consistent 6 map_to_list range_ok_map_to_list
              [OpPut "a" (filler 5000); OpPut "b" (filler 5000); OpPut "c" (filler 5000);
               OpDelete "a"] (opened [bitcask.ReadWrite]) new_dir)
    as (b' & w' & Hrun & Hc).
  - apply consistent_new_dir.
  - repeat constructor; vm_compute; done.
  - unfold two_segments. by rewrite Hrun.
Qed.

Lemma Fold_folds_over_the_keys_witness :
  (exists keys,
     (keys ≡ₚ bitcask.ListKeys (fun m => reverse (map_to_list m)) two_segments.1) /\
     bitcask.Fold 6 map_to_list (fun key value acc => (key, String.length value) :: acc)
       two_segments.1 two_segments.2 [] =
     Done (fold_left
             (fun acc key =>
                (key, String.length (value_at 6 two_segments.1 two_segments.2 key)) :: acc)
             keys [], two_segments.2)) /\
  forall key rec, bitcask.keyDir two_segments.1 !! key = Some rec ->
    located two_segments.2 key rec datastore.TompStone ->
    value_at 6 two_segments.1 two_segments.2 key = ""%string.
Proof.
  apply (Fold_folds_over_the_keys 6 map_to_list (fun m => reverse (map_to_list m))
           (fun key value acc => (key, String.length value) :: acc)
           two_segments.1 two_segments.2 []).
  - apply consistent_two_segments.
  - intros m. done.
  - intros m. apply reverse_Permutation.
Defined.

Lemma Merge_keeps_every_answer_witness :
  exists b' w',
    bitcask.Merge 6 map_to_list two_segments.1 two_segments.2 = Done (None, b', w') /\
    forall key, answer (bitcask.Get 6 b' w' key)
                = answer (bitcask.Get 6 two_segments.1 two_segments.2 key).
Proof.
  apply (Merge_keeps_every_answer 6 map_to_list two_segments.1 two_segments.2);
    [apply consistent_two_segments|apply range_ok_map_to_list].
Defined.

Lemma listOldFiles_loop_filter b names :
  forall res, ""%string ∉ names ->
    bitcask.listOldFiles_loop b names res =
    Done (res ++ filter (fun nm => old_file (datastore.Name (bitcask.activeFile b)) nm) names).
Proof.
  induction names as [|nm names IH]; intros res Hne.
  - by rewrite filter_nil, app_nil_r.
  - assert (Hne' : ""%string ∉ names) by (intros H; apply Hne; by right).
    destruct nm as [|c nm]; [exfalso; apply Hne; by left|].
    cbn [bitcask.listOldFiles_loop].
    destruct (decide _) as [Hyes|Hno].
    + rewrite IH by done. rewrite filter_cons_True.
      * by rewrite <- app_assoc.
      * cbn. by apply bool_decide_pack.
    + rewrite IH by done. rewrite filter_cons_False; [done|].
      cbn. intros H. by apply bool_decide_unpack in H.
Qed.

(** [Merge] clears the directory of the files it found there: every file
    that is neither hidden, nor the active segment, nor the keydir file is
    gone after the merge, the old segments and the hint files of an
    earlier merge alike; the hidden files, the active segment and the
    keydir file stay as they are. *)
Theorem Merge_removes_the_old_files fuel range b w :
  consistent b w -> range_ok range ->
  exists b' w',
    bitcask.Merge fuel range b w = Done (None, b', w') /\
    forall nm, is_Some (os.files w !! nm) ->
      os.files w' !! nm =
      if old_file (datastore.Name (bitcask.activeFile b)) nm then None
      else os.files w !! nm.
Proof.
  intros Hc Hr. destruct (range_entries range (bitcask.keyDir b) Hr) as [Hnd Hes].
  unfold bitcask.Merge. rewrite decide_False by (rewrite (cons_rw _ _ Hc); done).
  assert (Hnames : ""%string ∉ os.Readdir w).
  { unfold os.Readdir. intros Hin. apply list_elem_of_fmap in Hin as [[k c] [E Hin]].
    cbn in E. subst k. apply elem_of_map_to_list in Hin.
    rewrite (cons_names _ _ Hc) in Hin. done. }
  unfold bitcask.listOldFiles. rewrite listOldFiles_loop_filter by done.
  cbn [mbind outcome_bind app].
  set (old := filter _ _).
  assert (Hold : forall nm, nm ∈ old <->
            is_Some (os.files w !! nm) /\
            old_file (datastore.Name (bitcask.activeFile b)) nm).
  { intros nm. subst old. rewrite list_elem_of_filter. unfold os.Readdir.
    rewrite list_elem_of_fmap. split.
    - intros [Ho [[k c] [E Hin]]]. cbn in E. subst k.
      apply elem_of_map_to_list in Hin. split; [by exists c|done].
    - intros [[c Hin] Ho]. split; [done|]. exists (nm, c). split; [done|].
      by apply elem_of_map_to_list. }
  assert (Hndold : NoDup old).
  { subst old. apply NoDup_filter. unfold os.Readdir. apply NoDup_fst_map_to_list. }
  destruct (Merge_loop_ok fuel b w (range (bitcask.keyDir b)) Hc ∅
              (datastore.NewAppendFile datastore.Merge) w (merging_start b w Hc))
    as (nk & m & w2 & -> & Hm & Hg & Hsame & Hmerged).
  { intros key rec0 H. by apply Hes. }
  { done. }
  { intros key _. apply lookup_empty. }
  cbn [mbind outcome_bind].
  pose proof (mg_preserves _ _ _ Hm) as Hpres.
  destruct (deleteOldFiles_spec old w2 Hndold)
    as (w3 & Hdel & Hcl3 & Htk3 & Hrf3 & Hwf3 & Hlook).
  { intros nm Hnm. apply Hold in Hnm as [[c Hc'] _]. exists c. by apply Hpres. }
  rewrite Hdel. exists (bitcask.set_keyDir nk b), w3. split; [done|].
  intros nm [c Hc']. rewrite Hlook.
  destruct (old_file (datastore.Name (bitcask.activeFile b)) nm) eqn:Ho.
  - rewrite decide_True; [done|]. apply Hold. split; [by exists c|]. by rewrite Ho.
  - rewrite decide_False.
    + rewrite Hc'. by apply Hpres.
    + intros Hin. apply Hold in Hin as [_ Hin]. by rewrite Ho in Hin.
Qed.

Lemma Merge_removes_the_old_files_witness :
  exists b' w',
    bitcask.Merge 6 map_to_list two_segments.1 two_segments.2 = Done (None, b', w') /\
    forall nm, is_Some (os.files two_segments.2 !! nm) ->
      os.files w' !! nm =
      if old_file (datastore.Name (bitcask.activeFile two_segments.1)) nm then None
      else os.files two_segments.2 !! nm.
Proof.
  apply (Merge_removes_the_old_files 6 map_to_list two_segments.1 two_segments.2);
    [apply consistent_two_segments|apply range_ok_map_to_list].
Defined.

(** ** File names: suffixes and trimming *)

Lemma list_ascii_of_string_append s1 s2 :
  list_ascii_of_string (s1 +:+ s2) = list_ascii_of_string s1 ++ list_ascii_of_string s2.
Proof.
  induction s1 as [|c s1 IH]; [done|].
  change (c :: list_ascii_of_string (s1 +:+ s2) =
          c :: (list_ascii_of_string s1 ++ list_ascii_of_string s2)).
  by rewrite IH.
Qed.

Lemma numeral_append s1 s2 : numeral s1 -> numeral s2 -> numeral (s1 +:+ s2).
Proof.
  unfold numeral. rewrite list_ascii_of_string_append. intros. by apply Forall_app.
Qed.

Lemma numeral_pretty_N_char d : (d < 10)%N -> numeral_char (pretty_N_char d).
Proof.
  intros Hd.
  assert (H : exists n, d = N.of_nat n /\ (n < 10)%nat).
  { exists (N.to_nat d). lia. }
  destruct H as (n & -> & Hn). unfold numeral_char.
  do 10 (destruct n as [|n]; [cbn; set_solver|]). lia.
Qed.

Lemma pretty_N_go_digits x :
  exists ds, numeral ds /\ forall s, pretty_N_go x s = ds +:+ s.
Proof.
  induction (N.lt_wf_0 x) as [x _ IH].
  destruct (decide (0 < x)%N) as [Hx|Hx].
  - destruct (IH (x `div` 10)%N) as (ds & Hds & Hgo); [apply N.div_lt; lia|].
    exists (ds +:+ String (pretty_N_char (x `mod` 10)) "").
    split.
    + apply numeral_append; [done|]. constructor; [|constructor].
      apply numeral_pretty_N_char. apply N.mod_lt. lia.
    + intros s. rewrite pretty_N_go_step by done. rewrite Hgo.
      by rewrite append_assoc.
  - replace x with 0%N by lia. exists ""%string. split; [constructor|].
    intros s. by rewrite pretty_N_go_0.
Qed.

Lemma numeral_pretty (t : Z) : numeral (pretty t) /\ pretty t <> ""%string.
Proof.
  unfold pretty, pretty_Z. destruct t as [|p|p].
  - split; [|done]. constructor; [|constructor]. unfold numeral_char. cbn. set_solver.
  - unfold pretty, pretty_positive, pretty, pretty_N. rewrite decide_False by done.
    split; [|by apply pretty_N_go_nonempty].
    destruct (pretty_N_go_digits (N.pos p)) as (ds & Hds & Hgo).
    rewrite Hgo. apply numeral_append; [done|constructor].
  - split; [|done].
    unfold pretty, pretty_positive, pretty, pretty_N. rewrite decide_False by done.
    destruct (pretty_N_go_digits (N.pos p)) as (ds & Hds & Hgo).
    rewrite Hgo. apply (numeral_append "-"); [|apply numeral_append; [done|constructor]].
    constructor; [|constructor]. unfold numeral_char. cbn. set_solver.
Qed.

Lemma numeral_char_not_cut c :
  numeral_char c -> in_cutset c ".hint" = false /\ in_cutset c ".data" = false.
Proof.
  unfold numeral_char. cbn. intros H.
  repeat (apply elem_of_cons in H as [->|H]; [by split|]).
  by apply elem_of_nil in H.
Qed.

Lemma TrimLeft_kept c s cutset :
  in_cutset c cutset = false -> TrimLeft (String c s) cutset = String c s.
Proof. intros H. cbn. by rewrite H. Qed.

Lemma TrimRight_all_cut s cutset :
  Forall (fun c => in_cutset c cutset = true) (list_ascii_of_string s) ->
  TrimRight s cutset = ""%string.
Proof.
  induction s as [|c s IH]; [done|]. cbn. intros H.
  apply Forall_cons in H as [Hc H]. by rewrite IH, Hc.
Qed.

Lemma TrimRight_app s1 s2 cutset :
  Forall (fun c => in_cutset c cutset = true) (list_ascii_of_string s2) ->
  TrimRight (s1 +:+ s2) cutset = TrimRight s1 cutset.
Proof.
  intros H. induction s1 as [|c s1 IH].
  - by apply TrimRight_all_cut.
  - change (TrimRight (String c (s1 +:+ s2)) cutset = TrimRight (String c s1) cutset).
    cbn. by rewrite IH.
Qed.

Lemma TrimRight_kept s cutset :
  Forall (fun c => in_cutset c cutset = false) (list_ascii_of_string s) ->
  TrimRight s cutset = s.
Proof.
  induction s as [|c s IH]; [done|]. cbn. intros H.
  apply Forall_cons in H as [Hc H]. rewrite IH by done.
  destruct s; [by rewrite Hc|done].
Qed.

Lemma Trim_numeral s ext :
  numeral s -> s <> ""%string ->
  (forall c, numeral_char c -> in_cutset c ext = false) ->
  Forall (fun c => in_cutset c ext = true) (list_ascii_of_string ext) ->
  Trim (s +:+ ext) ext = s.
Proof.
  intros Hs Hne Hcut Hext. unfold Trim.
  destruct s as [|c s]; [done|].
  change (String c s +:+ ext) with (String c (s +:+ ext)).
  assert (Hc : in_cutset c ext = false).
  { apply Hcut. by apply Forall_cons in Hs as [Hc _]. }
  rewrite TrimLeft_kept by done.
  change (String c (s +:+ ext)) with (String c s +:+ ext).
  rewrite TrimRight_app by done. apply TrimRight_kept.
  eapply Forall_impl; [exact Hs|]. intros c0 Hc0. by apply Hcut.
Qed.

Lemma Trim_hintName t : Trim (datastore.hintName t) ".hint" = pretty t.
Proof.
  destruct (numeral_pretty t) as [Hn Hne].
  apply Trim_numeral; [done|done| |].
  - intros c Hc. by apply numeral_char_not_cut.
  - repeat constructor.
Qed.

Lemma Trim_dataName t : Trim (datastore.dataName t) ".data" = pretty t.
Proof.
  destruct (numeral_pretty t) as [Hn Hne].
  apply Trim_numeral; [done|done| |].
  - intros c Hc. by apply numeral_char_not_cut.
  - repeat constructor.
Qed.

Lemma HasSuffix_same_length s t u :
  String.length t = String.length u -> HasSuffix (s +:+ t) u = String.eqb t u.
Proof.
  intros Hlen. unfold HasSuffix. rewrite length_append.
  rewrite bool_decide_eq_true_2 by lia. cbn [andb].
  replace (String.length s + String.length t - String.length u)%nat
    with (String.length s) by lia.
  by rewrite <- Hlen, substring_append.
Qed.

Lemma HasSuffix_dataName t :
  HasSuffix (datastore.dataName t) ".data" = true /\
  HasSuffix (datastore.dataName t) ".hint" = false.
Proof. unfold datastore.dataName. by rewrite !HasSuffix_same_length. Qed.

Lemma HasSuffix_hintName t :
  HasSuffix (datastore.hintName t) ".hint" = true /\
  HasSuffix (datastore.hintName t) ".data" = false.
Proof. unfold datastore.hintName. by rewrite !HasSuffix_same_length. Qed.

Lemma dataName_visible t : exists c s, datastore.dataName t = String c s /\ c <> "."%char.
Proof.
  destruct (numeral_pretty t) as [Hn Hne]. unfold datastore.dataName.
  destruct (pretty t) as [|c s]; [done|]. exists c, (s +:+ ".data"). split; [done|].
  apply Forall_cons in Hn as [Hc _]. intros ->.
  apply numeral_char_not_cut in Hc as [Hc _]. done.
Qed.

(** ** [categorizeFiles] *)

Lemma categorize_hints_spec allFiles :
  forall hintFiles res,
    let r := keydir.categorize_hints allFiles hintFiles res in
    (forall s, is_Some (r.1 !! s) <->
       is_Some (hintFiles !! s) \/
       exists nm, nm ∈ allFiles /\ HasSuffix nm ".hint" = true /\ Trim nm ".hint" = s) /\
    (forall nm, r.2 !! nm =
       if decide (nm ∈ allFiles /\ HasSuffix nm ".hint" = true) then Some keydir.hint
       else res !! nm).
Proof.
  induction allFiles as [|file allFiles IH]; intros hintFiles res; cbn zeta.
  - cbn. split.
    + intros s. split; [by left|]. intros [H|(nm & H & _)]; [done|].
      by apply elem_of_nil in H.
    + intros nm. rewrite decide_False; [done|]. intros [H _]. by apply elem_of_nil in H.
  - cbn [keydir.categorize_hints].
    destruct (HasSuffix file ".hint") eqn:Hsuf.
    + destruct (IH (<[Trim file ".hint" := 1]> hintFiles) (<[file := keydir.hint]> res))
        as [H1 H2]. split.
      * intros s. rewrite H1. split.
        -- intros [H|(nm & Hin & Hs & Ht)].
           ++ destruct (decide (Trim file ".hint" = s)) as [E|E].
              ** right. exists file. split; [by left|done].
              ** rewrite lookup_insert_ne in H by done. by left.
           ++ right. exists nm. split; [by right|done].
        -- intros [H|(nm & Hin & Hs & Ht)].
           ++ left. destruct (decide (Trim file ".hint" = s)) as [E|E].
              ** rewrite E, lookup_insert_eq. done.
              ** by rewrite lookup_insert_ne.
           ++ apply elem_of_cons in Hin as [->|Hin].
              ** left. rewrite Ht, lookup_insert_eq. done.
              ** right. by exists nm.
      * intros nm. rewrite H2.
        destruct (decide (nm ∈ allFiles /\ HasSuffix nm ".hint" = true)) as [[Hin Hs]|Hno].
        -- rewrite decide_True; [done|]. split; [by right|done].
        -- destruct (decide (nm = file)) as [->|Hne].
           ++ rewrite lookup_insert_eq. rewrite decide_True; [done|]. split; [by left|done].
           ++ rewrite lookup_insert_ne by done. rewrite decide_False; [done|].
              intros [Hin Hs]. apply elem_of_cons in Hin as [?|Hin]; [done|].
              by apply Hno.
    + destruct (IH hintFiles res) as [H1 H2]. split.
      * intros s. rewrite H1. split.
        -- intros [H|(nm & Hin & Hs & Ht)]; [by left|].
           right. exists nm. split; [by right|done].
        -- intros [H|(nm & Hin & Hs & Ht)]; [by left|].
           apply elem_of_cons in Hin as [->|Hin]; [congruence|].
           right. by exists nm.
      * intros nm. rewrite H2.
        destruct (decide (nm ∈ allFiles /\ HasSuffix nm ".hint" = true)) as [[Hin Hs]|Hno].
        -- rewrite decide_True; [done|]. split; [by right|done].
        -- rewrite decide_False; [done|].
           intros [Hin Hs]. apply elem_of_cons in Hin as [->|Hin]; [congruence|].
           by apply Hno.
Qed.

Lemma categorize_data_spec hintFiles allFiles :
  forall res nm,
    keydir.categorize_data allFiles hintFiles res !! nm =
    if decide (nm ∈ allFiles /\ HasSuffix nm ".data" = true /\
               hintFiles !! Trim nm ".data" = None)
    then Some keydir.data else res !! nm.
Proof.
  induction allFiles as [|file allFiles IH]; intros res nm.
  - cbn. rewrite decide_False; [done|]. intros [H _]. by apply elem_of_nil in H.
  - cbn [keydir.categorize_data].
    assert (Hskip : ~ (HasSuffix file ".data" = true /\
                       hintFiles !! Trim file ".data" = None) ->
              (if decide (nm ∈ allFiles /\ HasSuffix nm ".data" = true /\
                          hintFiles !! Trim nm ".data" = None)
               then Some keydir.data else res !! nm) =
              (if decide (nm ∈ file :: allFiles /\ HasSuffix nm ".data" = true /\
                          hintFiles !! Trim nm ".data" = None)
               then Some keydir.data else res !! nm)).
    { intros Hno.
      destruct (decide (nm ∈ allFiles /\ _)) as [(Hin & Hs & Hh)|Hn].
      - rewrite decide_True; [done|]. split; [by right|done].
      - rewrite decide_False; [done|]. intros (Hin & Hs & Hh).
        apply elem_of_cons in Hin as [->|Hin]; [by apply Hno|]. by apply Hn. }
    destruct (HasSuffix file ".data") eqn:Hsuf.
    + destruct (hintFiles !! Trim file ".data") eqn:Hh.
      * rewrite IH. apply Hskip. intros [_ ?]. congruence.
      * rewrite IH.
        destruct (decide (nm ∈ allFiles /\ _)) as [(Hin & Hs & Hh')|Hn].
        -- rewrite decide_True; [done|]. split; [by right|done].
        -- destruct (decide (nm = file)) as [->|Hne].
           ++ rewrite lookup_insert_eq. rewrite decide_True; [done|]. split; [by left|done].
           ++ rewrite lookup_insert_ne by done. rewrite decide_False; [done|].
              intros (Hin & Hs & Hh').
              apply elem_of_cons in Hin as [?|Hin]; [done|]. by apply Hn.
    + rewrite IH. apply Hskip. intros [? _]. congruence.
Qed.

Lemma categorizeFiles_engine_names allFiles :
  Forall engine_name allFiles ->
  (forall t, datastore.hintName t ∈ allFiles ->
     keydir.categorizeFiles allFiles !! datastore.hintName t = Some keydir.hint) /\
  (forall t, datastore.dataName t ∈ allFiles ->
     keydir.categorizeFiles allFiles !! datastore.dataName t =
     if decide (datastore.hintName t ∈ allFiles) then None else Some keydir.data) /\
  (forall nm, nm ∉ allFiles \/
              (HasSuffix nm ".data" = false /\ HasSuffix nm ".hint" = false) ->
     keydir.categorizeFiles allFiles !! nm = None).
Proof.
  intros Hnames. unfold keydir.categorizeFiles.
  pose proof (categorize_hints_spec allFiles ∅ ∅) as H. cbn zeta in H.
  destruct (keydir.categorize_hints allFiles ∅ ∅) as [hintFiles res].
  destruct H as [Hh Hr]. cbn [fst snd] in Hh, Hr.
  assert (Hnoted : forall t, hintFiles !! pretty t = None <->
                             datastore.hintName t ∉ allFiles).
  { intros t. rewrite eq_None_not_Some, Hh. split.
    - intros Hno Hin. apply Hno. right. exists (datastore.hintName t).
      split; [done|]. split; [apply HasSuffix_hintName|apply Trim_hintName].
    - intros Hni [H|(nm & Hin & Hs & Ht)].
      + rewrite lookup_empty in H. by destruct H.
      + rewrite Forall_forall in Hnames.
        destruct (Hnames nm Hin) as [[t' ->]|[[t' ->]|[_ Hs']]].
        * destruct (HasSuffix_dataName t'). congruence.
        * rewrite Trim_hintName in Ht. apply (inj pretty) in Ht. by subst t'.
        * congruence. }
  split; [|split].
  - intros t Hin. rewrite categorize_data_spec.
    rewrite decide_False.
    + rewrite Hr. rewrite decide_True; [done|]. split; [done|]. apply HasSuffix_hintName.
    + intros (_ & Hs & _). destruct (HasSuffix_hintName t). congruence.
  - intros t Hin. rewrite categorize_data_spec, Trim_dataName.
    destruct (decide (datastore.hintName t ∈ allFiles)) as [Hhint|Hnohint].
    + rewrite decide_False.
      * rewrite Hr. rewrite decide_False; [apply lookup_empty|].
        intros [_ Hs]. destruct (HasSuffix_dataName t). congruence.
      * intros (_ & _ & Hno). by apply Hnoted in Hno.
    + rewrite decide_True; [done|]. split; [done|]. split; [apply HasSuffix_dataName|].
      by apply Hnoted.
  - intros nm Hnm. rewrite categorize_data_spec.
    rewrite decide_False.
    + rewrite Hr. rewrite decide_False; [apply lookup_empty|].
      intros [Hin Hs]. destruct Hnm as [?|[_ ?]]; [done|congruence].
    + intros (Hin & Hs & _). destruct Hnm as [?|[? _]]; [done|congruence].
Qed.

(** Among names as the engine gives them, [categorizeFiles] makes every
    hint file a hint file, makes a segment a data file exactly when the
    directory has no hint file of the same identifier, and leaves out every
    other name. *)
Theorem categorizeFiles_prefers_hints allFiles :
  Forall engine_name allFiles ->
  (forall t, datastore.hintName t ∈ allFiles ->
     keydir.categorizeFiles allFiles !! datastore.hintName t = Some keydir.hint) /\
  (forall t, datastore.dataName t ∈ allFiles ->
     keydir.categorizeFiles allFiles !! datastore.dataName t =
     if decide (datastore.hintName t ∈ allFiles) then None else Some keydir.data) /\
  (forall nm, nm ∉ allFiles \/
              (HasSuffix nm ".data" = false /\ HasSuffix nm ".hint" = false) ->
     keydir.categorizeFiles allFiles !! nm = None).
Proof. apply categorizeFiles_engine_names. Qed.

Lemma categorizeFiles_prefers_hints_witness :
  keydir.categorizeFiles ["1.data"; "2.data"; "2.hint"; "keydir"]%string
    !! datastore.dataName 2 = None /\
  keydir.categorizeFiles ["1.data"; "2.data"; "2.hint"; "keydir"]%string
    !! datastore.dataName 1 = Some keydir.data.
Proof.
  assert (Hn : Forall engine_name ["1.data"; "2.data"; "2.hint"; "keydir"]%string).
  { rewrite !Forall_cons. split_and!; [| | | |apply Forall_nil_2].
    - left. by exists 1.
    - left. by exists 2.
    - right. left. by exists 2.
    - right. right. by split. }
  destruct (categorizeFiles_prefers_hints _ Hn) as (_ & Hd & _).
  split.
  - rewrite (Hd 2) by set_solver. by rewrite decide_True by set_solver.
  - rewrite (Hd 1) by set_solver. rewrite decide_False; [done|].
    intros H. repeat (apply elem_of_cons in H as [H|H]; [discriminate|]).
    by apply elem_of_nil in H.
Defined.

(** ** Building the index from the segments *)

Lemma length_segment_bytes recs :
  (length recs <= length (segment_bytes recs))%nat.
Proof.
  induction recs as [|[[key value] t] recs IH]; [done|].
  cbn [segment_bytes length]. rewrite length_app.
  pose proof (length_CompressDataFileRec key value t).
  pose proof (len_nonneg key). pose proof (len_nonneg value). lia.
Qed.

Lemma length_hint_bytes entries :
  (length entries <= length (hint_bytes entries))%nat.
Proof.
  induction entries as [|[key rec] entries IH]; [done|].
  cbn [hint_bytes length]. rewrite length_app.
  pose proof (length_CompressHintFileRec key rec).
  pose proof (len_nonneg key). lia.
Qed.

Lemma segment_bytes_app recs1 recs2 :
  segment_bytes (recs1 ++ recs2) = segment_bytes recs1 ++ segment_bytes recs2.
Proof.
  induction recs1 as [|[[key value] t] recs1 IH]; [done|].
  cbn [segment_bytes app]. by rewrite IH, app_assoc.
Qed.

Lemma parseDataFile_loop_segment nm recs :
  forall pre fl k,
    Forall rec_ok recs -> (length recs <= fl)%nat ->
    keydir.parseDataFile_loop fl nm (pre ++ segment_bytes recs) (Z.of_nat (length pre)) k
    = Done (foldl keep_latest k (entries_from nm (Z.of_nat (length pre)) recs), None).
Proof.
  induction recs as [|[[key value] t] recs IH]; intros pre fl k Hok Hfl.
  - cbn [segment_bytes entries_from foldl]. rewrite app_nil_r.
    destruct fl; cbn [keydir.parseDataFile_loop]; by rewrite decide_False by lia.
  - apply Forall_cons in Hok as [[[Hk Hv] Ht] Hok]. cbn [fst snd] in Hk, Hv, Ht.
    destruct fl as [|fl]; [simpl in Hfl; lia|].
    cbn [segment_bytes entries_from foldl keydir.parseDataFile_loop].
    pose proof (length_CompressDataFileRec key value t) as Hlen.
    pose proof (len_nonneg key). pose proof (len_nonneg value).
    rewrite decide_True by (rewrite !length_app; lia).
    rewrite Nat2Z.id, drop_app_length.
    rewrite ExtractDataFileRec_record by done.
    cbn [recfmt.Key recfmt.Tstamp recfmt.ValueSize].
    rewrite app_assoc.
    replace (Z.of_nat (length pre) + (18 + len key + len value))
      with (Z.of_nat (length (pre ++ recfmt.CompressDataFileRec key value t)))
      by (rewrite length_app; lia).
    rewrite IH; [|done|simpl in Hfl; lia].
    done.
Qed.

Lemma parseDataFile_segment k w nm recs :
  os.files w !! nm = Some (segment_bytes recs) -> Forall rec_ok recs ->
  keydir.parseDataFile k w nm = Done (foldl keep_latest k (entries_from nm 0 recs), None).
Proof.
  intros Hf Hok. unfold keydir.parseDataFile, os.ReadFile. rewrite Hf.
  apply (parseDataFile_loop_segment nm recs []); [done|apply length_segment_bytes].
Qed.

Lemma parseHintFile_loop_hints nm entries :
  forall pre fl k,
    Forall hint_ok entries -> (length entries <= fl)%nat ->
    keydir.parseHintFile_loop fl nm (pre ++ hint_bytes entries) (Z.of_nat (length pre)) k
    = Done (foldl (take_hint (Trim nm ".hint" +:+ ".data")) k entries, None).
Proof.
  induction entries as [|[key rec] entries IH]; intros pre fl k Hok Hfl.
  - cbn [hint_bytes foldl]. rewrite app_nil_r.
    destruct fl; cbn [keydir.parseHintFile_loop]; by rewrite decide_False by lia.
  - apply Forall_cons in Hok as [(Hk & Hp & Hs & Ht) Hok]. cbn [fst snd] in Hk, Hp, Hs, Ht.
    destruct fl as [|fl]; [simpl in Hfl; lia|].
    cbn [hint_bytes foldl keydir.parseHintFile_loop].
    pose proof (length_CompressHintFileRec key rec) as Hlen.
    pose proof (len_nonneg key).
    rewrite decide_True by (rewrite !length_app; lia).
    rewrite Nat2Z.id, drop_app_length.
    rewrite ExtractHintFileRec_record by done.
    cbn [recfmt.ValuePos recfmt.RecValueSize recfmt.RecTstamp].
    rewrite app_assoc.
    replace (Z.of_nat (length pre) + (18 + len key))
      with (Z.of_nat (length (pre ++ recfmt.CompressHintFileRec key rec)))
      by (rewrite length_app; lia).
    rewrite IH; [|done|simpl in Hfl; lia].
    done.
Qed.

(** [parseHintFile] reads a hint file that holds whole hint records from
    its first to its last: it binds each key to an entry in the segment of
    the same identifier, at the position and with the size and timestamp
    the hint gives, in place of whatever the index held for the key. *)
Theorem parseHintFile_reads_the_hints k w t entries :
  os.files w !! datastore.hintName t = Some (hint_bytes entries) ->
  Forall hint_ok entries ->
  keydir.parseHintFile k w (datastore.hintName t) =
  Done (foldl (take_hint (datastore.dataName t)) k entries, None).
Proof.
  intros Hf Hok. unfold keydir.parseHintFile, os.ReadFile. rewrite Hf.
  rewrite (parseHintFile_loop_hints (datastore.hintName t) entries []);
    [|done|apply length_hint_bytes].
  by rewrite Trim_hintName.
Qed.

Lemma parseHintFile_reads_the_hints_witness :
  let e1 := {| recfmt.FileId := "7.data"; recfmt.ValuePos := 0;
               recfmt.RecValueSize := 1; recfmt.RecTstamp := 8 |} in
  let e2 := {| recfmt.FileId := "7.data"; recfmt.ValuePos := 20;
               recfmt.RecValueSize := 2; recfmt.RecTstamp := 9 |} in
  let w := os.set_files {[ "7.hint"%string := hint_bytes [("a"%string, e1); ("b"%string, e2)] ]}
             new_dir in
  keydir.parseHintFile {[ "a"%string := entry_in_segment ]} w "7.hint"
  = Done ({[ "a"%string := e1; "b"%string := e2 ]}, None).
Proof.
  intros e1 e2 w.
  rewrite (parseHintFile_reads_the_hints {[ "a"%string := entry_in_segment ]} w 7
             [("a"%string, e1); ("b"%string, e2)]).
  - vm_compute. reflexivity.
  - vm_compute. reflexivity.
  - rewrite !Forall_cons. split_and!; [..|apply Forall_nil_2]; vm_compute; done.
Defined.

(** *** The latest entry of every key *)

Lemma keep_latest_step es0 k0 e :
  (forall key, latest_of es0 key (k0 !! key)) ->
  forall key, latest_of (es0 ++ [e]) key (keep_latest k0 e !! key).
Proof.
  intros Hinv key. destruct e as [ke re]. unfold keep_latest. cbn [fst snd].
  pose proof (Hinv ke) as Hke. pose proof (Hinv key) as Hkey.
  assert (Hother : ke <> key -> latest_of (es0 ++ [(ke, re)]) key (k0 !! key)).
  { intros Hne. destruct (k0 !! key) as [e|]; cbn in *.
    - destruct Hkey as [Hin Hmax]. split; [apply elem_of_app; by left|].
      intros e' He'. apply elem_of_app in He' as [He'|He']; [by apply Hmax|].
      apply list_elem_of_singleton in He'. congruence.
    - intros e He. apply elem_of_app in He as [He|He]; [by apply (Hkey e)|].
      apply list_elem_of_singleton in He. congruence. }
  destruct (k0 !! ke) as [old|] eqn:Hold.
  - destruct (decide (recfmt.RecTstamp old < recfmt.RecTstamp re)) as [Hlt|Hge].
    + destruct (decide (ke = key)) as [<-|Hne]; [|rewrite lookup_insert_ne by done; auto].
      rewrite lookup_insert_eq. cbn. split; [apply elem_of_app; right; by left|].
      intros e' He'. apply elem_of_app in He' as [He'|He'].
      * destruct Hke as [_ Hmax]. specialize (Hmax e' He'). lia.
      * apply list_elem_of_singleton in He'. injection He' as ->. lia.
    + destruct (decide (ke = key)) as [<-|Hne]; [|auto].
      rewrite Hold. cbn. destruct Hke as [Hin Hmax].
      split; [apply elem_of_app; by left|].
      intros e' He'. apply elem_of_app in He' as [He'|He']; [by apply Hmax|].
      apply list_elem_of_singleton in He'. injection He' as ->. lia.
  - destruct (decide (ke = key)) as [<-|Hne]; [|rewrite lookup_insert_ne by done; auto].
    rewrite lookup_insert_eq. cbn. split; [apply elem_of_app; right; by left|].
    intros e' He'. apply elem_of_app in He' as [He'|He'].
    * by destruct (Hke e').
    * apply list_elem_of_singleton in He'. injection He' as ->. lia.
Qed.

Lemma foldl_keep_latest es :
  forall es0 k0,
    (forall key, latest_of es0 key (k0 !! key)) ->
    forall key, latest_of (es0 ++ es) key (foldl keep_latest k0 es !! key).
Proof.
  induction es as [|e es IH]; intros es0 k0 Hinv key.
  - rewrite app_nil_r. apply Hinv.
  - cbn [foldl]. rewrite cons_middle, app_assoc.
    apply IH. by apply keep_latest_step.
Qed.

Lemma elem_of_entries_from nm pos recs key e :
  (key, e) ∈ entries_from nm pos recs ->
  recfmt.FileId e = nm /\ exists value, (key, value, recfmt.RecTstamp e) ∈ recs.
Proof.
  revert pos. induction recs as [|[[k v] t] recs IH]; intros pos H.
  - by apply elem_of_nil in H.
  - cbn [entries_from] in H. apply elem_of_cons in H as [H|H].
    + injection H as -> ->. split; [done|]. exists v. by left.
    + destruct (IH _ H) as [? [value Hin]]. split; [done|]. exists value. by right.
Qed.

Lemma entries_from_app nm pos recs1 recs2 :
  entries_from nm pos (recs1 ++ recs2) =
  entries_from nm pos recs1 ++
  entries_from nm (pos + Z.of_nat (length (segment_bytes recs1))) recs2.
Proof.
  revert pos. induction recs1 as [|[[k v] t] recs1 IH]; intros pos.
  - cbn. by rewrite Z.add_0_r.
  - cbn [entries_from segment_bytes app]. rewrite IH. do 3 f_equal.
    rewrite length_app. pose proof (length_CompressDataFileRec k v t). lia.
Qed.

Lemma elem_of_entries_of segs names key e :
  (key, e) ∈ entries_of segs names <->
  exists nm, nm ∈ names /\ (key, e) ∈ entries_from nm 0 (default [] (segs !! nm)).
Proof.
  induction names as [|nm names IH].
  - split; [intros H; by apply elem_of_nil in H|].
    intros (nm & H & _). by apply elem_of_nil in H.
  - cbn [entries_of]. rewrite elem_of_app, IH. split.
    + intros [H|(nm' & Hin & H)].
      * exists nm. split; [by left|done].
      * exists nm'. split; [by right|done].
    + intros (nm' & Hin & H). apply elem_of_cons in Hin as [->|Hin]; [by left|].
      right. by exists nm'.
Qed.

Lemma parseFiles_loop_segments w segs L :
  forall k,
    (forall nm recs, segs !! nm = Some recs ->
       os.files w !! nm = Some (segment_bytes recs) /\ Forall rec_ok recs) ->
    (forall nm ft, (nm, ft) ∈ L -> ft = keydir.data /\ is_Some (segs !! nm)) ->
    keydir.parseFiles_loop k w L = Done (foldl keep_latest k (entries_of segs L.*1), None).
Proof.
  induction L as [|[nm ft] L IH]; intros k Hsegs HL; [done|].
  destruct (HL nm ft) as [-> [recs Hrecs]]; [by left|].
  destruct (Hsegs nm recs Hrecs) as [Hf Hok].
  cbn [keydir.parseFiles_loop fmap list_fmap fst entries_of].
  rewrite (parseDataFile_segment k w nm recs Hf Hok). cbn [mbind outcome_bind].
  rewrite IH; [|done|intros nm' ft' H; apply HL; by right].
  rewrite foldl_app. by rewrite Hrecs.
Qed.

Lemma visible_loop_filter names :
  forall res, ""%string ∉ names ->
    keydir.visible_loop names res = Done (res ++ filter (fun nm => visible nm) names).
Proof.
  induction names as [|nm names IH]; intros res Hne.
  - by rewrite filter_nil, app_nil_r.
  - assert (Hne' : ""%string ∉ names) by (intros H; apply Hne; by right).
    destruct nm as [|c nm]; [exfalso; apply Hne; by left|].
    cbn [keydir.visible_loop].
    destruct (decide (c <> "."%char)) as [Hyes|Hno].
    + rewrite IH by done. rewrite filter_cons_True.
      * by rewrite <- app_assoc.
      * cbn. by apply bool_decide_pack.
    + rewrite IH by done. rewrite filter_cons_False; [done|].
      cbn. intros H. by apply bool_decide_unpack in H.
Qed.

Lemma hintName_visible t : exists c s, datastore.hintName t = String c s /\ c <> "."%char.
Proof.
  destruct (numeral_pretty t) as [Hn Hne]. unfold datastore.hintName.
  destruct (pretty t) as [|c s]; [done|]. exists c, (s +:+ ".hint"). split; [done|].
  apply Forall_cons in Hn as [Hc _]. intros ->.
  apply numeral_char_not_cut in Hc as [Hc _]. done.
Qed.

Section journaled.
Variable rangeFiles : gmap string keydir.fileType -> list (string * keydir.fileType).
Hypothesis HrangeFiles : rangeFiles_ok rangeFiles.
Variable w : os.World.
Variable segs : gmap string (list (string * string * Z)).
Hypothesis Hnames : os.files w !! ""%string = None.
Hypothesis Hfiles : forall nm, is_Some (os.files w !! nm) ->
                      is_Some (segs !! nm) \/ hidden_or_plain nm.
Hypothesis Hsegs : forall nm recs, segs !! nm = Some recs ->
                     (exists t, nm = datastore.dataName t) /\
                     os.files w !! nm = Some (segment_bytes recs).
Hypothesis Hrecs : forall nm recs, segs !! nm = Some recs -> Forall rec_ok recs.

Lemma categorizeFiles_journal :
  forall nm,
    keydir.categorizeFiles (filter (fun nm => visible nm) (os.Readdir w)) !! nm =
    if decide (is_Some (segs !! nm)) then Some keydir.data else None.
Proof.
  set (names := filter _ _).
  assert (Hin : forall nm, nm ∈ names <-> is_Some (os.files w !! nm) /\ visible nm).
  { intros nm. subst names. rewrite list_elem_of_filter. unfold os.Readdir.
    rewrite list_elem_of_fmap. split.
    - intros [Hv [[k c] [E H]]]. cbn in E. subst k.
      apply elem_of_map_to_list in H. split; [by exists c|done].
    - intros [[c H] Hv]. split; [done|]. exists (nm, c). split; [done|].
      by apply elem_of_map_to_list. }
  assert (Hvis : forall c s, visible (String c s) -> c <> "."%char).
  { intros c s H. cbn in H. by apply bool_decide_unpack in H. }
  assert (Heng : Forall engine_name names).
  { apply Forall_forall. intros nm Hnm. apply Hin in Hnm as [Hf Hv].
    destruct (Hfiles nm Hf) as [[recs Hs]|[[s ->]|Hplain]].
    - destruct (Hsegs nm recs Hs) as [[t ->] _]. left. by exists t.
    - exfalso. by apply (Hvis _ _ Hv).
    - by right; right. }
  assert (Hnohint : forall t, datastore.hintName t ∉ names).
  { intros t Hnm. apply Hin in Hnm as [Hf Hv].
    destruct (Hfiles _ Hf) as [[recs Hs]|[[s Hs]|[_ Hplain]]].
    - destruct (Hsegs _ recs Hs) as [[t' E] _]. by apply hintName_dataName in E.
    - destruct (hintName_visible t) as (c & s' & E & Hc). congruence.
    - destruct (HasSuffix_hintName t). congruence. }
  destruct (categorizeFiles_engine_names names Heng) as (_ & Hd & Ho).
  intros nm. destruct (decide (is_Some (segs !! nm))) as [[recs Hs]|Hno].
  - destruct (Hsegs nm recs Hs) as [[t ->] Hf].
    rewrite Hd.
    + rewrite decide_False; [done|apply Hnohint].
    + apply Hin. split; [by rewrite Hf|].
      destruct (dataName_visible t) as (c & s & -> & Hc). cbn. by apply bool_decide_pack.
  - apply Ho. destruct (decide (nm ∈ names)) as [Hnm|Hnm]; [|by left].
    right. apply Hin in Hnm as [Hf Hv].
    destruct (Hfiles nm Hf) as [?|[[s ->]|Hplain]]; [done| |done].
    exfalso. by apply (Hvis _ _ Hv).
Qed.

Lemma dataStoreFilesBuild_journal :
  exists k,
    keydir.dataStoreFilesBuild rangeFiles ∅ w = Done (k, None) /\
    forall key, latest segs key (k !! key).
Proof.
  unfold keydir.dataStoreFilesBuild.
  assert (Hne : ""%string ∉ os.Readdir w).
  { unfold os.Readdir. intros Hin. apply list_elem_of_fmap in Hin as [[k c] [E Hin]].
    cbn in E. subst k. apply elem_of_map_to_list in Hin. by rewrite Hnames in Hin. }
  rewrite visible_loop_filter by done. cbn [mbind outcome_bind app].
  unfold keydir.parseFiles.
  set (cat := keydir.categorizeFiles _).
  assert (HL : forall nm ft, (nm, ft) ∈ rangeFiles cat <->
                             ft = keydir.data /\ is_Some (segs !! nm)).
  { intros nm ft. rewrite (HrangeFiles cat), elem_of_map_to_list.
    subst cat. rewrite categorizeFiles_journal.
    destruct (decide (is_Some (segs !! nm))); split; try done.
    - intros [= <-]. done.
    - intros [-> _]. done.
    - intros [_ ?]. done. }
  rewrite (parseFiles_loop_segments w segs).
  2:{ intros nm recs Hs. split; [by apply Hsegs|by apply (Hrecs nm)]. }
  2:{ intros nm ft H. by apply HL. }
  eexists. split; [done|]. intros key.
  pose proof (foldl_keep_latest (entries_of segs (rangeFiles cat).*1) [] ∅) as Hl.
  specialize (Hl ltac:(intros key0; rewrite lookup_empty; intros e He; by apply elem_of_nil in He) key).
  cbn [app] in Hl.
  assert (Hmem : forall e, (key, e) ∈ entries_of segs (rangeFiles cat).*1 <->
                           index_entry segs key e).
  { intros e. rewrite elem_of_entries_of. unfold index_entry. split.
    - intros (nm & Hnm & He). apply list_elem_of_fmap in Hnm as [[nm' ft] [E Hnm]].
      cbn in E. subst nm'. apply HL in Hnm as [_ [recs Hs]].
      exists nm, recs. rewrite Hs in He. done.
    - intros (nm & recs & Hs & He). exists nm. split.
      + apply list_elem_of_fmap. exists (nm, keydir.data). split; [done|].
        apply HL. split; [done|]. by exists recs.
      + by rewrite Hs. }
  destruct (foldl keep_latest ∅ _ !! key) as [e|]; cbn in *.
  - destruct Hl as [Hin Hmax]. split; [by apply Hmem|].
    intros e' He'. apply Hmax. by apply Hmem.
  - intros e He. apply (Hl e). by apply Hmem.
Qed.

End journaled.

(** *** The journal through [Put] and [Delete] *)

Lemma index_entry_insert segs nm key value t key' e :
  let recs0 := default [] (segs !! nm) in
  let e_new := {| recfmt.FileId := nm;
                  recfmt.ValuePos := uint32 (Z.of_nat (length (segment_bytes recs0)));
                  recfmt.RecValueSize := len value; recfmt.RecTstamp := t |} in
  index_entry (<[nm := recs0 ++ [(key, value, t)]]> segs) key' e <->
  index_entry segs key' e \/ (key' = key /\ e = e_new).
Proof.
  intros recs0 e_new.
  assert (Happ : entries_from nm 0 (recs0 ++ [(key, value, t)]) =
                 entries_from nm 0 recs0 ++ [(key, e_new)]).
  { rewrite entries_from_app. cbn [entries_from]. by rewrite Z.add_0_l. }
  unfold index_entry. split.
  - intros (nm' & recs' & Hs & He). destruct (decide (nm' = nm)) as [->|Hne].
    + rewrite lookup_insert_eq in Hs. injection Hs as <-.
      rewrite Happ in He. apply elem_of_app in He as [He|He].
      * left. exists nm, recs0. split; [|done]. subst recs0.
        destruct (segs !! nm); [done|]. by apply elem_of_nil in He.
      * right. apply list_elem_of_singleton in He. by injection He as -> ->.
    + rewrite lookup_insert_ne in Hs by done. left. by exists nm', recs'.
  - intros [(nm' & recs' & Hs & He)|[-> ->]].
    + destruct (decide (nm' = nm)) as [->|Hne].
      * exists nm, (recs0 ++ [(key, value, t)]). rewrite lookup_insert_eq. split; [done|].
        rewrite Happ. apply elem_of_app. left. subst recs0. by rewrite Hs.
      * exists nm', recs'. by rewrite lookup_insert_ne.
    + exists nm, (recs0 ++ [(key, value, t)]). rewrite lookup_insert_eq. split; [done|].
      rewrite Happ. apply elem_of_app. right. by left.
Qed.

Lemma journal_entry_before b w segs key e :
  journal b w segs -> clock_increasing w -> index_entry segs key e ->
  recfmt.RecTstamp e < os.clock w (os.ticks w).
Proof.
  intros Hj Hcl (nm & recs & Hs & He).
  apply elem_of_entries_from in He as [_ [value Hin]].
  destruct (jn_recs _ _ _ Hj nm recs key value _ Hs Hin) as [_ (i & Hi & ->)].
  by apply Hcl.
Qed.

Lemma journal_not_plain nm t :
  nm = datastore.dataName t -> ~ hidden_or_plain nm.
Proof.
  intros -> [[s E]|[E _]].
  - destruct (dataName_visible t) as (c & s' & E' & Hc). congruence.
  - destruct (HasSuffix_dataName t). congruence.
Qed.

Lemma Put_journal fuel b w segs key value :
  consistent b w -> journal b w segs -> sized key value ->
  exists b' w' segs',
    bitcask.Put fuel b w key value = Done (None, b', w') /\
    consistent b' w' /\ journal b' w' segs' /\ os.clock w' = os.clock w /\
    (os.ticks w' <= os.ticks w + 2)%nat /\
    (forall nm', (forall t, nm' <> datastore.dataName t) ->
       os.files w' !! nm' = os.files w !! nm').
Proof.
  intros Hc Hj Hs.
  destruct (Put_consistent fuel b w key value Hc Hs)
    as (b' & w' & rec' & HPut & Hc' & _).
  exists b', w'. revert HPut.
  destruct Hc as [Hrw Hact Hw Hidx Hnm Hfr Hcl [Hrf Hwf]].
  unfold bitcask.Put. rewrite decide_False by (rewrite Hrw; done).
  destruct (os.UnixMicro w) as [t w1] eqn:Ht.
  assert (Hfiles1 : os.files w1 = os.files w) by (by injection Ht as <- <-).
  assert (Hclock1 : os.clock w1 = os.clock w) by (by injection Ht as <- <-).
  assert (Hticks1 : os.ticks w1 = S (os.ticks w)) by (by injection Ht as <- <-).
  assert (Htt : t = os.clock w (os.ticks w)) by (by injection Ht as <- <-).
  assert (Hwf1 : os.wfaults w1 = []) by (by injection Ht as <- <-).
  assert (Hfr1 : fresh w1).
  { pose proof (fresh_tick w Hfr) as H. by rewrite Ht in H. }
  assert (Hw1 : writer_ok (bitcask.activeFile b) w1) by (by eapply writer_ok_files).
  destruct (WriteData_effect fuel (bitcask.activeFile b) w1 key value t Hw1 Hwf1 Hfr1)
    as (pos & a' & w2 & -> & Heff).
  cbn [mbind outcome_bind]. intros HPut. injection HPut as <- <-.
  pose proof (write_effect_clock _ _ _ _ _ _ Heff) as Hclock2.
  pose proof (write_effect_ticks _ _ _ _ _ _ Heff) as Hticks2.
  assert (Hticks3 : (os.ticks w2 <= os.ticks w + 2)%nat).
  { destruct Heff as [f content Hfw Hcont Hsz|Hroll t0]; cbn; lia. }
  destruct Hs as [Hsk Hsv]. pose proof (len_nonneg key). pose proof (len_nonneg value).
  (* the segment written to, and what both cases come to *)
  assert (Hcase : exists nm t0,
            nm = datastore.dataName t0 /\ datastore.Name a' = nm /\
            pos = Z.of_nat (length (segment_bytes (default [] (segs !! nm)))) /\
            (forall nm', nm' <> nm -> os.files w2 !! nm' = os.files w !! nm') /\
            os.files w2 !! nm =
              Some (segment_bytes (default [] (segs !! nm) ++ [(key, value, t)]))).
  { destruct Hw1 as [Hpos Hw1].
    destruct Heff as [f content Hfw Hcont Hsz|Hroll t0].
    - rewrite Hfw in Hw1. destruct Hw1 as (Hname & [t0 Hn0] & (c & Hc1 & Hoff & Hsize) & _).
      rewrite Hfiles1 in Hcont, Hc1.
      assert (c = content) as -> by congruence.
      destruct (jn_files _ _ _ Hj (datastore.fileName (bitcask.activeFile b)))
        as [[recs Hrecs]|Hplain]; [by rewrite Hcont| |by apply (journal_not_plain _ t0) in Hplain].
      destruct (jn_segs _ _ _ Hj _ recs Hrecs) as [_ Hbytes].
      assert (content = segment_bytes recs) as -> by congruence.
      exists (datastore.fileName (bitcask.activeFile b)), t0.
      rewrite Hrecs. cbn [default from_option id].
      split; [done|]. split; [done|]. split; [lia|]. split.
      + intros nm' Hne. cbn. rewrite lookup_insert_ne by done. by rewrite Hfiles1.
      + cbn. rewrite lookup_insert_eq. f_equal.
        rewrite segment_bytes_app. cbn [segment_bytes]. by rewrite app_nil_r.
    - rewrite Hact. subst t0. set (t0 := os.clock w1 (os.ticks w1)).
      destruct (Hfr1 (os.ticks w1) (le_n _)) as [Hnew _]. fold t0 in Hnew.
      assert (Hnone : segs !! datastore.dataName t0 = None).
      { destruct (segs !! datastore.dataName t0) as [recs|] eqn:E; [|done].
        destruct (jn_segs _ _ _ Hj _ recs E) as [_ Hb]. rewrite Hfiles1 in Hnew. congruence. }
      exists (datastore.dataName t0), t0. rewrite Hnone. cbn [default from_option id app].
      split; [done|]. split; [done|]. split; [done|]. split.
      + intros nm' Hne. cbn. rewrite lookup_insert_ne by done. by rewrite Hfiles1.
      + cbn. rewrite lookup_insert_eq. cbn [segment_bytes]. by rewrite app_nil_r. }
  destruct Hcase as (nm & t0 & Hnm0 & Hname & Hpos & Hother & Hnew).
  exists (<[nm := default [] (segs !! nm) ++ [(key, value, t)]]> segs).
  split; [done|]. split; [done|].
  assert (Hrec : {| recfmt.FileId := datastore.Name a'; recfmt.ValuePos := uint32 pos;
                    recfmt.RecValueSize := uint32 (len value); recfmt.RecTstamp := t |} =
                 {| recfmt.FileId := nm;
                    recfmt.ValuePos :=
                      uint32 (Z.of_nat (length (segment_bytes (default [] (segs !! nm)))));
                    recfmt.RecValueSize := len value; recfmt.RecTstamp := t |}).
  { rewrite Hname, Hpos. f_equal. apply uint32_small. lia. }
  split; [|split; [by rewrite Hclock2, Hclock1|split; [done|]]].
  2:{ intros nm' Hnm'. apply Hother. rewrite Hnm0. apply Hnm'. }
  split.
  - intros nm' [c Hc2]. destruct (decide (nm' = nm)) as [->|Hne].
    + left. rewrite lookup_insert_eq. done.
    + rewrite Hother in Hc2 by done.
      destruct (jn_files _ _ _ Hj nm') as [Hin|Hp]; [by exists c| |by right].
      left. by rewrite lookup_insert_ne.
  - intros nm' recs Hrecs. destruct (decide (nm' = nm)) as [->|Hne].
    + rewrite lookup_insert_eq in Hrecs. injection Hrecs as <-.
      split; [by exists t0|done].
    + rewrite lookup_insert_ne in Hrecs by done.
      destruct (jn_segs _ _ _ Hj nm' recs Hrecs) as [Hn Hb]. split; [done|].
      by rewrite Hother.
  - intros nm' recs key0 value0 t1 Hrecs Hin.
    rewrite Hclock2, Hclock1.
    assert (Hold : forall recs0, segs !! nm' = Some recs0 -> (key0, value0, t1) ∈ recs0 ->
              sized key0 value0 /\ exists i, (i < os.ticks w2)%nat /\ t1 = os.clock w i).
    { intros recs0 Hs0 Hin0.
      destruct (jn_recs _ _ _ Hj nm' recs0 key0 value0 t1 Hs0 Hin0) as [Hsz (i & Hi & ->)].
      split; [done|]. exists i. split; [lia|done]. }
    destruct (decide (nm' = nm)) as [->|Hne].
    + rewrite lookup_insert_eq in Hrecs. injection Hrecs as <-.
      apply elem_of_app in Hin as [Hin|Hin].
      * destruct (segs !! nm) as [recs0|] eqn:E; [|by apply elem_of_nil in Hin].
        by apply (Hold recs0).
      * apply list_elem_of_singleton in Hin. injection Hin as -> -> ->.
        split; [done|]. exists (os.ticks w). split; [lia|done].
    + rewrite lookup_insert_ne in Hrecs by done. by apply (Hold recs).
  - intros key0. cbn [bitcask.keyDir bitcask.set_keyDir]. rewrite Hrec.
    destruct (decide (key0 = key)) as [->|Hne].
    + rewrite lookup_insert_eq. cbn. split.
      * apply index_entry_insert. by right.
      * intros e' He'. apply index_entry_insert in He' as [He'|[_ ->]]; [|cbn; lia].
        pose proof (journal_entry_before b w segs key e' Hj Hcl He'). cbn. lia.
    + rewrite lookup_insert_ne by done.
      pose proof (jn_index _ _ _ Hj key0) as Hl.
      destruct (bitcask.keyDir b !! key0) as [e|]; cbn in *.
      * destruct Hl as [Hin Hmax]. split.
        -- apply index_entry_insert. by left.
        -- intros e' He'. apply index_entry_insert in He' as [He'|[? _]]; [|done].
           by apply Hmax.
      * intros e He. apply index_entry_insert in He as [He|[? _]]; [|done].
        by apply (Hl e).
  - intros key0 e1 e2 H1 H2 Heq.
    apply index_entry_insert in H1 as [H1|[-> ->]];
      apply index_entry_insert in H2 as [H2|[E2 ->]].
    + by apply (jn_distinct _ _ _ Hj key0).
    + subst key0. pose proof (journal_entry_before b w segs key e1 Hj Hcl H1).
      cbn in Heq. lia.
    + pose proof (journal_entry_before b w segs key e2 Hj Hcl H2).
      cbn in Heq. lia.
    + done.
Qed.

Lemma Delete_journal fuel b w segs key :
  consistent b w -> journal b w segs ->
  exists e b' w' segs',
    bitcask.Delete fuel b w key = Done (e, b', w') /\
    consistent b' w' /\ journal b' w' segs' /\ os.clock w' = os.clock w /\
    (os.ticks w' <= os.ticks w + 2)%nat /\
    (forall nm', (forall t, nm' <> datastore.dataName t) ->
       os.files w' !! nm' = os.files w !! nm').
Proof.
  intros Hc Hj. unfold bitcask.Delete.
  rewrite decide_False by (rewrite (cons_rw _ _ Hc); done).
  assert (Hdead : forall r e, r = (""%string, Some e) ->
            bitcask.Get fuel b w key = Done (r, w) ->
            exists e b' w' segs',
              ('(_, err, w0) ← bitcask.Get fuel b w key;
               match err with
               | Some e => Done (Some e, b, w0)
               | None => '(_, b0, w1) ← bitcask.Put fuel b w0 key datastore.TompStone;
                         Done (None, b0, w1)
               end) = Done (e, b', w') /\
              consistent b' w' /\ journal b' w' segs' /\ os.clock w' = os.clock w /\
              (os.ticks w' <= os.ticks w + 2)%nat /\
              (forall nm', (forall t, nm' <> datastore.dataName t) ->
                 os.files w' !! nm' = os.files w !! nm')).
  { intros r e -> HG. rewrite HG. cbn [mbind outcome_bind].
    exists (Some e), b, w, segs. split_and!; [done..|lia|done]. }
  destruct (Get_cases fuel b w key Hc) as [[Hk HG]|(rec & v & Hk & Hloc & HG)].
  - by apply (Hdead _ _ eq_refl HG).
  - destruct (decide (v = datastore.TompStone)) as [->|Hlive].
    + rewrite read_result_tombstone in HG. by apply (Hdead _ _ eq_refl HG).
    + rewrite read_result_live in HG by done. rewrite HG. cbn [mbind outcome_bind].
      assert (Hs : sized key datastore.TompStone).
      { apply sized_tombstone. by destruct Hloc as ([Hk' _] & _). }
      destruct (Put_journal fuel b w segs key datastore.TompStone Hc Hj Hs)
        as (b' & w' & segs' & -> & Hc' & Hj' & Hcl & Htk & Hoth).
      cbn [mbind outcome_bind]. by exists None, b', w', segs'.
Qed.

Section run_journal.
Variable fuel : nat.
Variable range : gmap string recfmt.KeyDirRec -> list (string * recfmt.KeyDirRec).

Lemma exec_journal o b w segs :
  consistent b w -> journal b w segs -> op_sized o -> ~ is_merge o ->
  exists b' w' segs',
    exec fuel range o b w = Done (b', w') /\
    consistent b' w' /\ journal b' w' segs' /\ os.clock w' = os.clock w /\
    (os.ticks w' <= os.ticks w + 2)%nat /\
    (forall nm', (forall t, nm' <> datastore.dataName t) ->
       os.files w' !! nm' = os.files w !! nm').
Proof.
  intros Hc Hj Hs Hm.
  assert (Hsame : exists b' w' segs',
            Done (b, w) = Done (b', w') /\
            consistent b' w' /\ journal b' w' segs' /\ os.clock w' = os.clock w /\
            (os.ticks w' <= os.ticks w + 2)%nat /\
            (forall nm', (forall t, nm' <> datastore.dataName t) ->
               os.files w' !! nm' = os.files w !! nm')).
  { exists b, w, segs. split_and!; [done..|lia|done]. }
  destruct o as [key value|key|key| | | |]; cbn [exec op_sized] in *.
  - destruct (Put_journal fuel b w segs key value Hc Hj Hs)
      as (b' & w' & segs' & -> & Hc' & Hj' & Hcl & Htk & Hoth).
    cbn [mbind outcome_bind]. by exists b', w', segs'.
  - destruct (Delete_journal fuel b w segs key Hc Hj)
      as (e & b' & w' & segs' & -> & Hc' & Hj' & Hcl & Htk & Hoth).
    cbn [mbind outcome_bind]. by exists b', w', segs'.
  - destruct (Get_consistent fuel b w key Hc) as [r ->].
    cbn [mbind outcome_bind]. done.
  - exfalso. by apply Hm.
  - unfold bitcask.Sync. rewrite decide_False by (rewrite (cons_rw _ _ Hc); done).
    cbn [mbind outcome_bind]. done.
  - done.
  - unfold bitcask.Fold.
    destruct (Fold_loop_consistent fuel (fun _ _ (acc : unit) => acc) b w
                (range (bitcask.keyDir b)).*1 Hc tt) as [acc' ->].
    cbn [mbind outcome_bind]. done.
Qed.

Lemma run_journal ops :
  forall b w segs,
    consistent b w -> journal b w segs -> Forall op_sized ops ->
    Forall (fun o => ~ is_merge o) ops ->
    exists b' w' segs',
      run fuel range ops b w = Done (b', w') /\
      consistent b' w' /\ journal b' w' segs' /\ os.clock w' = os.clock w /\
      (os.ticks w' <= os.ticks w + 2 * length ops)%nat /\
      (forall nm', (forall t, nm' <> datastore.dataName t) ->
         os.files w' !! nm' = os.files w !! nm').
Proof.
  induction ops as [|o ops IH]; intros b w segs Hc Hj Hs Hm.
  - exists b, w, segs. split_and!; [done..|lia|done].
  - apply Forall_cons in Hs as [Hs1 Hs]. apply Forall_cons in Hm as [Hm1 Hm].
    destruct (exec_journal o b w segs Hc Hj Hs1 Hm1)
      as (b1 & w1 & segs1 & He & Hc1 & Hj1 & Hcl1 & Htk1 & Hoth1).
    destruct (IH b1 w1 segs1 Hc1 Hj1 Hs Hm)
      as (b' & w' & segs' & Hrun & Hc' & Hj' & Hcl' & Htk' & Hoth').
    exists b', w', segs'. cbn [run]. rewrite He. cbn [mbind outcome_bind].
    split; [done|]. split; [done|]. split; [done|]. split; [congruence|].
    split; [cbn [length]; lia|].
    intros nm' Hnm'. rewrite Hoth' by done. by apply Hoth1.
Qed.

End run_journal.

Lemma journal_start b w :
  bitcask.keyDir b = ∅ ->
  (forall nm, is_Some (os.files w !! nm) -> hidden_or_plain nm) ->
  journal b w ∅.
Proof.
  intros Hk Hf. split.
  - intros nm H. right. by apply Hf.
  - intros nm recs H. by rewrite lookup_empty in H.
  - intros nm recs key value t H. by rewrite lookup_empty in H.
  - intros key. rewrite Hk, lookup_empty. cbn. intros e (nm & recs & H & _).
    by rewrite lookup_empty in H.
  - intros key e1 e2 (nm & recs & H & _). by rewrite lookup_empty in H.
Qed.

Lemma journal_rebuilt rangeFiles b w segs :
  rangeFiles_ok rangeFiles -> consistent b w -> journal b w segs ->
  clock_int64 w (os.ticks w) ->
  keydir.dataStoreFilesBuild rangeFiles ∅ w = Done (bitcask.keyDir b, None).
Proof.
  intros Hrf Hc Hj Hclk.
  destruct (dataStoreFilesBuild_journal rangeFiles Hrf w segs) as (k & Hk & Hlatest).
  - apply (cons_names _ _ Hc).
  - apply (jn_files _ _ _ Hj).
  - apply (jn_segs _ _ _ Hj).
  - intros nm recs Hs. apply Forall_forall. intros [[key value] t] Hin.
    destruct (jn_recs _ _ _ Hj nm recs key value t Hs Hin) as [Hsz (i & Hi & ->)].
    split; [done|]. by apply Hclk.
  - rewrite Hk. do 2 f_equal. apply map_eq. intros key.
    pose proof (Hlatest key) as H1. pose proof (jn_index _ _ _ Hj key) as H2.
    destruct (k !! key) as [e1|], (bitcask.keyDir b !! key) as [e2|]; cbn in *.
    + destruct H1 as [Hi1 Hm1], H2 as [Hi2 Hm2]. f_equal.
      apply (jn_distinct _ _ _ Hj key); [done|done|].
      specialize (Hm1 e2 Hi2). specialize (Hm2 e1 Hi1). lia.
    + destruct H1 as [Hi1 _]. by destruct (H2 e1).
    + destruct H2 as [Hi2 _]. by destruct (H1 e2).
    + done.
Qed.

(** What has been put is found again.  Take a consistent handle with an
    empty index (read-write, no I/O fault, clock readings that strictly
    increase) on a directory without data or hint files, and a run of
    operations other than [Merge] in which every [Put] has a key and a
    value whose record the decoder reads back (18 + len key < 2^16 and
    18 + len key + len value < 2^32).  When the clock readings the run can
    take, at most two for an operation, are [int64] values, the run
    returns, and building the index from the files of the directory it
    leaves gives exactly the index of the handle, in whatever order the
    files are visited.  The strict increase matters: [parseDataFile] keeps
    the entry it has unless the record it meets is later, so of two
    records of a key with one timestamp it keeps the first. *)
Theorem dataStoreFilesBuild_recovers_the_index fuel range rangeFiles ops b0 w0 :
  rangeFiles_ok rangeFiles ->
  consistent b0 w0 -> bitcask.keyDir b0 = ∅ ->
  (forall nm, is_Some (os.files w0 !! nm) -> hidden_or_plain nm) ->
  clock_int64 w0 (os.ticks w0 + 2 * length ops) ->
  Forall op_sized ops -> Forall (fun o => ~ is_merge o) ops ->
  exists b w,
    run fuel range ops b0 w0 = Done (b, w) /\
    keydir.dataStoreFilesBuild rangeFiles ∅ w = Done (bitcask.keyDir b, None).
Proof.
  intros Hrf Hc Hk Hf Hclk Hs Hm.
  destruct (run_journal fuel range ops b0 w0 ∅ Hc (journal_start b0 w0 Hk Hf) Hs Hm)
    as (b & w & segs & Hrun & Hc' & Hj & Hcl & Htk & _).
  exists b, w. split; [done|].
  apply (journal_rebuilt rangeFiles b w segs); [done|done|done|].
  intros i Hi. rewrite Hcl. apply Hclk. lia.
Qed.

Lemma hidden_or_plain_new_dir nm :
  is_Some (os.files new_dir !! nm) -> hidden_or_plain nm.
Proof.
  intros [c H]. unfold new_dir in H. cbn in H.
  apply lookup_singleton_Some in H as [<- _]. left. by eexists.
Qed.

Lemma clock_int64_new_dir n : (n <= 1000)%nat -> clock_int64 new_dir n.
Proof. intros Hn i Hi. cbn. lia. Qed.

Lemma dataStoreFilesBuild_recovers_the_index_witness :
  exists b w,
    run 6 map_to_list
      [OpPut "a" (filler 5000); OpPut "b" (filler 5000); OpPut "c" (filler 5000);
       OpDelete "a"; OpPut "b" "2"; OpGet "c"]
      (opened [bitcask.ReadWrite]) new_dir = Done (b, w) /\
    keydir.dataStoreFilesBuild map_to_list ∅ w = Done (bitcask.keyDir b, None).
Proof.
  apply (dataStoreFilesBuild_recovers_the_index 6 map_to_list map_to_list
           [OpPut "a" (filler 5000); OpPut "b" (filler 5000); OpPut "c" (filler 5000);
            OpDelete "a"; OpPut "b" "2"; OpGet "c"]
           (opened [bitcask.ReadWrite]) new_dir).
  - intros m. done.
  - apply consistent_new_dir.
  - reflexivity.
  - apply hidden_or_plain_new_dir.
  - apply clock_int64_new_dir. cbn. lia.
  - rewrite !Forall_cons. split_and!; [..|apply Forall_nil_2]; vm_compute; done.
  - rewrite !Forall_cons. split_and!; [..|apply Forall_nil_2]; cbn; tauto.
Defined.

(** ** Opening and closing a datastore *)

Lemma NewDataStore_Close s path lockMode d s1 :
  datastore.NewDataStore s path lockMode = (inl d, s1) ->
  holders (datastore.Close d s1) = holders s /\
  dir (datastore.Close d s1) = dir s1 /\
  present (datastore.Close d s1) = present s1.
Proof.
  destruct s as [p h w]. unfold datastore.NewDataStore.
  destruct lockMode, p, h; cbn; intros H; try discriminate;
    injection H as <- <-; done.
Qed.

Section open_facts.
Variable fuel : nat.
Variable range : gmap string recfmt.KeyDirRec -> list (string * recfmt.KeyDirRec).
Variable rangeFiles : gmap string keydir.fileType -> list (string * keydir.fileType).
Variable dirStat : Z + error.
Variable keydirStat : Z + error.

(** One writer or several readers.  On a directory whose lock a writer
    holds, [Open] is denied to everyone; on a directory whose lock readers
    hold, it is denied to a writer.  The denied call takes no lock. *)
Theorem Open_respects_the_lock s path opts :
  present s = true ->
  holders s = Writer \/
    (holders s <> Free /\
     bitcask.accessPermission (bitcask.parseUsrOpts opts) = bitcask.ReadWrite) ->
  exists s',
    bitcask.Open fuel range rangeFiles dirStat keydirStat s path opts
      = Done (inr datastore.errAccessDenied, s') /\
    holders s' = holders s /\ present s' = true.
Proof.
  intros Hp Hh. unfold bitcask.Open.
  destruct s as [p h d]. cbn in Hp, Hh. subst p.
  destruct (decide (bitcask.accessPermission (bitcask.parseUsrOpts opts) = bitcask.ReadWrite))
    as [Hrw|Hro].
  - destruct h; [by destruct Hh as [?|[? _]]|..]; cbn; eauto.
  - destruct Hh as [->|[_ ?]]; [|done]. cbn. eauto.
Qed.

(** [Close] gives back what [Open] took: after a successful [Open] and the
    [Close] of its handle, the lock is held as it was before the [Open],
    so the datastore can be opened again. *)
Theorem Open_then_Close_frees_the_lock s path opts b d s' :
  bitcask.Open fuel range rangeFiles dirStat keydirStat s path opts
    = Done (inl (b, d), s') ->
  exists s'', bitcask.Close b d s' = Done s'' /\
              holders s'' = holders s /\ dir s'' = dir s' /\ present s'' = present s'.
Proof.
  unfold bitcask.Open.
  set (usrOpts := bitcask.parseUsrOpts opts).
  destruct (decide (bitcask.accessPermission usrOpts = bitcask.ReadWrite)) as [Hrw|Hro].
  - destruct (datastore.NewDataStore s path datastore.ExclusiveLock) as [[ds|e] s1] eqn:EN;
      [|discriminate].
    destruct (keydir.New fuel range rangeFiles dirStat keydirStat (dir s1)
                keydir.PrivateKeyDir) as [[[k|e] w']| |]; cbn; try discriminate.
    intros H. injection H as <- <- <-. unfold bitcask.Close, bitcask.Sync. cbn.
    rewrite decide_True by done. rewrite decide_False by (rewrite Hrw; done). cbn.
    eexists. split; [done|].
    destruct (NewDataStore_Close _ _ _ _ _ EN) as (H1 & H2 & H3).
    destruct s1 as [p1 h1 w1]. unfold datastore.Close in *. cbn in *.
    destruct (datastore.flck ds); cbn in *; [|done].
    unfold flock.Unlock in *. cbn in *. destruct h1 as [|[|n]|]; cbn in *; done.
  - destruct (datastore.NewDataStore s path datastore.SharedLock) as [[ds|e] s1] eqn:EN;
      [|discriminate].
    destruct (keydir.New fuel range rangeFiles dirStat keydirStat (dir s1)
                keydir.SharedKeyDir) as [[[k|e] w']| |]; cbn; try discriminate.
    intros H. injection H as <- <- <-. unfold bitcask.Close. cbn.
    rewrite decide_False by done. cbn.
    eexists. split; [done|].
    destruct (NewDataStore_Close _ _ _ _ _ EN) as (H1 & H2 & H3).
    destruct s1 as [p1 h1 w1]. unfold datastore.Close in *. cbn in *.
    destruct (datastore.flck ds); cbn in *; [|done].
    unfold flock.Unlock in *. cbn in *. destruct h1 as [|[|n]|]; cbn in *; done.
Qed.

Lemma Open_missing_read_only s path opts :
  present s = false ->
  bitcask.accessPermission (bitcask.parseUsrOpts opts) <> bitcask.ReadWrite ->
  bitcask.Open fuel range rangeFiles dirStat keydirStat s path opts =
  Done (inr ("open " +:+ path +:+ ": no such file or directory"), s).
Proof.
  intros Hp Hro. unfold bitcask.Open. rewrite decide_False by done.
  unfold datastore.NewDataStore. rewrite Hp. cbn. done.
Qed.

End open_facts.

Section New_facts.
Variable fuel : nat.
Variable range : gmap string recfmt.KeyDirRec -> list (string * recfmt.KeyDirRec).
Variable rangeFiles : gmap string keydir.fileType -> list (string * keydir.fileType).
Variable dirStat : Z + error.
Variable keydirStat : Z + error.

Lemma share_loop_ok entries :
  forall file w,
    os.wfaults w = [] ->
    exists w',
      keydir.share_loop fuel entries file w = Done (None, w') /\
      os.wfaults w' = [] /\ os.rfaults w' = os.rfaults w /\
      forall nm, nm <> os.name file -> os.files w' !! nm = os.files w !! nm.
Proof.
  induction entries as [|[key rec] entries IH]; intros file w Hwf.
  - by exists w.
  - cbn [keydir.share_loop]. rewrite Write_ok by done. cbn [mbind outcome_bind].
    destruct (IH (os.write_bytes w file (recfmt.CompressKeyDirRec key rec)).1
                 (os.write_bytes w file (recfmt.CompressKeyDirRec key rec)).2)
      as (w' & -> & Hwf' & Hrf' & Hfiles); [done|].
    exists w'. split; [done|]. split; [done|]. split; [done|].
    intros nm Hnm. rewrite Hfiles by done. cbn. by rewrite lookup_insert_ne.
Qed.

Lemma share_ok k w :
  os.wfaults w = [] ->
  exists w',
    keydir.share fuel range k w = Done (None, w') /\
    os.rfaults w' = os.rfaults w /\
    forall nm, nm <> "keydir"%string -> os.files w' !! nm = os.files w !! nm.
Proof.
  intros Hwf. unfold keydir.share.
  destruct (os.OpenFile w "keydir") as [file w1] eqn:EO.
  assert (Hname : os.name file = "keydir"%string).
  { unfold os.OpenFile in EO. by injection EO as <- _. }
  assert (Hw1 : os.wfaults w1 = [] /\ os.rfaults w1 = os.rfaults w /\
                forall nm, nm <> "keydir"%string -> os.files w1 !! nm = os.files w !! nm).
  { unfold os.OpenFile in EO. injection EO as _ <-.
    destruct (os.files w !! "keydir"%string); [done|]. cbn.
    split; [done|]. split; [done|]. intros nm Hnm. by rewrite lookup_insert_ne. }
  destruct Hw1 as (Hwf1 & Hrf1 & Hf1).
  destruct (share_loop_ok (range k) file w1 Hwf1) as (w' & -> & _ & Hrf' & Hf').
  exists w'. split; [done|]. split; [congruence|].
  intros nm Hnm. rewrite Hf' by (by rewrite Hname). by apply Hf1.
Qed.

Lemma New_from_the_segments w k privacy :
  os.files w !! "keydir"%string = None -> os.wfaults w = [] ->
  keydir.dataStoreFilesBuild rangeFiles ∅ w = Done (k, None) ->
  exists w',
    keydir.New fuel range rangeFiles dirStat keydirStat w privacy = Done (inl k, w') /\
    os.rfaults w' = os.rfaults w /\
    forall nm, nm <> "keydir"%string -> os.files w' !! nm = os.files w !! nm.
Proof.
  intros Hno Hwf Hbuild. unfold keydir.New, keydir.keyDirFileBuild, keydir.keyDirFile.
  rewrite Hno. cbn [mbind outcome_bind]. rewrite Hbuild. cbn [mbind outcome_bind].
  destruct (decide (privacy = keydir.SharedKeyDir)).
  - destruct (share_ok k w Hwf) as (w' & -> & Hrf & Hf). cbn [mbind outcome_bind].
    by exists w'.
  - by exists w.
Qed.

End New_facts.

Lemma OpenFile_lock w :
  let w1 := (os.OpenFile w datastore.lockFile).2 in
  os.rfaults w1 = os.rfaults w /\ os.wfaults w1 = os.wfaults w /\
  os.clock w1 = os.clock w /\ os.ticks w1 = os.ticks w /\
  is_Some (os.files w1 !! datastore.lockFile) /\
  forall nm, nm <> datastore.lockFile -> os.files w1 !! nm = os.files w !! nm.
Proof.
  unfold os.OpenFile. destruct (os.files w !! datastore.lockFile) eqn:E; cbn.
  - split_and!; try done.
  - split_and!; try done.
    + by rewrite lookup_insert_eq.
    + intros nm Hnm. by rewrite lookup_insert_ne.
Qed.

Lemma dataName_not_keydir t : datastore.dataName t <> "keydir"%string.
Proof.
  intros E. destruct (HasSuffix_dataName t) as [H _]. rewrite E in H. done.
Qed.

Lemma dataName_not_lock t : datastore.dataName t <> datastore.lockFile.
Proof.
  intros E. destruct (HasSuffix_dataName t) as [H _]. rewrite E in H. done.
Qed.

Lemma journal_lock b w segs :
  journal b w segs -> journal b (os.OpenFile w datastore.lockFile).2 segs.
Proof.
  intros Hj. destruct (OpenFile_lock w) as (_ & _ & Hcl & Htk & Hl & Hf).
  cbn zeta in *. set (w1 := (os.OpenFile w datastore.lockFile).2) in *.
  split.
  - intros nm Hnm. destruct (decide (nm = datastore.lockFile)) as [->|Hne].
    + right. left. by eexists.
    + rewrite Hf in Hnm by done. by apply (jn_files _ _ _ Hj).
  - intros nm recs Hs. destruct (jn_segs _ _ _ Hj nm recs Hs) as [[t ->] Hb].
    split; [by exists t|]. rewrite Hf; [done|apply dataName_not_lock].
  - intros nm recs key value t Hs Hin. rewrite Hcl, Htk. by apply (jn_recs _ _ _ Hj nm recs).
  - apply (jn_index _ _ _ Hj).
  - apply (jn_distinct _ _ _ Hj).
Qed.

Lemma journal_rebuilt_from rangeFiles b w segs :
  rangeFiles_ok rangeFiles -> os.files w !! ""%string = None -> journal b w segs ->
  clock_int64 w (os.ticks w) ->
  keydir.dataStoreFilesBuild rangeFiles ∅ w = Done (bitcask.keyDir b, None).
Proof.
  intros Hrf Hnm Hj Hclk.
  destruct (dataStoreFilesBuild_journal rangeFiles Hrf w segs) as (k & Hk & Hlatest).
  - done.
  - apply (jn_files _ _ _ Hj).
  - apply (jn_segs _ _ _ Hj).
  - intros nm recs Hs. apply Forall_forall. intros [[key value] t] Hin.
    destruct (jn_recs _ _ _ Hj nm recs key value t Hs Hin) as [Hsz (i & Hi & ->)].
    split; [done|]. by apply Hclk.
  - rewrite Hk. do 2 f_equal. apply map_eq. intros key.
    pose proof (Hlatest key) as H1. pose proof (jn_index _ _ _ Hj key) as H2.
    destruct (k !! key) as [e1|], (bitcask.keyDir b !! key) as [e2|]; cbn in *.
    + destruct H1 as [Hi1 Hm1], H2 as [Hi2 Hm2]. f_equal.
      apply (jn_distinct _ _ _ Hj key); [done|done|].
      specialize (Hm1 e2 Hi2). specialize (Hm2 e1 Hi1). lia.
    + destruct H1 as [Hi1 _]. by destruct (H2 e1).
    + destruct H2 as [Hi2 _]. by destruct (H1 e2).
    + done.
Qed.

(** What has been put is found again after the datastore is reopened.
    Take a consistent handle with an empty index (read-write, no I/O
    fault, clock readings that strictly increase) on a directory that
    holds only hidden files, and a run of operations other than [Merge] in
    which every [Put] has a key and a value whose record the decoder reads
    back (18 + len key < 2^16 and 18 + len key + len value < 2^32), with
    [int64] clock readings.  Then [Open] with any options, on the
    directory the run leaves with its lock free, returns a handle with the
    index the writer had, and [Get] on that handle answers for every key
    as [Get] on the writer's handle did. *)
Theorem Open_finds_what_was_put fuel range rangeFiles dirStat keydirStat
    ops b0 w0 path opts :
  rangeFiles_ok rangeFiles ->
  consistent b0 w0 -> bitcask.keyDir b0 = ∅ ->
  (forall nm, is_Some (os.files w0 !! nm) -> exists s, nm = String "."%char s) ->
  clock_int64 w0 (os.ticks w0 + 2 * length ops) ->
  Forall op_sized ops -> Forall (fun o => ~ is_merge o) ops ->
  exists b w b' d s',
    run fuel range ops b0 w0 = Done (b, w) /\
    bitcask.Open fuel range rangeFiles dirStat keydirStat (disk_of w Free) path opts
      = Done (inl (b', d), s') /\
    bitcask.keyDir b' = bitcask.keyDir b /\
    bitcask.usrOpts b' = bitcask.parseUsrOpts opts /\
    forall key, answer (bitcask.Get fuel b' (dir s') key)
                = answer (bitcask.Get fuel b w key).
Proof.
  intros Hrf Hc Hk Hhidden Hclk Hs Hm.
  assert (Hf0 : forall nm, is_Some (os.files w0 !! nm) -> hidden_or_plain nm).
  { intros nm H. left. by apply Hhidden. }
  destruct (run_journal fuel range ops b0 w0 ∅ Hc (journal_start b0 w0 Hk Hf0) Hs Hm)
    as (b & w & segs & Hrun & Hc' & Hj & Hcl & Htk & Hoth).
  assert (Hnokd : os.files w !! "keydir"%string = None).
  { rewrite Hoth.
    - destruct (os.files w0 !! "keydir"%string) eqn:E; [|done].
      destruct (Hhidden "keydir"%string) as [s Hs']; [by rewrite E|]. done.
    - intros t E. symmetry in E. by apply dataName_not_keydir in E. }
  destruct (OpenFile_lock w) as (Hrf1 & Hwf1 & Hcl1 & Htk1 & Hl1 & Hf1). cbn zeta in *.
  set (w1 := (os.OpenFile w datastore.lockFile).2) in *.
  destruct (cons_faults _ _ Hc') as [Hrfw Hwfw].
  assert (Hbuild : keydir.dataStoreFilesBuild rangeFiles ∅ w1 = Done (bitcask.keyDir b, None)).
  { apply (journal_rebuilt_from rangeFiles b w1 segs); [done| |by apply journal_lock|].
    - rewrite Hf1 by done. apply (cons_names _ _ Hc').
    - intros i Hi. rewrite Hcl1, Hcl. apply Hclk. lia. }
  assert (Hnokd1 : os.files w1 !! "keydir"%string = None) by (by rewrite Hf1).
  assert (Hopen : forall privacy h ds,
            exists w',
              (keyDir ← keydir.New fuel range rangeFiles dirStat keydirStat w1 privacy;
               let '(keyDir, w2) := keyDir in
               let s := set_dir w2 {| present := true; holders := h; dir := w1 |} in
               match keyDir with
               | inr err => Done (inr err, s)
               | inl keyDir =>
                   Done (inl ({| bitcask.keyDir := keyDir;
                                 bitcask.usrOpts := bitcask.parseUsrOpts opts;
                                 bitcask.activeFile :=
                                   datastore.NewAppendFile datastore.Active |},
                              ds), s)
               end)
              = Done (inl ({| bitcask.keyDir := bitcask.keyDir b;
                              bitcask.usrOpts := bitcask.parseUsrOpts opts;
                              bitcask.activeFile :=
                                datastore.NewAppendFile datastore.Active |},
                           ds : datastore.DataStore),
                      {| present := true; holders := h; dir := w' |}) /\
              os.rfaults w' = [] /\
              forall nm, nm <> "keydir"%string -> nm <> datastore.lockFile ->
                os.files w' !! nm = os.files w !! nm).
  { intros privacy h ds.
    destruct (New_from_the_segments fuel range rangeFiles dirStat keydirStat w1
                (bitcask.keyDir b) privacy Hnokd1 ltac:(congruence) Hbuild)
      as (w' & -> & Hrf' & Hf').
    cbn [mbind outcome_bind]. exists w'. split; [done|]. split; [congruence|].
    intros nm H1 H2. rewrite Hf' by done. by apply Hf1. }
  assert (Hanswers : forall w' ds,
            os.rfaults w' = [] ->
            (forall nm, nm <> "keydir"%string -> nm <> datastore.lockFile ->
               os.files w' !! nm = os.files w !! nm) ->
            forall key,
              answer (bitcask.Get fuel
                        {| bitcask.keyDir := bitcask.keyDir b;
                           bitcask.usrOpts := bitcask.parseUsrOpts opts;
                           bitcask.activeFile := ds |} w' key)
              = answer (bitcask.Get fuel b w key)).
  { intros w' ds Hrf' Hf' key.
    destruct (Get_cases fuel b w key Hc') as [[Hnone ->]|(rec & v & Hsome & Hloc & ->)].
    - by rewrite Get_absent.
    - rewrite (Get_located fuel _ w' key rec v); [done|done|done|].
      apply (located_same_file w); [|done].
      destruct Hloc as (_ & [t Ht] & _). rewrite Ht.
      apply Hf'; [apply dataName_not_keydir|apply dataName_not_lock]. }
  exists b, w. unfold bitcask.Open, disk_of.
  destruct (decide (bitcask.accessPermission (bitcask.parseUsrOpts opts) = bitcask.ReadWrite)).
  - destruct (Hopen keydir.PrivateKeyDir Writer
                {| datastore.path := path; datastore.lock := datastore.ExclusiveLock;
                   datastore.flck := true |}) as (w' & HO & Hrf' & Hf').
    eexists _, _, _. split; [done|]. split; [exact HO|].
    split; [done|]. split; [done|]. by apply Hanswers.
  - destruct (Hopen keydir.SharedKeyDir (Readers 0)
                {| datastore.path := path; datastore.lock := datastore.SharedLock;
                   datastore.flck := true |}) as (w' & HO & Hrf' & Hf').
    eexists _, _, _. split; [done|]. split; [exact HO|].
    split; [done|]. split; [done|]. by apply Hanswers.
Qed.

Lemma Open_finds_what_was_put_witness :
  exists b w b' d s',
    run 6 map_to_list [OpPut "a" "1"; OpPut "b" "2"; OpDelete "a"; OpPut "b" "3"]
      (opened [bitcask.ReadWrite]) new_dir = Done (b, w) /\
    bitcask.Open 6 map_to_list map_to_list (inl 2) (inl 1) (disk_of w Free)
      "store" [bitcask.ReadOnly] = Done (inl (b', d), s') /\
    bitcask.keyDir b' = bitcask.keyDir b /\
    bitcask.usrOpts b' = bitcask.parseUsrOpts [bitcask.ReadOnly] /\
    forall key, answer (bitcask.Get 6 b' (dir s') key) = answer (bitcask.Get 6 b w key).
Proof.
  apply (Open_finds_what_was_put 6 map_to_list map_to_list (inl 2) (inl 1)
           [OpPut "a" "1"; OpPut "b" "2"; OpDelete "a"; OpPut "b" "3"]
           (opened [bitcask.ReadWrite]) new_dir "store" [bitcask.ReadOnly]).
  - intros m. done.
  - apply consistent_new_dir.
  - reflexivity.
  - intros nm [c H]. unfold new_dir in H. cbn in H.
    apply lookup_singleton_Some in H as [<- _]. by eexists.
  - apply clock_int64_new_dir. cbn. lia.
  - rewrite !Forall_cons. split_and!; [..|apply Forall_nil_2]; vm_compute; done.
  - rewrite !Forall_cons. split_and!; [..|apply Forall_nil_2]; cbn; tauto.
Defined.

Lemma Open_respects_the_lock_witness :
  exists s',
    bitcask.Open 6 map_to_list map_to_list (inl 2) (inl 1) (disk_of new_dir (Readers 1))
      "store" [bitcask.SyncOnPut; bitcask.ReadWrite]
      = Done (inr "access denied: datastore is locked"%string, s') /\
    holders s' = Readers 1 /\ present s' = true.
Proof.
  apply (Open_respects_the_lock 6 map_to_list map_to_list (inl 2) (inl 1)
           (disk_of new_dir (Readers 1)) "store" [bitcask.SyncOnPut; bitcask.ReadWrite]).
  - reflexivity.
  - right. split; [discriminate|reflexivity].
Defined.

Lemma Open_then_Close_frees_the_lock_witness :
  let b := opened [bitcask.ReadWrite] in
  let d := {| datastore.path := "store"; datastore.lock := datastore.ExclusiveLock;
              datastore.flck := true |} in
  exists s'', bitcask.Close b d (disk_of new_dir Writer) = Done s'' /\
              holders s'' = Free /\ dir s'' = new_dir /\ present s'' = true.
Proof.
  apply (Open_then_Close_frees_the_lock 6 map_to_list map_to_list (inl 2) (inl 1)
           (disk_of new_dir Free) "store" [bitcask.ReadWrite]).
  vm_compute. reflexivity.
Defined.

Lemma Open_creates fuel range rangeFiles dirStat keydirStat s path opts :
  rangeFiles_ok rangeFiles ->
  present s = false -> holders s = Free ->
  os.files (dir s) = ∅ -> os.wfaults (dir s) = [] ->
  bitcask.accessPermission (bitcask.parseUsrOpts opts) = bitcask.ReadWrite ->
  bitcask.Open fuel range rangeFiles dirStat keydirStat s path opts =
  Done (inl (opened opts,
             {| datastore.path := path; datastore.lock := datastore.ExclusiveLock;
                datastore.flck := true |}),
        disk_of (os.set_files {[ datastore.lockFile := [] ]} (dir s)) Writer).
Proof.
  intros Hrf Hp Hh Hf Hwf Hrw. destruct s as [p h w]. cbn in Hp, Hh, Hf, Hwf. subst p h.
  unfold bitcask.Open. rewrite decide_True by done.
  unfold datastore.NewDataStore. cbn [present]. rewrite decide_True by done.
  unfold datastore.createDataStoreDir, MkdirAll, datastore.acquireFileLock.
  cbn [datastore.lock datastore.path holders dir].
  unfold flock.TryLock, flock.open_lock_file. cbn [present holders dir set_dir snd].
  unfold os.OpenFile. rewrite Hf, lookup_empty. cbn [snd set_holders holders present dir].
  set (w1 := os.set_files (<[datastore.lockFile := []]> ∅) w).
  assert (Hfiles1 : os.files w1 = {[ datastore.lockFile := [] ]}) by done.
  destruct (dataStoreFilesBuild_journal rangeFiles Hrf w1 ∅) as (k & Hk & Hlatest).
  - rewrite Hfiles1. by apply lookup_singleton_None.
  - intros nm [c H]. rewrite Hfiles1 in H. apply lookup_singleton_Some in H as [<- _].
    right. left. by eexists.
  - intros nm recs H. by rewrite lookup_empty in H.
  - intros nm recs H. by rewrite lookup_empty in H.
  - assert (k = ∅) as ->.
    { apply map_eq. intros key. rewrite lookup_empty. specialize (Hlatest key).
      destruct (k !! key) as [e|]; [|done]. cbn in Hlatest.
      destruct Hlatest as [(nm & recs & H & _) _]. by rewrite lookup_empty in H. }
    assert (HN : keydir.New fuel range rangeFiles dirStat keydirStat w1
                   keydir.PrivateKeyDir = Done (inl ∅, w1)).
    { unfold keydir.New, keydir.keyDirFileBuild, keydir.keyDirFile.
      rewrite Hfiles1, lookup_singleton_ne by done.
      cbn [mbind outcome_bind]. rewrite Hk. cbn [mbind outcome_bind].
      by rewrite decide_False. }
    change (dir (set_dir w1 _)) with w1. rewrite HN. done.
Qed.

(** A directory that is missing is made by a writer and by no one else.
    [Open] without [ReadWrite] returns the error of opening the directory
    and leaves everything as it is; [Open] with [ReadWrite] makes the
    directory with its lock file, takes the lock for writing, and returns
    a handle with an empty index. *)
Theorem Open_on_a_missing_directory fuel range rangeFiles dirStat keydirStat s path opts :
  rangeFiles_ok rangeFiles ->
  present s = false -> holders s = Free ->
  os.files (dir s) = ∅ -> os.wfaults (dir s) = [] ->
  bitcask.Open fuel range rangeFiles dirStat keydirStat s path opts =
  if decide (bitcask.ReadWrite ∈ opts)
  then Done (inl (opened opts,
                  {| datastore.path := path; datastore.lock := datastore.ExclusiveLock;
                     datastore.flck := true |}),
             disk_of (os.set_files {[ datastore.lockFile := [] ]} (dir s)) Writer)
  else Done (inr ("open " +:+ path +:+ ": no such file or directory"), s).
Proof.
  intros Hrf Hp Hh Hf Hwf.
  pose proof (parseUsrOpts_loop_access opts
                {| bitcask.syncOption := bitcask.SyncOnDemand;
                   bitcask.accessPermission := bitcask.ReadOnly |}) as Hacc.
  fold (bitcask.parseUsrOpts opts) in Hacc.
  destruct (decide (bitcask.ReadWrite ∈ opts)).
  - by apply Open_creates.
  - apply Open_missing_read_only; [done|]. rewrite Hacc. done.
Qed.

Lemma Open_on_a_missing_directory_witness :
  bitcask.Open 6 map_to_list map_to_list (inl 2) (inl 1) no_dir "store" [bitcask.ReadWrite]
  = Done (inl (opened [bitcask.ReadWrite],
               {| datastore.path := "store"; datastore.lock := datastore.ExclusiveLock;
                  datastore.flck := true |}),
          disk_of new_dir Writer) /\
  bitcask.Open 6 map_to_list map_to_list (inl 2) (inl 1) no_dir "store" []
  = Done (inr "open store: no such file or directory"%string, no_dir).
Proof.
  split.
  - apply (Open_on_a_missing_directory 6 map_to_list map_to_list (inl 2) (inl 1)
             no_dir "store" [bitcask.ReadWrite]); [intros m; done|reflexivity..].
  - apply (Open_on_a_missing_directory 6 map_to_list map_to_list (inl 2) (inl 1)
             no_dir "store" []); [intros m; done|reflexivity..].
Defined.

(** ** Damaged records *)

Lemma ExtractDataFileRec_sum sum key value tstamp :
  18 + len key < 2 ^ 16 -> 18 + len key + len value < 2 ^ 32 ->
  0 <= sum < 2 ^ 32 ->
  recfmt.ExtractDataFileRec (record_with_sum sum key value tstamp) =
  if decide (sum <> ChecksumIEEE (data_body key value tstamp))
  then Some (inr recfmt.errDataCorruption)
  else Some (inl ({| recfmt.Key := key; recfmt.Value := value;
                     recfmt.Tstamp := int64 tstamp;
                     recfmt.KeySize := len key; recfmt.ValueSize := len value |},
                  18 + len key + len value)).
Proof.
  intros Hk Hv Hc. unfold record_with_sum.
  pose proof (len_nonneg key) as Hk0. pose proof (len_nonneg value) as Hv0.
  unfold recfmt.ExtractDataFileRec, recfmt.DataFileRecHdr.
  set (C := le_bytes 4 _).
  assert (HC : length C = 4%nat) by apply length_le_bytes.
  unfold data_body at 1 2 3 4 5 6 7.
  set (T := le_bytes 8 _). set (K := le_bytes 2 _). set (V := le_bytes 4 _).
  assert (HT : length T = 8%nat) by apply length_le_bytes.
  assert (HK : length K = 2%nat) by apply length_le_bytes.
  assert (HV : length V = 4%nat) by apply length_le_bytes.
  pose proof (length_bytes_of_Z key) as Hlk.
  pose proof (length_bytes_of_Z value) as Hlv.
  set (B := bytes_of key) in *. set (W := bytes_of value) in *.
  rewrite (Uint_eq 4 _ [] (T ++ K ++ V ++ B ++ W) sum 0); [|done|done].
  bind_step.
  rewrite (Uint_eq 8 _ C (K ++ V ++ B ++ W) (uint64 tstamp) 4); [|done|simpl; lia].
  bind_step.
  rewrite (Uint_eq 2 _ (C ++ T) (V ++ B ++ W) (uint16 (len key)) 12);
    [|by rewrite <- !app_assoc|rewrite length_app; lia].
  bind_step.
  rewrite (Uint_eq 4 _ ((C ++ T) ++ K) (B ++ W) (uint32 (len value)) 14);
    [|by rewrite <- !app_assoc|rewrite !length_app; lia].
  bind_step.
  change (256 ^ Z.of_nat 2) with (2 ^ 16). change (256 ^ Z.of_nat 4) with (2 ^ 32).
  change (256 ^ Z.of_nat 8) with (2 ^ 64).
  unfold uint16, uint32, uint64. rewrite !Z.mod_mod by lia.
  rewrite (Z.mod_small (len key) (2 ^ 16)) by lia.
  rewrite (Z.mod_small (len value) (2 ^ 32)) by lia.
  rewrite (Z.mod_small (18 + len key) (2 ^ 16)) by lia.
  rewrite (Z.mod_small (18 + len key) (2 ^ 32)) by lia.
  rewrite (Z.mod_small (len key) (2 ^ 32)) by lia.
  rewrite (Z.mod_small (18 + len key + len value) (2 ^ 32)) by lia.
  rewrite (Z.mod_small (18 + len value + len key) (2 ^ 32)) by lia.
  rewrite (Z.mod_small sum (2 ^ 32)) by lia.
  rewrite (slice_eq _ (((C ++ T) ++ K) ++ V) B W 18 (18 + len key));
    [|by rewrite <- !app_assoc|rewrite !length_app; lia|lia].
  bind_step.
  rewrite (slice_eq _ ((((C ++ T) ++ K) ++ V) ++ B) W [] (18 + len key) (18 + len key + len value));
    [|by rewrite <- !app_assoc, app_nil_r|rewrite !length_app; lia|lia].
  bind_step.
  rewrite (slice_eq _ C (T ++ K ++ V ++ B ++ W) [] 4 (18 + len key + len value));
    [|by rewrite <- !app_assoc, app_nil_r|lia|rewrite !length_app; lia].
  bind_step.
  unfold recfmt.validateCheckSum.
  fold (uint64 tstamp). rewrite int64_uint64.
  replace (T ++ K ++ V ++ B ++ W) with (data_body key value tstamp).
  2:{ unfold data_body. subst T K V B W. unfold uint16, uint32, uint64. done. }
  destruct (decide (sum <> ChecksumIEEE (data_body key value tstamp))); [done|].
  subst B W. rewrite !string_of_bytes_of.
  replace (18 + len value + len key) with (18 + len key + len value) by lia. done.
Qed.

Lemma length_record_with_sum sum key value tstamp :
  Z.of_nat (length (record_with_sum sum key value tstamp)) = 18 + len key + len value.
Proof. unfold record_with_sum, data_body. list_len. Qed.

(** [Get] does not return a value whose record fails its checksum: when
    the bytes the index entry points at are those of a record of the
    key with another checksum than the one of its contents, [Get] returns
    the corruption error. *)
Theorem Get_detects_a_wrong_checksum fuel b w key rec content sum value tstamp :
  os.rfaults w = [] ->
  bitcask.keyDir b !! key = Some rec ->
  os.files w !! recfmt.FileId rec = Some content ->
  0 <= recfmt.ValuePos rec -> recfmt.RecValueSize rec = len value ->
  sized key value ->
  take (Z.to_nat (18 + len key + len value)) (drop (Z.to_nat (recfmt.ValuePos rec)) content)
    = record_with_sum sum key value tstamp ->
  0 <= sum < 2 ^ 32 -> sum <> ChecksumIEEE (data_body key value tstamp) ->
  bitcask.Get fuel b w key = Done ((""%string, Some recfmt.errDataCorruption), w).
Proof.
  intros Hf Hk Hc Hpos Hsz [Hsk Hsv] Hrec Hsum Hne.
  pose proof (len_nonneg key) as Hk0. pose proof (len_nonneg value) as Hv0.
  unfold bitcask.Get. rewrite Hk.
  unfold datastore.ReadValueFromFile, recfmt.DataFileRecHdr, os.Open.
  rewrite Hc, Hsz.
  unfold uint32. rewrite (Z.mod_small (len key)) by lia.
  rewrite (Z.mod_small (18 + len key + len value)) by lia.
  rewrite (ReadAt_covered fuel w _ _ _ (record_with_sum sum key value tstamp)).
  - cbn [mbind outcome_bind].
    rewrite ExtractDataFileRec_sum by done. by rewrite decide_True.
  - done.
  - done.
  - unfold os.contents. cbn [os.name]. rewrite Hc. cbn [default].
    by rewrite length_make.
  - rewrite length_make. pose proof (length_record_with_sum sum key value tstamp). lia.
Qed.

Lemma Get_detects_a_wrong_checksum_witness :
  bitcask.Get 6 damaged_state.1 damaged_state.2 "k"
  = Done ((""%string, Some "corrution detected: datastore files are corrupted"%string),
          damaged_state.2).
Proof.
  apply (Get_detects_a_wrong_checksum 6 damaged_state.1 damaged_state.2 "k"
           {| recfmt.FileId := "1700000000000001.data"; recfmt.ValuePos := 0;
              recfmt.RecValueSize := 1; recfmt.RecTstamp := 1700000000000000 |}
           (record_with_sum 0 "k" "v" 1700000000000000) 0 "v" 1700000000000000).
  - reflexivity.
  - vm_compute. reflexivity.
  - vm_compute. reflexivity.
  - done.
  - reflexivity.
  - split; vm_compute; done.
  - vm_compute. reflexivity.
  - lia.
  - vm_compute. discriminate.
Defined.

(** ** The command handlers of the server *)

(** A value that is set is the value that is got, until the key is
    deleted: on a consistent handle [set] answers OK, a [get] of the key
    then answers with the value, [delete] answers OK, and a [get] after it
    answers null. *)
Theorem set_get_delete_get fuel b w c1 c2 c3 key value :
  consistent b w -> sized key value -> value <> datastore.TompStone ->
  exists b1 w1 b2 w2,
    respserver.set fuel b w [c1; key; value]
      = Done ([respserver.WriteSimpleString "OK"], b1, w1) /\
    respserver.get fuel b1 w1 [c2; key] = Done ([respserver.WriteString value], b1, w1) /\
    respserver.delete fuel b1 w1 [c3; key]
      = Done ([respserver.WriteSimpleString "OK"], b2, w2) /\
    respserver.get fuel b2 w2 [c2; key] = Done ([respserver.WriteNull], b2, w2).
Proof.
  intros Hc Hs Hlive.
  destruct (Put_step fuel b w key value Hc Hs) as (b1 & w1 & HP & Hc1 & HG1 & _).
  rewrite read_result_live in HG1 by done.
  destruct (Delete_step fuel b1 w1 key Hc1) as (e & b2 & w2 & HD & Hc2 & HG2 & _).
  assert (e = None) as ->.
  { revert HD. unfold bitcask.Delete.
    rewrite decide_False by (rewrite (cons_rw _ _ Hc1); done).
    rewrite HG1. cbn [mbind outcome_bind].
    destruct (bitcask.Put fuel b1 w1 key datastore.TompStone) as [[[e' b'] w']| |];
      cbn [mbind outcome_bind]; [|done..]. by intros [= <- _ _]. }
  exists b1, w1, b2, w2. unfold respserver.set, respserver.get, respserver.delete.
  rewrite HP, HG1, HD, HG2. done.
Qed.

Lemma set_get_delete_get_witness :
  exists b1 w1 b2 w2,
    respserver.set 6 (opened [bitcask.ReadWrite]) new_dir ["set"; "k"; "v"]%string
      = Done ([respserver.WriteSimpleString "OK"], b1, w1) /\
    respserver.get 6 b1 w1 ["get"; "k"]%string
      = Done ([respserver.WriteString "v"], b1, w1) /\
    respserver.delete 6 b1 w1 ["delete"; "k"]%string
      = Done ([respserver.WriteSimpleString "OK"], b2, w2) /\
    respserver.get 6 b2 w2 ["get"; "k"]%string = Done ([respserver.WriteNull], b2, w2).
Proof.
  apply (set_get_delete_get 6 (opened [bitcask.ReadWrite]) new_dir
           "set" "get" "delete" "k" "v").
  - apply consistent_new_dir.
  - split; vm_compute; done.
  - discriminate.
Defined.

(** ** A write that fails half way *)

(** C6, as the code has it.  [WriteData] returns at the error of [Write]
    before it counts anything, and [Write] reports 0 bytes when it gives
    up, whatever it has written by then.  On a disk that runs full after
    3000 bytes of the first record, the first call returns the error; the
    3000 bytes stay in the segment and are in neither [currentPos] nor
    [currentSize].  The next two records, of 5019 bytes each, fit the
    bound by the count of the writer, 10038, and take the segment to
    13038 bytes, beyond [maxFileSize], with two whole records in it. *)
Theorem WriteData_overfills_after_a_failed_write :
  let a0 := datastore.NewAppendFile datastore.Active in
  let rec_a := recfmt.CompressDataFileRec "a" (filler 3000) 1 in
  let rec_b := recfmt.CompressDataFileRec "b" (filler 5000) 2 in
  let rec_c := recfmt.CompressDataFileRec "c" (filler 5000) 3 in
  (exists a1 w1,
     datastore.WriteData 6 a0 full_disk "a" (filler 3000) 1
       = Done ((0, Some "no space left on device"%string), a1, w1) /\
     os.files w1 !! datastore.fileName a1 = Some (take 3000 rec_a) /\
     datastore.currentSize a1 = 0) /\
  (exists a w,
     WriteData_all 6 a0 full_disk
       [("a"%string, filler 3000, 1); ("b"%string, filler 5000, 2);
        ("c"%string, filler 5000, 3)] = Done (a, w) /\
     os.files w !! datastore.fileName a = Some (take 3000 rec_a ++ rec_b ++ rec_c) /\
     Z.of_nat (length (take 3000 rec_a ++ rec_b ++ rec_c)) = 13038 /\
     datastore.currentSize a = 10038 /\
     datastore.maxFileSize = 10240).
Proof.
  intros a0 rec_a rec_b rec_c. split.
  - eexists _, _. split; [vm_compute; reflexivity|]. split; vm_compute; reflexivity.
  - eexists _, _. split; [vm_compute; reflexivity|].
    split; [vm_compute; reflexivity|]. split; [vm_compute; reflexivity|].
    split; vm_compute; reflexivity.
Qed.

(** ** The tombstone literal under a long key *)

Lemma ExtractDataFileRec_key_end_wraps key value tstamp :
  2 ^ 16 <= 18 + len key -> len key < 2 ^ 16 ->
  recfmt.ExtractDataFileRec (recfmt.CompressDataFileRec key value tstamp) = None.
Proof.
  intros Hk Hk'. pose proof (len_nonneg key) as Hk0.
  rewrite CompressDataFileRec_eq.
  unfold recfmt.ExtractDataFileRec, recfmt.DataFileRecHdr.
  set (C := le_bytes 4 _).
  assert (HC : length C = 4%nat) by apply length_le_bytes.
  unfold data_body at 1 2 3 4 5 6 7.
  set (T := le_bytes 8 _). set (K := le_bytes 2 _). set (V := le_bytes 4 _).
  assert (HT : length T = 8%nat) by apply length_le_bytes.
  assert (HK : length K = 2%nat) by apply length_le_bytes.
  assert (HV : length V = 4%nat) by apply length_le_bytes.
  set (B := bytes_of key) in *. set (W := bytes_of value) in *.
  rewrite (Uint_eq 4 _ [] (T ++ K ++ V ++ B ++ W)
             (ChecksumIEEE (data_body key value tstamp)) 0); [|done|done].
  bind_step.
  rewrite (Uint_eq 8 _ C (K ++ V ++ B ++ W) (uint64 tstamp) 4); [|done|simpl; lia].
  bind_step.
  rewrite (Uint_eq 2 _ (C ++ T) (V ++ B ++ W) (uint16 (len key)) 12);
    [|by rewrite <- !app_assoc|rewrite length_app; lia].
  bind_step.
  rewrite (Uint_eq 4 _ ((C ++ T) ++ K) (B ++ W) (uint32 (len value)) 14);
    [|by rewrite <- !app_assoc|rewrite !length_app; lia].
  bind_step.
  change (256 ^ Z.of_nat 2) with (2 ^ 16).
  unfold uint16 at 2. rewrite Z.mod_mod by lia.
  rewrite (Z.mod_small (len key) (2 ^ 16)) by lia.
  rewrite slice_None; [done|].
  unfold uint16. replace (18 + len key) with (18 + len key - 2 ^ 16 + 1 * 2 ^ 16) by lia.
  rewrite Z_mod_plus_full, Z.mod_small; lia.
Qed.

(** C9, as the code has it.  For a key of 65518 to 65535 bytes, [Put] of
    the tombstone literal returns nil on every consistent handle: the
    record is longer than a segment, so it opens a segment of its own.
    The [Get] that follows reads the record back whole and hands it to the
    decoder, where the end of the key wraps on [uint16] and the slice
    expression panics: [Get] returns nothing, and not that the key does
    not exist. *)
Theorem Get_panics_after_Put_of_a_long_key fuel b w key :
  consistent b w -> 2 ^ 16 <= 18 + len key -> len key < 2 ^ 16 ->
  exists b' w',
    bitcask.Put fuel b w key datastore.TompStone = Done (None, b', w') /\
    bitcask.Get fuel b' w' key = Panics.
Proof.
  intros Hc Hlo Hhi. pose proof (len_nonneg key) as Hk0.
  destruct Hc as [Hrw Hact Hw Hidx Hnm Hfr Hcl [Hrf Hwf]].
  unfold bitcask.Put. rewrite decide_False by (rewrite Hrw; done).
  destruct (os.UnixMicro w) as [t w1] eqn:Ht.
  assert (Hfiles1 : os.files w1 = os.files w) by (by injection Ht as <- <-).
  assert (Hrf1 : os.rfaults w1 = []) by (by injection Ht as <- <-).
  assert (Hwf1 : os.wfaults w1 = []) by (by injection Ht as <- <-).
  assert (Hfr1 : fresh w1).
  { pose proof (fresh_tick w Hfr) as H. by rewrite Ht in H. }
  assert (Hw1 : writer_ok (bitcask.activeFile b) w1) by (by eapply writer_ok_files).
  destruct (WriteData_effect fuel (bitcask.activeFile b) w1 key datastore.TompStone t
              Hw1 Hwf1 Hfr1) as (pos & a' & w2 & -> & Heff).
  cbn [mbind outcome_bind]. eexists _, _. split; [reflexivity|].
  unfold bitcask.Get. cbn [bitcask.keyDir bitcask.set_keyDir bitcask.set_activeFile].
  rewrite lookup_insert_eq. cbn [recfmt.FileId recfmt.ValuePos recfmt.RecValueSize].
  pose proof (length_CompressDataFileRec key datastore.TompStone t) as Hlen.
  change (len datastore.TompStone) with 64 in *.
  destruct Heff as [f content Hfw Hcont Hsz|Hroll t0].
  - (* the record does not fit an open segment *)
    exfalso. destruct Hw1 as [_ Hw1]. rewrite Hfw in Hw1.
    destruct Hw1 as (_ & _ & (c & _ & _ & Hsize) & _).
    unfold datastore.maxFileSize in Hsz. lia.
  - unfold datastore.ReadValueFromFile, recfmt.DataFileRecHdr, datastore.Name, os.Open.
    cbn [datastore.fileName os.files]. rewrite lookup_insert_eq.
    rewrite (uint32_small 0), (uint32_small 64), (uint32_small (len key)) by lia.
    rewrite (uint32_small (18 + len key + 64)) by lia.
    rewrite (ReadAt_covered fuel _ _ _ 0
               (recfmt.CompressDataFileRec key datastore.TompStone t)).
    + cbn [mbind outcome_bind]. by rewrite ExtractDataFileRec_key_end_wraps.
    + done.
    + done.
    + unfold os.contents. cbn [os.name os.files]. rewrite lookup_insert_eq.
      cbn [default from_option id]. rewrite drop_0, length_make.
      apply take_ge. lia.
    + rewrite length_make. lia.
Qed.

Lemma Get_panics_after_Put_of_a_long_key_witness :
  exists b' w',
    bitcask.Put 6 (opened [bitcask.ReadWrite]) new_dir long_key datastore.TompStone
      = Done (None, b', w') /\
    bitcask.Get 6 b' w' long_key = Panics.
Proof.
  apply (Get_panics_after_Put_of_a_long_key 6 (opened [bitcask.ReadWrite]) new_dir long_key).
  - apply consistent_new_dir.
  - rewrite len_long_key. lia.
  - rewrite len_long_key. lia.
Defined.
